(** * rodumani: the timeline engine and the directive queue

    A shallow embedding of [src/utils/timelineUtils.ts] (classes
    [TimelineManager] and [KeyframeManager]) and of the session part of
    [src/api/mcpInterface.ts] (classes [EditingSession] and
    [MCPVideoEditingServer]), followed by the properties of the
    specification that concern them and by further properties of the code.

    Conventions of the embedding.
    - Frames ([startFrame], [durationInFrames], [totalDuration]) are
      integers, as the data model of the specification has them: [Z].
      What [splitItem] and [moveItem] do with a frame that is [undefined]
      or [NaN] is modelled apart, in [Loose].
      Placement and transform numbers are only stored and copied: [Q].
    - A field or parameter that the source declares optional ([x?: T]) is
      an [option]; [None] is [undefined]. The assertion [x!] is erased by
      the compiler and hands the value on as it is.
    - A JavaScript [Map<string, V>] iterates in insertion order, and the
      code relies on that order ([getTracks().find]): it is an association
      list with the [Map] operations written out ([JsMap]).
    - The class methods mutate [this]; here every method takes the state
      and returns the new state next to its result.
    - [generateId()] reads the clock and a random source and [Date.now()]
      reads the clock: their results are inputs of the method that calls
      them (arguments [newId], [opId], [now]).
    - Every caller in the repository hands a freshly built object literal to
      [addItemToTrack], and [splitItem] builds its second part with a spread
      copy, so no two slots of a track share an object: items are values.
    - A method that throws returns [Throw].
    - The values of keyframes are interpolated with the arithmetic of
      JavaScript numbers, which rounds: that arithmetic is a parameter
      ([JsNumber]), and nothing proved below depends on how it rounds. *)

From Stdlib Require Import ZArith QArith Lia.
From stdpp Require Import prelude strings pretty sorting.

(** ** JavaScript containers *)

Module JsMap.

(** [Map.prototype.get] *)
Definition get {V} (k : string) (m : list (string * V)) : option V :=
  snd <$> (snd <$> list_find (λ kv, kv.1 = k) m).

(** [Map.prototype.set]: an existing key keeps its place in the order. *)
Definition set {V} (k : string) (v : V) (m : list (string * V)) : list (string * V) :=
  match list_find (λ kv, kv.1 = k) m with
  | Some (i, _) => <[i := (k, v)]> m
  | None => m ++ [(k, v)]
  end.

(** [Map.prototype.delete]: the result tells whether the key was there. *)
Definition delete {V} (k : string) (m : list (string * V)) : list (string * V) * bool :=
  match list_find (λ kv, kv.1 = k) m with
  | Some (i, _) => (base.delete i m, true)
  | None => (m, false)
  end.

(** [Array.from(map.values())] *)
Definition values {V} (m : list (string * V)) : list V := m.*2.

(** [Array.from(map.keys())] *)
Definition keys {V} (m : list (string * V)) : list string := m.*1.

End JsMap.

Module JsArray.

(** [Array.prototype.pop]: the last element and the array without it. *)
Definition pop {A} (l : list A) : option (A * list A) :=
  match reverse l with
  | [] => None
  | x :: r => Some (x, reverse r)
  end.

(** [Array.prototype.shift]: the first element and the array without it. *)
Definition shift {A} (l : list A) : option (A * list A) :=
  match l with
  | [] => None
  | x :: r => Some (x, r)
  end.

(** [array.sort((a, b) => key(a) - key(b))]: the sort is stable, so the
    result is ascending in [key] with equal keys in the order they had. It
    is computed by inserting the elements one after the other, each behind
    the elements that do not come after it. *)
Fixpoint insertBy {A} (key : A → Z) (x : A) (l : list A) : list A :=
  match l with
  | [] => [x]
  | e :: r => if (key x <? key e)%Z then x :: e :: r else e :: insertBy key x r
  end.

Definition sortBy {A} (key : A → Z) (l : list A) : list A :=
  foldl (λ sorted x, insertBy key x sorted) [] l.

End JsArray.

(** ** The data model *)

Inductive MediaType := MVideo | MAudio | MImage.

(** [interface MediaItem] of [Composition.tsx] *)
Module MediaItem.

Record t := mk {
  id : string;
  type : MediaType;
  src : string;
  startFrame : Z;
  durationInFrames : Z;
  x : Q;
  y : Q;
  width : Q;
  height : Q;
  opacity : option Q;
  scale : option Q;
  rotation : option Q
}.

(** Assignments to one field of the object. *)
Definition with_id (v : string) (i : t) : t :=
  mk v (type i) (src i) (startFrame i) (durationInFrames i)
     (x i) (y i) (width i) (height i) (opacity i) (scale i) (rotation i).
Definition with_startFrame (v : Z) (i : t) : t :=
  mk (id i) (type i) (src i) v (durationInFrames i)
     (x i) (y i) (width i) (height i) (opacity i) (scale i) (rotation i).
Definition with_durationInFrames (v : Z) (i : t) : t :=
  mk (id i) (type i) (src i) (startFrame i) v
     (x i) (y i) (width i) (height i) (opacity i) (scale i) (rotation i).
Definition with_x (v : Q) (i : t) : t :=
  mk (id i) (type i) (src i) (startFrame i) (durationInFrames i)
     v (y i) (width i) (height i) (opacity i) (scale i) (rotation i).
Definition with_y (v : Q) (i : t) : t :=
  mk (id i) (type i) (src i) (startFrame i) (durationInFrames i)
     (x i) v (width i) (height i) (opacity i) (scale i) (rotation i).
Definition with_width (v : Q) (i : t) : t :=
  mk (id i) (type i) (src i) (startFrame i) (durationInFrames i)
     (x i) (y i) v (height i) (opacity i) (scale i) (rotation i).
Definition with_height (v : Q) (i : t) : t :=
  mk (id i) (type i) (src i) (startFrame i) (durationInFrames i)
     (x i) (y i) (width i) v (opacity i) (scale i) (rotation i).
Definition with_opacity (v : option Q) (i : t) : t :=
  mk (id i) (type i) (src i) (startFrame i) (durationInFrames i)
     (x i) (y i) (width i) (height i) v (scale i) (rotation i).
Definition with_scale (v : option Q) (i : t) : t :=
  mk (id i) (type i) (src i) (startFrame i) (durationInFrames i)
     (x i) (y i) (width i) (height i) (opacity i) v (rotation i).
Definition with_rotation (v : option Q) (i : t) : t :=
  mk (id i) (type i) (src i) (startFrame i) (durationInFrames i)
     (x i) (y i) (width i) (height i) (opacity i) (scale i) v.

(** [item.startFrame + item.durationInFrames], the end of the occupied
    interval [[startFrame, endFrame)]. *)
Definition endFrame (i : t) : Z := (startFrame i + durationInFrames i)%Z.

End MediaItem.

Inductive TrackType := TVideo | TAudio | TSubtitle.

#[global] Instance TrackType_eq_dec : EqDecision TrackType.
Proof. solve_decision. Defined.

(** [interface Track]. The interface declares [name: string] and a
    three-valued [type]; [MCPVideoEditingServer.handleCreateTrack] forwards
    the optional request fields as [name!] and [type as ...], which the
    compiler erases, so at run time either slot can hold [undefined]:
    [None]. *)
Module Track.

Record t := mk {
  id : string;
  name : option string;
  type : option TrackType;
  items : list MediaItem.t;
  isLocked : bool;
  isVisible : bool;
  volume : option Q
}.

Definition with_items (v : list MediaItem.t) (tr : t) : t :=
  mk (id tr) (name tr) (type tr) v (isLocked tr) (isVisible tr) (volume tr).
Definition with_isLocked (v : bool) (tr : t) : t :=
  mk (id tr) (name tr) (type tr) (items tr) v (isVisible tr) (volume tr).

End Track.

(** The union type of [EditOperation.type]. *)
Inductive OperationType := OpCut | OpTrim | OpMove | OpCopy | OpDelete | OpSplit.

(** The string literal each member of the union stands for. *)
Definition OperationType_literal (k : OperationType) : string :=
  match k with
  | OpCut => "cut" | OpTrim => "trim" | OpMove => "move"
  | OpCopy => "copy" | OpDelete => "delete" | OpSplit => "split"
  end.

(** [interface EditOperationParameters]: every field is optional. The
    [item] field holds the object itself; what is kept here are its fields
    as of the call that logged it. *)
Module EditOperationParameters.

Record t := mk {
  action : option string;
  item : option MediaItem.t;
  oldStartFrame : option Z;
  newStartFrame : option Z;
  oldTrackId : option string;
  newTrackId : option string;
  oldDuration : option Z;
  newDuration : option Z;
  trimStart : option Z;
  trimEnd : option Z;
  splitFrame : option Z;
  secondPartId : option string
}.

(** The object literal [{}]. *)
Definition empty : t :=
  mk None None None None None None None None None None None None.

End EditOperationParameters.

(** [interface EditOperation] *)
Module EditOperation.

Record t := mk {
  id : string;
  type : OperationType;
  trackId : string;
  itemId : string;
  timestamp : Z;
  parameters : EditOperationParameters.t
}.

End EditOperation.

(** ** class TimelineManager *)

Module TimelineManager.

Record t := mk {
  tracks : list (string * Track.t);
  currentFrame : Z;
  totalDuration : Z;
  fps : Z;
  undoStack : list EditOperation.t;
  redoStack : list EditOperation.t
}.

Definition with_tracks (v : list (string * Track.t)) (tm : t) : t :=
  mk v (currentFrame tm) (totalDuration tm) (fps tm) (undoStack tm) (redoStack tm).
Definition with_totalDuration (v : Z) (tm : t) : t :=
  mk (tracks tm) (currentFrame tm) v (fps tm) (undoStack tm) (redoStack tm).
Definition with_undoStack (v : list EditOperation.t) (tm : t) : t :=
  mk (tracks tm) (currentFrame tm) (totalDuration tm) (fps tm) v (redoStack tm).
Definition with_redoStack (v : list EditOperation.t) (tm : t) : t :=
  mk (tracks tm) (currentFrame tm) (totalDuration tm) (fps tm) (undoStack tm) v.

(** [constructor(fps = 30)] *)
Definition new (fps : Z) : t := mk [] 0 0 fps [] [].

(** [items.findIndex(item => item.id === itemId)] together with
    [items.find(...)]: the first slot whose item has the identifier. *)
Definition findItem (itemId : string) (items : list MediaItem.t)
  : option (nat * MediaItem.t) :=
  list_find (λ it, MediaItem.id it = itemId) items.

(** [createTrack(name, type)]; the arguments are what arrives at run time
    (see [Track]). *)
Definition createTrack (tm : t) (name : option string) (type : option TrackType)
    (newId : string) : t * Track.t :=
  let track :=
    Track.mk newId name type [] false true
      (if decide (type = Some TAudio) then Some 1%Q else None) in
  (with_tracks (JsMap.set (Track.id track) track (tracks tm)) tm, track).

(** [deleteTrack(trackId)] *)
Definition deleteTrack (tm : t) (trackId : string) : t * bool :=
  let '(m, found) := JsMap.delete trackId (tracks tm) in
  (with_tracks m tm, found).

(** [getTracks()] *)
Definition getTracks (tm : t) : list Track.t := JsMap.values (tracks tm).

(** [getTrack(trackId)] *)
Definition getTrack (tm : t) (trackId : string) : option Track.t :=
  JsMap.get trackId (tracks tm).

(** The overlap test of [resolveOverlaps]:
    [!(newItemEnd <= item.startFrame || newItem.startFrame >= itemEnd)]. *)
Definition overlaps (newItem item : MediaItem.t) : bool :=
  negb ((MediaItem.endFrame newItem <=? MediaItem.startFrame item)%Z
        || (MediaItem.startFrame newItem >=? MediaItem.endFrame item)%Z).

(** The body of the [forEach] callback of [resolveOverlaps], run on slot
    [k] of the array. *)
Definition resolveVisit (newItem : MediaItem.t) (items : list MediaItem.t) (k : nat)
  : list MediaItem.t :=
  match items !! k with
  | None => items
  | Some item =>
    if decide (MediaItem.id item = MediaItem.id newItem) then items
    else if overlaps newItem item then
      if (MediaItem.startFrame newItem <? MediaItem.startFrame item)%Z then
        <[k := MediaItem.with_startFrame (MediaItem.endFrame newItem) item]> items
      else
        <[k := MediaItem.with_durationInFrames
                 (Z.max 1 (MediaItem.startFrame newItem - MediaItem.startFrame item))
                 item]> items
    else items
  end.

(** [resolveOverlaps(track, newItem)]: [forEach] visits the slots of
    [track.items] once each, in order. *)
Definition resolveOverlaps (track : Track.t) (newItem : MediaItem.t) : Track.t :=
  Track.with_items
    (foldl (resolveVisit newItem) (Track.items track)
           (seq 0 (length (Track.items track))))
    track.

(** [updateTotalDuration()] *)
Definition updateTotalDuration (tm : t) : t :=
  let maxDuration :=
    foldl (λ acc track,
             foldl (λ acc item, Z.max acc (MediaItem.endFrame item))
                   acc (Track.items track))
          0%Z (JsMap.values (tracks tm)) in
  with_totalDuration maxDuration tm.


(** [getCurrentFrame()] *)
Definition getCurrentFrame (tm : t) : Z := currentFrame tm.

(** [getTotalDuration()] *)
Definition getTotalDuration (tm : t) : Z := totalDuration tm.

(** [getActiveItems()] *)
Definition getActiveItems (tm : t) : list MediaItem.t :=
  foldl (λ activeItems track,
           if negb (Track.isVisible track) then activeItems
           else
             foldl (λ activeItems item,
                      if (currentFrame tm >=? MediaItem.startFrame item)%Z
                         && (currentFrame tm <? MediaItem.endFrame item)%Z
                      then activeItems ++ [item]
                      else activeItems)
                   activeItems (Track.items track))
        [] (JsMap.values (tracks tm)).

(** [recordOperation(operation)] *)
Definition recordOperation (tm : t) (operation : EditOperation.t) : t :=
  let pushed := undoStack tm ++ [operation] in
  let capped := if decide (100 < length pushed) then drop 1 pushed else pushed in
  with_redoStack [] (with_undoStack capped tm).

(** [addItemToTrack(trackId, item, insertFrame?)] *)
Definition addItemToTrack (tm : t) (trackId : string) (item : MediaItem.t)
    (insertFrame : option Z) (opId : string) (now : Z) : t * bool :=
  match JsMap.get trackId (tracks tm) with
  | None => (tm, false)
  | Some track =>
    if Track.isLocked track then (tm, false)
    else
      let item :=
        match insertFrame with
        | Some f => MediaItem.with_startFrame f item
        | None => item
        end in
      let track := resolveOverlaps track item in
      let track := Track.with_items (Track.items track ++ [item]) track in
      let tm := with_tracks (JsMap.set trackId track (tracks tm)) tm in
      let tm := updateTotalDuration tm in
      let tm :=
        recordOperation tm
          (EditOperation.mk opId OpMove trackId (MediaItem.id item) now
             (EditOperationParameters.mk (Some "add") (Some item)
                None None None None None None None None None None)) in
      (tm, true)
  end.

(** [removeItemFromTrack(trackId, itemId)] *)
Definition removeItemFromTrack (tm : t) (trackId itemId : string)
    (opId : string) (now : Z) : t * bool :=
  match JsMap.get trackId (tracks tm) with
  | None => (tm, false)
  | Some track =>
    if Track.isLocked track then (tm, false)
    else
      match findItem itemId (Track.items track) with
      | None => (tm, false)
      | Some (itemIndex, removedItem) =>
        let track := Track.with_items (delete itemIndex (Track.items track)) track in
        let tm := with_tracks (JsMap.set trackId track (tracks tm)) tm in
        let tm := updateTotalDuration tm in
        let tm :=
          recordOperation tm
            (EditOperation.mk opId OpDelete trackId itemId now
               (EditOperationParameters.mk (Some "remove") (Some removedItem)
                  None None None None None None None None None None)) in
        (tm, true)
      end
  end.

(** The test [!newTrackId || newTrackId === trackId] of [moveItem]: an
    absent or empty [newTrackId] is falsy. *)
Definition sameTrack (trackId : string) (newTrackId : option string) : bool :=
  match newTrackId with
  | None => true
  | Some n => bool_decide (n = "") || bool_decide (n = trackId)
  end.

(** [newTrackId || trackId] *)
Definition orTrackId (trackId : string) (newTrackId : option string) : string :=
  match newTrackId with
  | None => trackId
  | Some n => if decide (n = "") then trackId else n
  end.

(** [moveItem(trackId, itemId, newStartFrame, newTrackId?)] *)
Definition moveItem (tm : t) (trackId itemId : string) (newStartFrame : Z)
    (newTrackId : option string) (opId : string) (now : Z) : t * bool :=
  match JsMap.get trackId (tracks tm) with
  | None => (tm, false)
  | Some sourceTrack =>
    if Track.isLocked sourceTrack then (tm, false)
    else
      match findItem itemId (Track.items sourceTrack) with
      | None => (tm, false)
      | Some (itemIndex, item) =>
        let oldStartFrame := MediaItem.startFrame item in
        let moved : option (list (string * Track.t)) :=
          if sameTrack trackId newTrackId then
            let item := MediaItem.with_startFrame newStartFrame item in
            let sourceTrack :=
              Track.with_items (<[itemIndex := item]> (Track.items sourceTrack))
                sourceTrack in
            let sourceTrack := resolveOverlaps sourceTrack item in
            Some (JsMap.set trackId sourceTrack (tracks tm))
          else
            match JsMap.get (orTrackId trackId newTrackId) (tracks tm) with
            | None => None
            | Some targetTrack =>
              if Track.isLocked targetTrack then None
              else
                let sourceTrack :=
                  Track.with_items (delete itemIndex (Track.items sourceTrack))
                    sourceTrack in
                let item := MediaItem.with_startFrame newStartFrame item in
                let targetTrack := resolveOverlaps targetTrack item in
                let targetTrack :=
                  Track.with_items (Track.items targetTrack ++ [item]) targetTrack in
                Some (JsMap.set (orTrackId trackId newTrackId) targetTrack
                        (JsMap.set trackId sourceTrack (tracks tm)))
            end in
        match moved with
        | None => (tm, false)
        | Some m =>
          let tm := with_tracks m tm in
          let tm := updateTotalDuration tm in
          let tm :=
            recordOperation tm
              (EditOperation.mk opId OpMove trackId itemId now
                 (EditOperationParameters.mk None None
                    (Some oldStartFrame) (Some newStartFrame)
                    (Some trackId) (Some (orTrackId trackId newTrackId))
                    None None None None None None)) in
          (tm, true)
        end
      end
  end.

(** [trimItem(trackId, itemId, trimStart?, trimEnd?)] *)
Definition trimItem (tm : t) (trackId itemId : string)
    (trimStart trimEnd : option Z) (opId : string) (now : Z) : t * bool :=
  match JsMap.get trackId (tracks tm) with
  | None => (tm, false)
  | Some track =>
    if Track.isLocked track then (tm, false)
    else
      match findItem itemId (Track.items track) with
      | None => (tm, false)
      | Some (itemIndex, item) =>
        let oldDuration := MediaItem.durationInFrames item in
        let item :=
          match trimStart with
          | Some ts =>
            let trimAmount := (ts - MediaItem.startFrame item)%Z in
            MediaItem.with_durationInFrames
              (Z.max 1 (MediaItem.durationInFrames item - trimAmount))
              (MediaItem.with_startFrame ts item)
          | None => item
          end in
        let item :=
          match trimEnd with
          | Some te =>
            let newDuration := (te - MediaItem.startFrame item)%Z in
            MediaItem.with_durationInFrames (Z.max 1 newDuration) item
          | None => item
          end in
        let track :=
          Track.with_items (<[itemIndex := item]> (Track.items track)) track in
        let tm := with_tracks (JsMap.set trackId track (tracks tm)) tm in
        let tm := updateTotalDuration tm in
        let tm :=
          recordOperation tm
            (EditOperation.mk opId OpTrim trackId itemId now
               (EditOperationParameters.mk None None None None None None
                  (Some oldDuration) (Some (MediaItem.durationInFrames item))
                  trimStart trimEnd None None)) in
        (tm, true)
      end
  end.

(** [splitItem(trackId, itemId, splitFrame)]; [newId] is the identifier
    [generateId()] returns for the second part. *)
Definition splitItem (tm : t) (trackId itemId : string) (splitFrame : Z)
    (newId opId : string) (now : Z) : t * bool :=
  match JsMap.get trackId (tracks tm) with
  | None => (tm, false)
  | Some track =>
    if Track.isLocked track then (tm, false)
    else
      match findItem itemId (Track.items track) with
      | None => (tm, false)
      | Some (itemIndex, item) =>
        let relativeFrame := (splitFrame - MediaItem.startFrame item)%Z in
        if (relativeFrame <=? 0)%Z || (relativeFrame >=? MediaItem.durationInFrames item)%Z
        then (tm, false)
        else
          let secondPart :=
            MediaItem.with_durationInFrames
              (MediaItem.durationInFrames item - relativeFrame)
              (MediaItem.with_startFrame splitFrame
                 (MediaItem.with_id newId item)) in
          let item := MediaItem.with_durationInFrames relativeFrame item in
          let track :=
            Track.with_items
              (<[itemIndex := item]> (Track.items track) ++ [secondPart]) track in
          let tm := with_tracks (JsMap.set trackId track (tracks tm)) tm in
          let tm :=
            recordOperation tm
              (EditOperation.mk opId OpSplit trackId itemId now
                 (EditOperationParameters.mk None None None None None None
                    None None None None
                    (Some splitFrame) (Some (MediaItem.id secondPart)))) in
          (tm, true)
      end
  end.

(** [executeOperation(operation)]: the body only writes to the console. *)
Definition executeOperation (tm : t) (operation : EditOperation.t) : t := tm.

(** [executeReverseOperation(operation)]: the body only writes to the
    console. *)
Definition executeReverseOperation (tm : t) (operation : EditOperation.t) : t := tm.

(** [undo()] *)
Definition undo (tm : t) : t * bool :=
  match JsArray.pop (undoStack tm) with
  | None => (tm, false)
  | Some (operation, rest) =>
    let tm := with_undoStack rest tm in
    let tm := executeReverseOperation tm operation in
    let tm := with_redoStack (redoStack tm ++ [operation]) tm in
    (tm, true)
  end.

(** [redo()] *)
Definition redo (tm : t) : t * bool :=
  match JsArray.pop (redoStack tm) with
  | None => (tm, false)
  | Some (operation, rest) =>
    let tm := with_redoStack rest tm in
    let tm := executeOperation tm operation in
    let tm := with_undoStack (undoStack tm ++ [operation]) tm in
    (tm, true)
  end.

(** [interface TimelineExportData] *)
Record TimelineExportData := mkExport {
  data_tracks : list Track.t;
  data_currentFrame : Z;
  data_totalDuration : Z;
  data_fps : Z
}.

(** [export()] *)
Definition export (tm : t) : TimelineExportData :=
  mkExport (JsMap.values (tracks tm)) (currentFrame tm) (totalDuration tm) (fps tm).

(** [import(data)]; [data.fps || 30] replaces a zero rate by 30. *)
Definition import (tm : t) (data : TimelineExportData) : t :=
  mk (foldl (λ m track, JsMap.set (Track.id track) track m) [] (data_tracks data))
     (data_currentFrame data)
     (data_totalDuration data)
     (if decide (data_fps data = 0%Z) then 30%Z else data_fps data)
     (undoStack tm) (redoStack tm).

End TimelineManager.

(** ** class KeyframeManager *)

(** The arithmetic [getValue] does on numbers: the number an integer
    stands for (the frame differences and the literals 1, 2, 4 and -1), the
    literal [0.5], the four operations and the comparison [<]. *)
Class JsNumber (num : Type) := {
  ofInteger : Z → num;
  half : num;
  add : num → num → num;
  sub : num → num → num;
  mul : num → num → num;
  div : num → num → num;
  ltb : num → num → bool
}.

(** The union type of [Keyframe.easing]. *)
Inductive Easing := Linear | EaseIn | EaseOut | EaseInOut.

(** [number | string] *)
Inductive KeyframeValue (num : Type) :=
| VNumber (n : num)
| VString (s : string).
Arguments VNumber {num} n.
Arguments VString {num} s.

(** [interface Keyframe] *)
Module Keyframe.

Record t (num : Type) := mk {
  frame : Z;
  property : string;
  value : KeyframeValue num;
  easing : option Easing
}.
Arguments mk {num} frame property value easing.
Arguments frame {num} _.
Arguments property {num} _.
Arguments value {num} _.
Arguments easing {num} _.

End Keyframe.

Module KeyframeManager.

Section WithNumbers.
Context {num : Type} `{JsNumber num}.

Record t := mk {
  keyframes : list (string * list (Keyframe.t num))
}.

Definition new : t := mk [].

(** [addKeyframe(itemId, keyframe)]; the list is looked up after an empty
    one was stored for an item without an entry, so the lookup finds
    one. *)
Definition addKeyframe (km : t) (itemId : string) (keyframe : Keyframe.t num) : t :=
  let m :=
    match JsMap.get itemId (keyframes km) with
    | None => JsMap.set itemId [] (keyframes km)
    | Some _ => keyframes km
    end in
  match JsMap.get itemId m with
  | None => mk m
  | Some kfs =>
    let kfs := kfs ++ [keyframe] in
    let kfs := JsArray.sortBy Keyframe.frame kfs in
    mk (JsMap.set itemId kfs m)
  end.

(** [keyframes.findIndex(kf => kf.frame === frame && kf.property === property)] *)
Definition findKeyframe (frame : Z) (property : string) (kfs : list (Keyframe.t num))
  : option (nat * Keyframe.t num) :=
  list_find (λ kf, Keyframe.frame kf = frame ∧ Keyframe.property kf = property) kfs.

(** [removeKeyframe(itemId, frame, property)] *)
Definition removeKeyframe (km : t) (itemId : string) (frame : Z) (property : string)
  : t * bool :=
  match JsMap.get itemId (keyframes km) with
  | None => (km, false)
  | Some kfs =>
    match findKeyframe frame property kfs with
    | None => (km, false)
    | Some (index, _) => (mk (JsMap.set itemId (delete index kfs) (keyframes km)), true)
    end
  end.

(** [applyEasing(t, easing)] *)
Definition applyEasing (t : num) (easing : Easing) : num :=
  match easing with
  | EaseIn => mul t t
  | EaseOut => sub (ofInteger 1) (mul (sub (ofInteger 1) t) (sub (ofInteger 1) t))
  | EaseInOut =>
    if ltb t half then mul (mul (ofInteger 2) t) t
    else add (ofInteger (-1)) (mul (sub (ofInteger 4) (mul (ofInteger 2) t)) t)
  | Linear => t
  end.

(** [interpolate(start, end, progress, easing)] *)
Definition interpolate (start end_ : KeyframeValue num) (progress : num)
    (easing : Easing) : KeyframeValue num :=
  let easedProgress := applyEasing progress easing in
  match start, end_ with
  | VNumber s, VNumber e => VNumber (add s (mul (sub e s) easedProgress))
  | _, _ => start
  end.

(** [getValue(itemId, frame, property)] *)
Definition getValue (km : t) (itemId : string) (frame : Z) (property : string)
  : option (KeyframeValue num) :=
  match JsMap.get itemId (keyframes km) with
  | None => None
  | Some kfs =>
    let propertyKeyframes := filter (λ kf, Keyframe.property kf = property) kfs in
    if decide (length propertyKeyframes = 0) then None
    else
      match list_find (λ kf, Keyframe.frame kf = frame) propertyKeyframes with
      | Some (_, exactKeyframe) => Some (Keyframe.value exactKeyframe)
      | None =>
        let beforeKeyframes :=
          filter (λ kf, (Keyframe.frame kf < frame)%Z) propertyKeyframes in
        let afterKeyframes :=
          filter (λ kf, (Keyframe.frame kf > frame)%Z) propertyKeyframes in
        if decide (length beforeKeyframes = 0)
        then Keyframe.value <$> head afterKeyframes
        else if decide (length afterKeyframes = 0)
        then Keyframe.value <$> last beforeKeyframes
        else
          match last beforeKeyframes, head afterKeyframes with
          | Some before, Some after =>
            let progress :=
              div (ofInteger (frame - Keyframe.frame before))
                  (ofInteger (Keyframe.frame after - Keyframe.frame before)) in
            Some (interpolate (Keyframe.value before) (Keyframe.value after) progress
                    (default Linear (Keyframe.easing before)))
          | _, _ => None
          end
      end
  end.

End WithNumbers.

Arguments t num : clear implicits.

End KeyframeManager.

(** ** Directives, assets and the status report ([mcpInterface.ts]) *)

Inductive AgentType :=
  Director | BgmGenerator | SfxGenerator | TtsGenerator | Editor.

#[global] Instance AgentType_eq_dec : EqDecision AgentType.
Proof. solve_decision. Defined.

Inductive AssetType := AssetBgm | AssetSfx | AssetTts | AssetImage | AssetVideo.

(** [interface GeneratedAsset]; [data] is a URL or the bytes of a file,
    kept as a string, and the untyped [generationParams] is left out. *)
Module GeneratedAsset.

Record t := mk {
  id : string;
  type : AssetType;
  agentId : string;
  data : string;
  duration : option Q;
  filename : string;
  mimeType : string;
  description : option string;
  tags : option (list string)
}.

End GeneratedAsset.

Inductive DirectiveType :=
  CutSequence | AddBgm | AddSfx | AddText | AddTransition | ApplyEffect.

(** The [parameters] object of a directive, without the untyped [style]. *)
Module DirectiveParameters.

Record t := mk {
  startTime : option Q;
  endTime : option Q;
  position : option (Q * Q);
  asset : option GeneratedAsset.t;
  text : option string;
  effect : option string
}.

Definition empty : t := mk None None None None None None.

End DirectiveParameters.

(** [interface EditingDirective]; [parameters] is a required field of the
    interface and is taken to be there. *)
Module EditingDirective.

Record t := mk {
  id : string;
  type : DirectiveType;
  target : option string;
  parameters : DirectiveParameters.t;
  priority : Z;
  description : string
}.

End EditingDirective.

Inductive StatusKind := Idle | Processing | Completed | StatusError.

(** [interface EditingStatus] *)
Module EditingStatus.

Record t := mk {
  sessionId : string;
  currentStep : nat;
  totalSteps : nat;
  status : StatusKind;
  message : string;
  completedDirectives : list string;
  pendingDirectives : list string;
  generatedAssets : list GeneratedAsset.t
}.

End EditingStatus.

(** [pendingDirectives.sort((a, b) => a.priority - b.priority)].
    [Array.prototype.sort] is stable, so with this comparator it yields the
    one arrangement that is ascending in [priority] and keeps directives of
    equal priority in the order they had ([sortByPriority_unique] below).
    That arrangement is computed here by inserting the elements one after
    the other, each behind the elements that do not come after it. *)
Fixpoint insertByPriority (d : EditingDirective.t) (l : list EditingDirective.t)
  : list EditingDirective.t :=
  match l with
  | [] => [d]
  | e :: r =>
    if (EditingDirective.priority d <? EditingDirective.priority e)%Z
    then d :: e :: r
    else e :: insertByPriority d r
  end.

Definition sortByPriority (l : list EditingDirective.t) : list EditingDirective.t :=
  foldl (λ sorted d, insertByPriority d sorted) [] l.

(** ** class EditingSession

    The media manager and the save date of a session play no part in the
    methods below and are left out. *)

Module EditingSession.

Record t := mk {
  sessionId : string;
  timelineManager : TimelineManager.t;
  isDirty : bool;
  directorAgent : option string;
  connectedAgents : list (AgentType * string);
  pendingDirectives : list EditingDirective.t;
  completedDirectives : list string;
  generatedAssets : list (string * GeneratedAsset.t);
  editingStatus : EditingStatus.t
}.

Definition with_timelineManager (v : TimelineManager.t) (s : t) : t :=
  mk (sessionId s) v (isDirty s) (directorAgent s) (connectedAgents s)
     (pendingDirectives s) (completedDirectives s) (generatedAssets s)
     (editingStatus s).
Definition with_isDirty (v : bool) (s : t) : t :=
  mk (sessionId s) (timelineManager s) v (directorAgent s) (connectedAgents s)
     (pendingDirectives s) (completedDirectives s) (generatedAssets s)
     (editingStatus s).
Definition with_pendingDirectives (v : list EditingDirective.t) (s : t) : t :=
  mk (sessionId s) (timelineManager s) (isDirty s) (directorAgent s)
     (connectedAgents s) v (completedDirectives s) (generatedAssets s)
     (editingStatus s).
Definition with_completedDirectives (v : list string) (s : t) : t :=
  mk (sessionId s) (timelineManager s) (isDirty s) (directorAgent s)
     (connectedAgents s) (pendingDirectives s) v (generatedAssets s)
     (editingStatus s).
Definition with_generatedAssets (v : list (string * GeneratedAsset.t)) (s : t) : t :=
  mk (sessionId s) (timelineManager s) (isDirty s) (directorAgent s)
     (connectedAgents s) (pendingDirectives s) (completedDirectives s) v
     (editingStatus s).
Definition with_editingStatus (v : EditingStatus.t) (s : t) : t :=
  mk (sessionId s) (timelineManager s) (isDirty s) (directorAgent s)
     (connectedAgents s) (pendingDirectives s) (completedDirectives s)
     (generatedAssets s) v.

(** [constructor(sessionId)] *)
Definition new (sessionId : string) : t :=
  mk sessionId (TimelineManager.new 30) false None [] [] [] []
     (EditingStatus.mk sessionId 0 0 Idle "Session created" [] [] []).

(** [getTimelineManager()] *)
Definition getTimelineManager (s : t) : TimelineManager.t := timelineManager s.

(** [markDirty()] *)
Definition markDirty (s : t) : t := with_isDirty true s.

(** [isDirtyState()] *)
Definition isDirtyState (s : t) : bool := isDirty s.

(** [registerAgent(agentType, agentId)] *)
Definition registerAgent (s : t) (agentType : AgentType) (agentId : string) : t :=
  let agents :=
    match list_find (λ kv, kv.1 = agentType) (connectedAgents s) with
    | Some (i, _) => <[i := (agentType, agentId)]> (connectedAgents s)
    | None => connectedAgents s ++ [(agentType, agentId)]
    end in
  mk (sessionId s) (timelineManager s) (isDirty s)
     (if decide (agentType = Director) then Some agentId else directorAgent s)
     agents (pendingDirectives s) (completedDirectives s) (generatedAssets s)
     (editingStatus s).

(** [updateEditingStatus()] *)
Definition updateEditingStatus (s : t) : t :=
  with_editingStatus
    (EditingStatus.mk
       (sessionId s)
       (length (completedDirectives s))
       (length (completedDirectives s) + length (pendingDirectives s))
       (if decide (0 < length (pendingDirectives s)) then Processing else Completed)
       (pretty (length (completedDirectives s)) +:+ " tasks completed, "
          +:+ pretty (length (pendingDirectives s)) +:+ " pending")
       (completedDirectives s)
       (EditingDirective.id <$> pendingDirectives s)
       (JsMap.values (generatedAssets s)))
    s.

(** [addDirectives(directives)] *)
Definition addDirectives (s : t) (directives : list EditingDirective.t) : t :=
  let s := with_pendingDirectives (pendingDirectives s ++ directives) s in
  let s := with_pendingDirectives (sortByPriority (pendingDirectives s)) s in
  updateEditingStatus s.

(** [addGeneratedAsset(asset)] *)
Definition addGeneratedAsset (s : t) (asset : GeneratedAsset.t) : t :=
  let s :=
    with_generatedAssets
      (JsMap.set (GeneratedAsset.id asset) asset (generatedAssets s)) s in
  updateEditingStatus s.

(** [getNextDirective()] *)
Definition getNextDirective (s : t) : t * option EditingDirective.t :=
  match JsArray.shift (pendingDirectives s) with
  | None => (s, None)
  | Some (d, rest) => (with_pendingDirectives rest s, Some d)
  end.

(** [markDirectiveCompleted(directiveId)] *)
Definition markDirectiveCompleted (s : t) (directiveId : string) : t :=
  let s := with_completedDirectives (completedDirectives s ++ [directiveId]) s in
  updateEditingStatus s.

(** [getEditingStatus()] *)
Definition getEditingStatus (s : t) : EditingStatus.t := editingStatus s.

End EditingSession.

(** ** class MCPVideoEditingServer *)

(** What a [throw] or a failing property access raises. *)
Inductive JsError :=
| Error (message : string)
| TypeError (message : string).

(** The text [`${error}`] interpolates. *)
Definition JsError_toString (e : JsError) : string :=
  match e with
  | Error m => "Error: " +:+ m
  | TypeError m => "TypeError: " +:+ m
  end.

(** The result of a method that can throw. *)
Inductive outcome (A : Type) :=
| Return (a : A)
| Throw (e : JsError).
Arguments Return {A} a.
Arguments Throw {A} e.

(** [haystack.includes(needle)] *)
Fixpoint includes (haystack needle : string) : bool :=
  String.prefix needle haystack
  || match haystack with
     | EmptyString => false
     | String _ rest => includes rest needle
     end.

(** [tracks.find(t => t.name.includes(needle))]: the callback runs on the
    tracks in order until one matches; reading [includes] off a name that is
    [undefined] raises a [TypeError]. *)
Fixpoint findTrackByName (needle : string) (tracks : list Track.t)
  : outcome (option Track.t) :=
  match tracks with
  | [] => Return None
  | track :: rest =>
    match Track.name track with
    | None =>
      Throw (TypeError "Cannot read properties of undefined (reading 'includes')")
    | Some n =>
      if includes n needle then Return (Some track)
      else findTrackByName needle rest
    end
  end.

Inductive RequestTrackType := ReqVideo | ReqAudio | ReqSubtitle | ReqOverlay.

(** [interface RequestParams], the fields the handlers below read; all of
    them are optional. *)
Module RequestParams.

Record t := mk {
  sessionId : option string;
  trackId : option string;
  itemId : option string;
  name : option string;
  type : option RequestTrackType;
  x : option Q;
  y : option Q;
  width : option Q;
  height : option Q;
  opacity : option Q;
  scale : option Q;
  rotation : option Q;
  directives : option (list EditingDirective.t);
  asset : option GeneratedAsset.t
}.

(** The object literal [{ sessionId }]. *)
Definition ofSession (sessionId : string) : t :=
  mk (Some sessionId) None None None None None None None None None None None
     None None.

End RequestParams.

(** [interface ResponseResult], the fields the handlers below set. *)
Module ResponseResult.

Record t := mk {
  success : option bool;
  message : option string;
  track : option Track.t;
  mediaItem : option MediaItem.t;
  editingStatus : option EditingStatus.t
}.

End ResponseResult.

Module MCPVideoEditingServer.

Record t := mk {
  sessions : list (string * EditingSession.t)
}.

Definition new : t := mk [].

(** [createSession()]; [sessionId] is what [generateSessionId()] returns. *)
Definition createSession (srv : t) (sessionId : string) : t * string :=
  (mk (JsMap.set sessionId (EditingSession.new sessionId) (sessions srv)), sessionId).

(** [getSession(sessionId!)]: no key of the map is [undefined]. *)
Definition getSession (srv : t) (sessionId : option string) : option EditingSession.t :=
  match sessionId with
  | None => None
  | Some k => JsMap.get k (sessions srv)
  end.

(** [deleteSession(sessionId)] *)
Definition deleteSession (srv : t) (sessionId : string) : t * bool :=
  let '(m, found) := JsMap.delete sessionId (sessions srv) in
  (mk m, found).

(** The session object found by [getSession] is changed in place. *)
Definition putSession (srv : t) (sessionId : option string) (s : EditingSession.t) : t :=
  match sessionId with
  | None => srv
  | Some k => mk (JsMap.set k s (sessions srv))
  end.

(** [handleCreateTrack(params)] *)
Definition handleCreateTrack (srv : t) (params : RequestParams.t) (newId : string)
  : t * outcome ResponseResult.t :=
  match getSession srv (RequestParams.sessionId params) with
  | None => (srv, Throw (Error "Session not found"))
  | Some session =>
    let trackType :=
      match RequestParams.type params with
      | Some ReqOverlay => Some TVideo
      | Some ReqVideo => Some TVideo
      | Some ReqAudio => Some TAudio
      | Some ReqSubtitle => Some TSubtitle
      | None => None
      end in
    let '(tm, track) :=
      TimelineManager.createTrack (EditingSession.getTimelineManager session)
        (RequestParams.name params) trackType newId in
    let session := EditingSession.with_timelineManager tm session in
    let session := EditingSession.markDirty session in
    (putSession srv (RequestParams.sessionId params) session,
     Return (ResponseResult.mk None None (Some track) None None))
  end.

(** [if (v !== undefined) item.f = v] *)
Definition assignIfDefined {A} (v : option A) (set : A → MediaItem.t → MediaItem.t)
    (item : MediaItem.t) : MediaItem.t :=
  match v with
  | Some a => set a item
  | None => item
  end.

(** [handleSetProperties(params)] *)
Definition handleSetProperties (srv : t) (params : RequestParams.t)
  : t * outcome ResponseResult.t :=
  match getSession srv (RequestParams.sessionId params) with
  | None => (srv, Throw (Error "Session not found"))
  | Some session =>
    let tm := EditingSession.getTimelineManager session in
    match RequestParams.trackId params ≫= TimelineManager.getTrack tm with
    | None => (srv, Throw (Error "Track not found"))
    | Some track =>
      match RequestParams.itemId params
              ≫= (λ itemId, TimelineManager.findItem itemId (Track.items track)) with
      | None => (srv, Throw (Error "Item not found"))
      | Some (itemIndex, item) =>
        let item := assignIfDefined (RequestParams.x params) MediaItem.with_x item in
        let item := assignIfDefined (RequestParams.y params) MediaItem.with_y item in
        let item := assignIfDefined (RequestParams.width params) MediaItem.with_width item in
        let item := assignIfDefined (RequestParams.height params) MediaItem.with_height item in
        let item :=
          assignIfDefined (RequestParams.opacity params)
            (λ v, MediaItem.with_opacity (Some v)) item in
        let item :=
          assignIfDefined (RequestParams.scale params)
            (λ v, MediaItem.with_scale (Some v)) item in
        let item :=
          assignIfDefined (RequestParams.rotation params)
            (λ v, MediaItem.with_rotation (Some v)) item in
        let track :=
          Track.with_items (<[itemIndex := item]> (Track.items track)) track in
        let tm :=
          TimelineManager.with_tracks
            (match RequestParams.trackId params with
             | Some k => JsMap.set k track (TimelineManager.tracks tm)
             | None => TimelineManager.tracks tm
             end) tm in
        let session := EditingSession.with_timelineManager tm session in
        let session := EditingSession.markDirty session in
        (putSession srv (RequestParams.sessionId params) session,
         Return (ResponseResult.mk (Some true) None None (Some item) None))
      end
    end
  end.

(** [handleSubmitAsset(params)]; a request of this method carries the
    asset ([asset!]). *)
Definition handleSubmitAsset (srv : t) (params : RequestParams.t)
  : t * outcome ResponseResult.t :=
  match getSession srv (RequestParams.sessionId params) with
  | None => (srv, Throw (Error "Session not found"))
  | Some session =>
    match RequestParams.asset params with
    | None =>
      (srv, Throw (TypeError "Cannot read properties of undefined (reading 'id')"))
    | Some asset =>
      let session := EditingSession.addGeneratedAsset session asset in
      (putSession srv (RequestParams.sessionId params) session,
       Return (ResponseResult.mk (Some true)
                 (Some ("Asset " +:+ GeneratedAsset.id asset +:+ " received"))
                 None None None))
    end
  end.

(** [handleSubmitDirectives(params)]; spreading an absent [directives!]
    into [push] raises. *)
Definition handleSubmitDirectives (srv : t) (params : RequestParams.t)
  : t * outcome ResponseResult.t :=
  match getSession srv (RequestParams.sessionId params) with
  | None => (srv, Throw (Error "Session not found"))
  | Some session =>
    match RequestParams.directives params with
    | None => (srv, Throw (TypeError "undefined is not iterable"))
    | Some directives =>
      let session := EditingSession.addDirectives session directives in
      (putSession srv (RequestParams.sessionId params) session,
       Return (ResponseResult.mk (Some true)
                 (Some (pretty (length directives) +:+ " directives received"))
                 None None
                 (Some (EditingSession.getEditingStatus session))))
    end
  end.

(** [handleGetStatus(params)] *)
Definition handleGetStatus (srv : t) (params : RequestParams.t)
  : t * outcome ResponseResult.t :=
  match getSession srv (RequestParams.sessionId params) with
  | None => (srv, Throw (Error "Session not found"))
  | Some session =>
    (srv, Return (ResponseResult.mk None None None None
                    (Some (EditingSession.getEditingStatus session))))
  end.

(** [executeCutSequence], [executeAddSFX], [executeAddText],
    [executeAddTransition], [executeApplyEffect]: the bodies are empty. *)
Definition executeCutSequence (session : EditingSession.t) (params : DirectiveParameters.t)
  : EditingSession.t * outcome unit := (session, Return ()).
Definition executeAddSFX (session : EditingSession.t) (params : DirectiveParameters.t)
  : EditingSession.t * outcome unit := (session, Return ()).
Definition executeAddText (session : EditingSession.t) (params : DirectiveParameters.t)
  : EditingSession.t * outcome unit := (session, Return ()).
Definition executeAddTransition (session : EditingSession.t) (params : DirectiveParameters.t)
  : EditingSession.t * outcome unit := (session, Return ()).
Definition executeApplyEffect (session : EditingSession.t) (params : DirectiveParameters.t)
  : EditingSession.t * outcome unit := (session, Return ()).

(** [executeAddBGM(session, params)]; [newId] is the identifier
    [generateId()] returns when a track is created. *)
Definition executeAddBGM (session : EditingSession.t) (params : DirectiveParameters.t)
    (newId : string) : EditingSession.t * outcome unit :=
  match DirectiveParameters.asset params with
  | None => (session, Return ())
  | Some _ =>
    let tm := EditingSession.getTimelineManager session in
    match findTrackByName "BGM" (TimelineManager.getTracks tm) with
    | Throw e => (session, Throw e)
    | Return (Some bgmTrack) => (session, Return ())
    | Return None =>
      let '(tm, bgmTrack) :=
        TimelineManager.createTrack tm (Some "Background Music") (Some TAudio) newId in
      (EditingSession.with_timelineManager tm session, Return ())
    end
  end.

(** [executeDirective(session, directive)] *)
Definition executeDirective (session : EditingSession.t) (directive : EditingDirective.t)
    (newId : string) : EditingSession.t * outcome unit :=
  let parameters := EditingDirective.parameters directive in
  match EditingDirective.type directive with
  | CutSequence => executeCutSequence session parameters
  | AddBgm => executeAddBGM session parameters newId
  | AddSfx => executeAddSFX session parameters
  | AddText => executeAddText session parameters
  | AddTransition => executeAddTransition session parameters
  | ApplyEffect => executeApplyEffect session parameters
  end.

(** [handleExecuteNext(params)] *)
Definition handleExecuteNext (srv : t) (params : RequestParams.t) (newId : string)
  : t * outcome ResponseResult.t :=
  match getSession srv (RequestParams.sessionId params) with
  | None => (srv, Throw (Error "Session not found"))
  | Some session =>
    match EditingSession.getNextDirective session with
    | (session, None) =>
      (putSession srv (RequestParams.sessionId params) session,
       Return (ResponseResult.mk (Some false) (Some "No pending directives")
                 None None None))
    | (session, Some directive) =>
      match executeDirective session directive newId with
      | (session, Return _) =>
        let session :=
          EditingSession.markDirectiveCompleted session
            (EditingDirective.id directive) in
        (putSession srv (RequestParams.sessionId params) session,
         Return (ResponseResult.mk (Some true)
                   (Some ("Directive " +:+ EditingDirective.id directive
                            +:+ " completed: "
                            +:+ EditingDirective.description directive))
                   None None
                   (Some (EditingSession.getEditingStatus session))))
      | (session, Throw error) =>
        (putSession srv (RequestParams.sessionId params) session,
         Return (ResponseResult.mk (Some false)
                   (Some ("Failed to execute directive: "
                            +:+ JsError_toString error))
                   None None None))
      end
    end
  end.

End MCPVideoEditingServer.

(** ** The frame arguments as they arrive at run time

    [TimelineManager] above works on integer frames. The handlers
    [handleSplitClip] and [handleMoveClip] of [MCPVideoEditingServer] call
    [splitItem(trackId!, itemId!, splitFrame!)] and
    [moveItem(trackId!, itemId!, newStartFrame!, newTrackId)] with fields
    that a request may leave out, so the [number] parameter of either
    method can hold [undefined], and the arithmetic on it yields [NaN],
    which is a [number] in its own right. [Loose] has the two methods, and
    what they call, on such values; on integer frames they do what the
    methods above do ([splitItem_on_integer_frames],
    [moveItem_on_integer_frames]). The other methods are not in need of
    it: [addItemToTrack] and [trimItem] test their optional frames with
    [!== undefined] before they use them, which the optional arguments
    above express. *)

Module Loose.

(** What a slot of type [number] holds here: an integer, [NaN], or
    [undefined]. The operators convert [undefined] to [NaN] first, any
    arithmetic on [NaN] gives [NaN], and every comparison with [NaN] is
    false. *)
Module Frame.

Inductive t := Int (z : Z) | NaN | Undefined.

(** [a - b] *)
Definition sub (a b : t) : t :=
  match a, b with
  | Int x, Int y => Int (x - y)
  | _, _ => NaN
  end.

(** [a + b] *)
Definition add (a b : t) : t :=
  match a, b with
  | Int x, Int y => Int (x + y)
  | _, _ => NaN
  end.

(** [Math.max(a, b)] *)
Definition max (a b : t) : t :=
  match a, b with
  | Int x, Int y => Int (Z.max x y)
  | _, _ => NaN
  end.

(** [a < b] *)
Definition ltb (a b : t) : bool :=
  match a, b with
  | Int x, Int y => (x <? y)%Z
  | _, _ => false
  end.

(** [a <= b] *)
Definition leb (a b : t) : bool :=
  match a, b with
  | Int x, Int y => (x <=? y)%Z
  | _, _ => false
  end.

(** [a >= b] *)
Definition geb (a b : t) : bool :=
  match a, b with
  | Int x, Int y => (x >=? y)%Z
  | _, _ => false
  end.

End Frame.

(** [interface MediaItem] *)
Module MediaItem.

Record t := mk {
  id : string;
  type : MediaType;
  src : string;
  startFrame : Frame.t;
  durationInFrames : Frame.t;
  x : Q;
  y : Q;
  width : Q;
  height : Q;
  opacity : option Q;
  scale : option Q;
  rotation : option Q
}.

Definition with_id (v : string) (i : t) : t :=
  mk v (type i) (src i) (startFrame i) (durationInFrames i)
     (x i) (y i) (width i) (height i) (opacity i) (scale i) (rotation i).
Definition with_startFrame (v : Frame.t) (i : t) : t :=
  mk (id i) (type i) (src i) v (durationInFrames i)
     (x i) (y i) (width i) (height i) (opacity i) (scale i) (rotation i).
Definition with_durationInFrames (v : Frame.t) (i : t) : t :=
  mk (id i) (type i) (src i) (startFrame i) v
     (x i) (y i) (width i) (height i) (opacity i) (scale i) (rotation i).

(** [item.startFrame + item.durationInFrames] *)
Definition endFrame (i : t) : Frame.t := Frame.add (startFrame i) (durationInFrames i).

End MediaItem.

(** [interface Track] *)
Module Track.

Record t := mk {
  id : string;
  name : option string;
  type : option TrackType;
  items : list MediaItem.t;
  isLocked : bool;
  isVisible : bool;
  volume : option Q
}.

Definition with_items (v : list MediaItem.t) (tr : t) : t :=
  mk (id tr) (name tr) (type tr) v (isLocked tr) (isVisible tr) (volume tr).

End Track.

(** [interface EditOperationParameters]; a frame field that is left out
    reads as [undefined]. *)
Module EditOperationParameters.

Record t := mk {
  action : option string;
  item : option MediaItem.t;
  oldStartFrame : Frame.t;
  newStartFrame : Frame.t;
  oldTrackId : option string;
  newTrackId : option string;
  oldDuration : Frame.t;
  newDuration : Frame.t;
  trimStart : Frame.t;
  trimEnd : Frame.t;
  splitFrame : Frame.t;
  secondPartId : option string
}.

End EditOperationParameters.

(** [interface EditOperation] *)
Module EditOperation.

Record t := mk {
  id : string;
  type : OperationType;
  trackId : string;
  itemId : string;
  timestamp : Z;
  parameters : EditOperationParameters.t
}.

End EditOperation.

(** [class TimelineManager] *)
Module TimelineManager.

Record t := mk {
  tracks : list (string * Track.t);
  currentFrame : Z;
  totalDuration : Frame.t;
  fps : Z;
  undoStack : list EditOperation.t;
  redoStack : list EditOperation.t
}.

Definition with_tracks (v : list (string * Track.t)) (tm : t) : t :=
  mk v (currentFrame tm) (totalDuration tm) (fps tm) (undoStack tm) (redoStack tm).
Definition with_totalDuration (v : Frame.t) (tm : t) : t :=
  mk (tracks tm) (currentFrame tm) v (fps tm) (undoStack tm) (redoStack tm).
Definition with_undoStack (v : list EditOperation.t) (tm : t) : t :=
  mk (tracks tm) (currentFrame tm) (totalDuration tm) (fps tm) v (redoStack tm).
Definition with_redoStack (v : list EditOperation.t) (tm : t) : t :=
  mk (tracks tm) (currentFrame tm) (totalDuration tm) (fps tm) (undoStack tm) v.

(** [items.findIndex(item => item.id === itemId)] and [items.find(...)] *)
Definition findItem (itemId : string) (items : list MediaItem.t)
  : option (nat * MediaItem.t) :=
  list_find (λ it, MediaItem.id it = itemId) items.

(** [getTrack(trackId)] *)
Definition getTrack (tm : t) (trackId : string) : option Track.t :=
  JsMap.get trackId (tracks tm).

(** [getTotalDuration()] *)
Definition getTotalDuration (tm : t) : Frame.t := totalDuration tm.

(** [!(newItemEnd <= item.startFrame || newItem.startFrame >= itemEnd)] *)
Definition overlaps (newItem item : MediaItem.t) : bool :=
  negb (Frame.leb (MediaItem.endFrame newItem) (MediaItem.startFrame item)
        || Frame.geb (MediaItem.startFrame newItem) (MediaItem.endFrame item)).

(** The body of the [forEach] callback of [resolveOverlaps], run on slot
    [k] of the array. *)
Definition resolveVisit (newItem : MediaItem.t) (items : list MediaItem.t) (k : nat)
  : list MediaItem.t :=
  match items !! k with
  | None => items
  | Some item =>
    if decide (MediaItem.id item = MediaItem.id newItem) then items
    else if overlaps newItem item then
      if Frame.ltb (MediaItem.startFrame newItem) (MediaItem.startFrame item) then
        <[k := MediaItem.with_startFrame (MediaItem.endFrame newItem) item]> items
      else
        <[k := MediaItem.with_durationInFrames
                 (Frame.max (Frame.Int 1)
                    (Frame.sub (MediaItem.startFrame newItem)
                       (MediaItem.startFrame item)))
                 item]> items
    else items
  end.

(** [resolveOverlaps(track, newItem)] *)
Definition resolveOverlaps (track : Track.t) (newItem : MediaItem.t) : Track.t :=
  Track.with_items
    (foldl (resolveVisit newItem) (Track.items track)
           (seq 0 (length (Track.items track))))
    track.

(** [updateTotalDuration()] *)
Definition updateTotalDuration (tm : t) : t :=
  let maxDuration :=
    foldl (λ acc track,
             foldl (λ acc item, Frame.max acc (MediaItem.endFrame item))
                   acc (Track.items track))
          (Frame.Int 0) (JsMap.values (tracks tm)) in
  with_totalDuration maxDuration tm.

(** [recordOperation(operation)] *)
Definition recordOperation (tm : t) (operation : EditOperation.t) : t :=
  let pushed := undoStack tm ++ [operation] in
  let capped := if decide (100 < length pushed) then drop 1 pushed else pushed in
  with_redoStack [] (with_undoStack capped tm).

(** [moveItem(trackId, itemId, newStartFrame, newTrackId?)] *)
Definition moveItem (tm : t) (trackId itemId : string) (newStartFrame : Frame.t)
    (newTrackId : option string) (opId : string) (now : Z) : t * bool :=
  match JsMap.get trackId (tracks tm) with
  | None => (tm, false)
  | Some sourceTrack =>
    if Track.isLocked sourceTrack then (tm, false)
    else
      match findItem itemId (Track.items sourceTrack) with
      | None => (tm, false)
      | Some (itemIndex, item) =>
        let oldStartFrame := MediaItem.startFrame item in
        let moved : option (list (string * Track.t)) :=
          if TimelineManager.sameTrack trackId newTrackId then
            let item := MediaItem.with_startFrame newStartFrame item in
            let sourceTrack :=
              Track.with_items (<[itemIndex := item]> (Track.items sourceTrack))
                sourceTrack in
            let sourceTrack := resolveOverlaps sourceTrack item in
            Some (JsMap.set trackId sourceTrack (tracks tm))
          else
            match JsMap.get (TimelineManager.orTrackId trackId newTrackId)
                    (tracks tm) with
            | None => None
            | Some targetTrack =>
              if Track.isLocked targetTrack then None
              else
                let sourceTrack :=
                  Track.with_items (delete itemIndex (Track.items sourceTrack))
                    sourceTrack in
                let item := MediaItem.with_startFrame newStartFrame item in
                let targetTrack := resolveOverlaps targetTrack item in
                let targetTrack :=
                  Track.with_items (Track.items targetTrack ++ [item]) targetTrack in
                Some (JsMap.set (TimelineManager.orTrackId trackId newTrackId)
                        targetTrack
                        (JsMap.set trackId sourceTrack (tracks tm)))
            end in
        match moved with
        | None => (tm, false)
        | Some m =>
          let tm := with_tracks m tm in
          let tm := updateTotalDuration tm in
          let tm :=
            recordOperation tm
              (EditOperation.mk opId OpMove trackId itemId now
                 (EditOperationParameters.mk None None
                    oldStartFrame newStartFrame
                    (Some trackId)
                    (Some (TimelineManager.orTrackId trackId newTrackId))
                    Frame.Undefined Frame.Undefined Frame.Undefined
                    Frame.Undefined Frame.Undefined None)) in
          (tm, true)
        end
      end
  end.

(** [splitItem(trackId, itemId, splitFrame)]; [newId] is the identifier
    [generateId()] returns for the second part. *)
Definition splitItem (tm : t) (trackId itemId : string) (splitFrame : Frame.t)
    (newId opId : string) (now : Z) : t * bool :=
  match JsMap.get trackId (tracks tm) with
  | None => (tm, false)
  | Some track =>
    if Track.isLocked track then (tm, false)
    else
      match findItem itemId (Track.items track) with
      | None => (tm, false)
      | Some (itemIndex, item) =>
        let relativeFrame := Frame.sub splitFrame (MediaItem.startFrame item) in
        if Frame.leb relativeFrame (Frame.Int 0)
           || Frame.geb relativeFrame (MediaItem.durationInFrames item)
        then (tm, false)
        else
          let secondPart :=
            MediaItem.with_durationInFrames
              (Frame.sub (MediaItem.durationInFrames item) relativeFrame)
              (MediaItem.with_startFrame splitFrame
                 (MediaItem.with_id newId item)) in
          let item := MediaItem.with_durationInFrames relativeFrame item in
          let track :=
            Track.with_items
              (<[itemIndex := item]> (Track.items track) ++ [secondPart]) track in
          let tm := with_tracks (JsMap.set trackId track (tracks tm)) tm in
          let tm :=
            recordOperation tm
              (EditOperation.mk opId OpSplit trackId itemId now
                 (EditOperationParameters.mk None None
                    Frame.Undefined Frame.Undefined None None
                    Frame.Undefined Frame.Undefined Frame.Undefined
                    Frame.Undefined
                    splitFrame (Some (MediaItem.id secondPart)))) in
          (tm, true)
      end
  end.

End TimelineManager.

End Loose.

(** An integer frame, and an optional integer frame, as [Loose] holds
    them. *)
Definition looseFrame (f : option Z) : Loose.Frame.t :=
  match f with
  | Some z => Loose.Frame.Int z
  | None => Loose.Frame.Undefined
  end.

(** The items, tracks, log entries and timelines of the integer model as
    [Loose] holds them. *)
Definition looseItem (i : MediaItem.t) : Loose.MediaItem.t :=
  Loose.MediaItem.mk (MediaItem.id i) (MediaItem.type i) (MediaItem.src i)
    (Loose.Frame.Int (MediaItem.startFrame i))
    (Loose.Frame.Int (MediaItem.durationInFrames i))
    (MediaItem.x i) (MediaItem.y i) (MediaItem.width i) (MediaItem.height i)
    (MediaItem.opacity i) (MediaItem.scale i) (MediaItem.rotation i).

Definition looseTrack (tr : Track.t) : Loose.Track.t :=
  Loose.Track.mk (Track.id tr) (Track.name tr) (Track.type tr)
    (looseItem <$> Track.items tr)
    (Track.isLocked tr) (Track.isVisible tr) (Track.volume tr).

Definition looseOperation (op : EditOperation.t) : Loose.EditOperation.t :=
  let p := EditOperation.parameters op in
  Loose.EditOperation.mk (EditOperation.id op) (EditOperation.type op)
    (EditOperation.trackId op) (EditOperation.itemId op)
    (EditOperation.timestamp op)
    (Loose.EditOperationParameters.mk
       (EditOperationParameters.action p)
       (looseItem <$> EditOperationParameters.item p)
       (looseFrame (EditOperationParameters.oldStartFrame p))
       (looseFrame (EditOperationParameters.newStartFrame p))
       (EditOperationParameters.oldTrackId p)
       (EditOperationParameters.newTrackId p)
       (looseFrame (EditOperationParameters.oldDuration p))
       (looseFrame (EditOperationParameters.newDuration p))
       (looseFrame (EditOperationParameters.trimStart p))
       (looseFrame (EditOperationParameters.trimEnd p))
       (looseFrame (EditOperationParameters.splitFrame p))
       (EditOperationParameters.secondPartId p)).

Definition looseTimeline (tm : TimelineManager.t) : Loose.TimelineManager.t :=
  Loose.TimelineManager.mk
    (prod_map id looseTrack <$> TimelineManager.tracks tm)
    (TimelineManager.currentFrame tm)
    (Loose.Frame.Int (TimelineManager.totalDuration tm))
    (TimelineManager.fps tm)
    (looseOperation <$> TimelineManager.undoStack tm)
    (looseOperation <$> TimelineManager.redoStack tm).

(** ** Calls and runs *)

(** One call of a public mutating method of [TimelineManager], with what
    the clock and the identifier generator hand to it. *)
Inductive Call :=
| CreateTrack (name : option string) (type : option TrackType) (newId : string)
| DeleteTrack (trackId : string)
| AddItemToTrack (trackId : string) (item : MediaItem.t) (insertFrame : option Z)
    (opId : string) (now : Z)
| RemoveItemFromTrack (trackId itemId : string) (opId : string) (now : Z)
| MoveItem (trackId itemId : string) (newStartFrame : Z) (newTrackId : option string)
    (opId : string) (now : Z)
| TrimItem (trackId itemId : string) (trimStart trimEnd : option Z)
    (opId : string) (now : Z)
| SplitItem (trackId itemId : string) (splitFrame : Z) (newId opId : string) (now : Z)
| Undo
| Redo.

(** The state after the call and whether it succeeded ([createTrack] always
    does). *)
Definition perform (c : Call) (tm : TimelineManager.t) : TimelineManager.t * bool :=
  match c with
  | CreateTrack name type newId =>
    ((TimelineManager.createTrack tm name type newId).1, true)
  | DeleteTrack trackId => TimelineManager.deleteTrack tm trackId
  | AddItemToTrack trackId item insertFrame opId now =>
    TimelineManager.addItemToTrack tm trackId item insertFrame opId now
  | RemoveItemFromTrack trackId itemId opId now =>
    TimelineManager.removeItemFromTrack tm trackId itemId opId now
  | MoveItem trackId itemId newStartFrame newTrackId opId now =>
    TimelineManager.moveItem tm trackId itemId newStartFrame newTrackId opId now
  | TrimItem trackId itemId trimStart trimEnd opId now =>
    TimelineManager.trimItem tm trackId itemId trimStart trimEnd opId now
  | SplitItem trackId itemId splitFrame newId opId now =>
    TimelineManager.splitItem tm trackId itemId splitFrame newId opId now
  | Undo => TimelineManager.undo tm
  | Redo => TimelineManager.redo tm
  end.

(** The state after a series of calls. *)
Definition run (calls : list Call) (tm : TimelineManager.t) : TimelineManager.t :=
  foldl (λ tm c, (perform c tm).1) tm calls.

(** The call is an [addItemToTrack] or a [moveItem]. *)
Definition isAddOrMove (c : Call) : bool :=
  match c with
  | AddItemToTrack _ _ _ _ _ | MoveItem _ _ _ _ _ _ => true
  | _ => false
  end.

(** ** Occupied intervals *)

(** Frame [f] lies in the occupied interval [[start, start+duration)]. *)
Definition occupies (item : MediaItem.t) (f : Z) : Prop :=
  (MediaItem.startFrame item ≤ f < MediaItem.endFrame item)%Z.

#[global] Instance occupies_dec (item : MediaItem.t) (f : Z) : Decision (occupies item f).
Proof. unfold occupies. apply _. Defined.

(** The occupied intervals of two items properly intersect. *)
Definition intersecting (a b : MediaItem.t) : Prop :=
  ∃ f, occupies a f ∧ occupies b f.

(** No two slots of the array hold items with intersecting intervals. *)
Definition NonOverlapping (items : list MediaItem.t) : Prop :=
  ∀ i j a b, i ≠ j → items !! i = Some a → items !! j = Some b →
             ¬ intersecting a b.

(** The per-track non-overlap invariant: it holds of the track of every
    key of the map. *)
Definition AllNonOverlapping (tm : TimelineManager.t) : Prop :=
  ∀ trackId track, TimelineManager.getTrack tm trackId = Some track →
                   NonOverlapping (Track.items track).

(** All items of the timeline, track after track. *)
Definition allItems (tm : TimelineManager.t) : list MediaItem.t :=
  concat (Track.items <$> TimelineManager.getTracks tm).

(** The identifiers of the items of a track, slot by slot. *)
Definition trackIds (track : Track.t) : list string :=
  MediaItem.id <$> Track.items track.

(** No two items of the timeline carry the same identifier: not within a
    track, and not across the tracks of two keys. *)
Definition DistinctIds (tm : TimelineManager.t) : Prop :=
  (∀ trackId track, TimelineManager.getTrack tm trackId = Some track →
                    NoDup (trackIds track))
  ∧ (∀ k1 k2 track1 track2,
       k1 ≠ k2 →
       TimelineManager.getTrack tm k1 = Some track1 →
       TimelineManager.getTrack tm k2 = Some track2 →
       ∀ id, id ∈ trackIds track1 → id ∉ trackIds track2).

(** The track an add or a move puts its item into, and the item as it is
    put there. *)
Definition placement (c : Call) (tm : TimelineManager.t)
  : option (string * MediaItem.t) :=
  match c with
  | AddItemToTrack trackId item insertFrame _ _ =>
    Some (trackId,
          match insertFrame with
          | Some f => MediaItem.with_startFrame f item
          | None => item
          end)
  | MoveItem trackId itemId newStartFrame newTrackId _ _ =>
    track ← TimelineManager.getTrack tm trackId;
    '(_, item) ← TimelineManager.findItem itemId (Track.items track);
    Some (if TimelineManager.sameTrack trackId newTrackId then trackId
          else TimelineManager.orTrackId trackId newTrackId,
          MediaItem.with_startFrame newStartFrame item)
  | _ => None
  end.

(** The item as the resolver leaves it when it slides it behind [placed]. *)
Definition displaced (placed item : MediaItem.t) : MediaItem.t :=
  MediaItem.with_startFrame (MediaItem.endFrame placed) item.

(** [placed] can be put among [items]: when another item starts inside the
    interval of [placed], it starts after the first frame of [placed], no
    further item starts inside that interval, and slid behind [placed] it
    intersects no further item. *)
Definition SafeAmong (placed : MediaItem.t) (items : list MediaItem.t) : Prop :=
  ∀ j a,
    items !! j = Some a →
    MediaItem.id a ≠ MediaItem.id placed →
    occupies placed (MediaItem.startFrame a) →
    MediaItem.startFrame a ≠ MediaItem.startFrame placed
    ∧ ∀ k b,
        k ≠ j →
        items !! k = Some b →
        MediaItem.id b ≠ MediaItem.id placed →
        ¬ occupies placed (MediaItem.startFrame b)
        ∧ ¬ intersecting (displaced placed a) b.

(** The item an add or a move places can be put among the items of its
    destination track. *)
Definition Safe (c : Call) (tm : TimelineManager.t) : Prop :=
  ∀ dest placed track,
    placement c tm = Some (dest, placed) →
    TimelineManager.getTrack tm dest = Some track →
    SafeAmong placed (Track.items track).

(** The identifier of an added item is not in use. *)
Definition FreshItem (c : Call) (tm : TimelineManager.t) : Prop :=
  match c with
  | AddItemToTrack _ item _ _ _ =>
    ∀ trackId track, TimelineManager.getTrack tm trackId = Some track →
                     MediaItem.id item ∉ trackIds track
  | _ => True
  end.

(** A run of adds and moves, each of them safe and with a fresh item in the
    state it is applied to. *)
Fixpoint SafeRun (calls : list Call) (tm : TimelineManager.t) : Prop :=
  match calls with
  | [] => True
  | c :: calls =>
    isAddOrMove c = true ∧ FreshItem c tm ∧ Safe c tm
    ∧ SafeRun calls (perform c tm).1
  end.

(** What one visit of the resolver makes of an item. *)
Definition resolveOne (newItem item : MediaItem.t) : MediaItem.t :=
  if decide (MediaItem.id item = MediaItem.id newItem) then item
  else if TimelineManager.overlaps newItem item then
    if (MediaItem.startFrame newItem <? MediaItem.startFrame item)%Z then
      MediaItem.with_startFrame (MediaItem.endFrame newItem) item
    else
      MediaItem.with_durationInFrames
        (Z.max 1 (MediaItem.startFrame newItem - MediaItem.startFrame item)) item
  else item.

(** ** The total duration *)

(** The maximum of [start + duration] over the items, 0 for none. *)
Definition maxEnd (items : list MediaItem.t) : Z :=
  foldr Z.max 0%Z (MediaItem.endFrame <$> items).

(** The cached total is the one of the current items. *)
Definition DurationFresh (tm : TimelineManager.t) : Prop :=
  TimelineManager.getTotalDuration tm = maxEnd (allItems tm).




(** ** The order of the directive queue *)

(** Ascending in priority. *)
Definition Ascending (l : list EditingDirective.t) : Prop :=
  StronglySorted
    (λ a b, (EditingDirective.priority a ≤ EditingDirective.priority b)%Z) l.

(** The directives of priority [p], in the order of the list. *)
Definition ofPriority (p : Z) (l : list EditingDirective.t) : list EditingDirective.t :=
  filter (λ d, EditingDirective.priority d = p) l.

(** The request [agent.submit_directives] with one batch of directives. *)
Definition submitRequest (sessionId : string) (batch : list EditingDirective.t)
  : RequestParams.t :=
  RequestParams.mk (Some sessionId) None None None None None None None None None
    None None (Some batch) None.

(** The batches submitted one request after the other. *)
Definition submitAll (srv : MCPVideoEditingServer.t) (sessionId : string)
    (batches : list (list EditingDirective.t)) : MCPVideoEditingServer.t :=
  foldl (λ srv batch,
           (MCPVideoEditingServer.handleSubmitDirectives srv
              (submitRequest sessionId batch)).1)
        srv batches.

(** ** Draining the directive queue *)

(** [getNextDirective()] called until it returns [undefined], at most
    [fuel] times: the directives in the order they come out, and the
    session left behind. *)
Fixpoint popAll (fuel : nat) (s : EditingSession.t)
  : list EditingDirective.t * EditingSession.t :=
  match fuel with
  | O => ([], s)
  | S fuel =>
    match EditingSession.getNextDirective s with
    | (s, None) => ([], s)
    | (s, Some d) => let '(ds, s) := popAll fuel s in (d :: ds, s)
    end
  end.

(** [agent.execute_next] sent to a session once for every element of
    [ids]: a call may create a track, and takes the identifier for it from
    there. The server afterwards and the answers in order. *)
Fixpoint executeMany (srv : MCPVideoEditingServer.t) (sessionId : string)
    (ids : list string) : MCPVideoEditingServer.t * list (outcome ResponseResult.t) :=
  match ids with
  | [] => (srv, [])
  | newId :: ids =>
    let '(srv, r) :=
      MCPVideoEditingServer.handleExecuteNext srv
        (RequestParams.ofSession sessionId) newId in
    let '(srv, rs) := executeMany srv sessionId ids in
    (srv, r :: rs)
  end.

(** The status report agrees with the two lists of the session. *)
Definition StatusAccurate (s : EditingSession.t) : Prop :=
  let st := EditingSession.getEditingStatus s in
  EditingStatus.currentStep st = length (EditingSession.completedDirectives s)
  ∧ EditingStatus.totalSteps st
    = length (EditingSession.completedDirectives s)
      + length (EditingSession.pendingDirectives s)
  ∧ EditingStatus.status st
    = match EditingSession.pendingDirectives s with
      | [] => Completed
      | _ :: _ => Processing
      end
  ∧ EditingStatus.completedDirectives st = EditingSession.completedDirectives s
  ∧ EditingStatus.pendingDirectives st
    = EditingDirective.id <$> EditingSession.pendingDirectives s.

(** Every track of the session's timeline has a name. *)
Definition TracksNamed (s : EditingSession.t) : Prop :=
  ∀ track, track ∈ TimelineManager.getTracks (EditingSession.getTimelineManager s) →
           Track.name track ≠ None.

(** ** The history, the track map and the items *)

(** The number of operations the two history stacks hold. *)
Definition historySize (tm : TimelineManager.t) : nat :=
  length (TimelineManager.undoStack tm) + length (TimelineManager.redoStack tm).

(** The call is one of the five item edits, which record an operation. *)
Definition isEdit (c : Call) : bool :=
  match c with
  | AddItemToTrack _ _ _ _ _ | RemoveItemFromTrack _ _ _ _ | MoveItem _ _ _ _ _ _
  | TrimItem _ _ _ _ _ _ | SplitItem _ _ _ _ _ _ => true
  | _ => false
  end.

(** No key occurs twice, and every track is stored under its own
    identifier. *)
Definition WellKeyedMap (m : list (string * Track.t)) : Prop :=
  NoDup (JsMap.keys m) ∧ Forall (λ kv, kv.1 = Track.id kv.2) m.

Definition WellKeyed (tm : TimelineManager.t) : Prop :=
  WellKeyedMap (TimelineManager.tracks tm).

(** Every item lasts at least one frame. *)
Definition PositiveItems (items : list MediaItem.t) : Prop :=
  Forall (λ item, (1 ≤ MediaItem.durationInFrames item)%Z) items.

Definition PositiveDurations (tm : TimelineManager.t) : Prop :=
  Forall (λ track, PositiveItems (Track.items track)) (TimelineManager.getTracks tm).

(** An added item lasts at least one frame. *)
Definition AddsPositive (c : Call) : Prop :=
  match c with
  | AddItemToTrack _ item _ _ _ => (1 ≤ MediaItem.durationInFrames item)%Z
  | _ => True
  end.

(** ** Keyframes *)

(** Ascending in [key]. *)
Definition SortedBy {A} (key : A → Z) (l : list A) : Prop :=
  StronglySorted (λ a b, (key a ≤ key b)%Z) l.

(** The first element that satisfies [P]. *)
Definition findFirst {A} (P : A → Prop) `{∀ x, Decision (P x)} (l : list A) : option A :=
  snd <$> list_find P l.

(** The keyframes of an item, none for an item without an entry. *)
Definition keyframesOf {num} (km : KeyframeManager.t num) (itemId : string)
  : list (Keyframe.t num) :=
  default [] (JsMap.get itemId (KeyframeManager.keyframes km)).

(** The keyframes of an item that animate [property]. *)
Definition propertyKeyframesOf {num} (km : KeyframeManager.t num)
    (itemId property : string) : list (Keyframe.t num) :=
  filter (λ kf, Keyframe.property kf = property) (keyframesOf km itemId).

(** ** Sessions *)

(** Every track of the session has a name, and none of the names contains
    ["BGM"]. *)
Definition NoBgmTrack (s : EditingSession.t) : Prop :=
  Forall (λ track, ∃ n, Track.name track = Some n ∧ includes n "BGM" = false)
         (TimelineManager.getTracks (EditingSession.getTimelineManager s)).

(** ** Sample data for the concrete runs *)

(** A video clip occupying [[start, start + duration)]. *)
Definition clip (id : string) (start duration : Z) : MediaItem.t :=
  MediaItem.mk id MVideo "clip.mp4" start duration 0 0 1280 720
    (Some 1%Q) (Some 1%Q) (Some 0%Q).

(** A timeline with one empty video track ["t1"]. *)
Definition oneTrack : TimelineManager.t :=
  run [CreateTrack (Some "Video Track") (Some TVideo) "t1"] (TimelineManager.new 30).

(** Two clips side by side on ["t1"]: B on [[10,20)], C on [[20,30)]. *)
Definition twoClips : TimelineManager.t :=
  run [AddItemToTrack "t1" (clip "B" 10 10) None "op1" 1;
       AddItemToTrack "t1" (clip "C" 20 10) None "op2" 2] oneTrack.

(** Two clips with a gap between them on ["t1"]: B on [[10,20)], C on
    [[40,50)]. *)
Definition spacedClips : TimelineManager.t :=
  run [AddItemToTrack "t1" (clip "B" 10 10) None "op1" 1;
       AddItemToTrack "t1" (clip "C" 40 10) None "op2" 2] oneTrack.

(** A track that holds one clip and is locked, as [import] accepts it. *)
Definition lockedTrack : Track.t :=
  Track.mk "t1" (Some "Video Track") (Some TVideo) [clip "B" 10 10] true true None.

(** A server with the session ["s1"], whose timeline has received the
    locked track through [getTimelineManager().import(data)]. *)
Definition lockedServer : MCPVideoEditingServer.t :=
  let srv := (MCPVideoEditingServer.createSession MCPVideoEditingServer.new "s1").1 in
  match MCPVideoEditingServer.getSession srv (Some "s1") with
  | Some session =>
    MCPVideoEditingServer.putSession srv (Some "s1")
      (EditingSession.with_timelineManager
         (TimelineManager.import (EditingSession.getTimelineManager session)
            (TimelineManager.mkExport [lockedTrack] 0 20 30))
         session)
  | None => srv
  end.

(** The request [edit.set_properties] that moves B to [x = 5]. *)
Definition setXRequest : RequestParams.t :=
  RequestParams.mk (Some "s1") (Some "t1") (Some "B") None None
    (Some 5%Q) None None None None None None None None.

(** The request [edit.create_track] for an audio track, sent without a
    [name]. *)
Definition namelessTrackRequest : RequestParams.t :=
  RequestParams.mk (Some "s1") None None None (Some ReqAudio)
    None None None None None None None None None.

(** The request [agent.submit_asset]. *)
Definition assetRequest (asset : GeneratedAsset.t) : RequestParams.t :=
  RequestParams.mk (Some "s1") None None None None
    None None None None None None None None (Some asset).

(** A directive of the given kind and priority, without parameters. *)
Definition directive (id : string) (kind : DirectiveType) (priority : Z)
  : EditingDirective.t :=
  EditingDirective.mk id kind None DirectiveParameters.empty priority "".

(** A background-music asset and a directive that carries it. *)
Definition bgmAsset : GeneratedAsset.t :=
  GeneratedAsset.mk "asset1" AssetBgm "bgm-agent" "https://assets/bgm.mp3"
    (Some 30%Q) "bgm.mp3" "audio/mpeg" None None.

Definition bgmDirective (id : string) (priority : Z) : EditingDirective.t :=
  EditingDirective.mk id AddBgm None
    (DirectiveParameters.mk None None None (Some bgmAsset) None None)
    priority "Add background music".

(** A server whose session ["s1"] has a track created without a name and
    one music directive in its queue. *)
Definition namelessServer : MCPVideoEditingServer.t :=
  let srv := (MCPVideoEditingServer.createSession MCPVideoEditingServer.new "s1").1 in
  let srv := (MCPVideoEditingServer.handleCreateTrack srv namelessTrackRequest "t1").1 in
  (MCPVideoEditingServer.handleSubmitDirectives srv
     (submitRequest "s1" [bgmDirective "d1" 1])).1.

(** A server whose session ["s1"] has received an asset and nothing else. *)
Definition assetOnlyServer : MCPVideoEditingServer.t :=
  (MCPVideoEditingServer.handleSubmitAsset
     (MCPVideoEditingServer.createSession MCPVideoEditingServer.new "s1").1
     (assetRequest bgmAsset)).1.

(** A timeline that holds the locked track. *)
Definition lockedTimeline : TimelineManager.t :=
  TimelineManager.import (TimelineManager.new 30)
    (TimelineManager.mkExport [lockedTrack] 0 20 30).

(** Exact rational arithmetic, one way to do the sums of [getValue]; the
    sample keyframes are evaluated with it. *)
#[global] Instance Q_JsNumber : JsNumber Q := {
  ofInteger := inject_Z;
  half := (1 # 2)%Q;
  add := Qplus;
  sub := Qminus;
  mul := Qmult;
  div := Qdiv;
  ltb a b := negb (Qle_bool b a)
}.

(** The opacity of ["clip1"] goes from 0 at frame 0 to 1 at frame 30; the
    later keyframe was added first. *)
Definition fade : KeyframeManager.t Q :=
  KeyframeManager.addKeyframe
    (KeyframeManager.addKeyframe KeyframeManager.new "clip1"
       (Keyframe.mk 30 "opacity" (VNumber 1%Q) None))
    "clip1" (Keyframe.mk 0 "opacity" (VNumber 0%Q) (Some EaseIn)).

(** A session whose timeline has the one track ["Video Track"]. *)
Definition videoSession : EditingSession.t :=
  EditingSession.with_timelineManager oneTrack (EditingSession.new "s1").

(** A server with the sessions ["s1"], which has received an asset, and
    ["s2"]. *)
Definition twoSessions : MCPVideoEditingServer.t :=
  (MCPVideoEditingServer.createSession assetOnlyServer "s2").1.

(** The clip of [clip] as [Loose] holds it, with any start and duration. *)
Definition looseClip (id : string) (start duration : Loose.Frame.t)
  : Loose.MediaItem.t :=
  Loose.MediaItem.mk id MVideo "clip.mp4" start duration 0 0 1280 720
    (Some 1%Q) (Some 1%Q) (Some 0%Q).

(** * Properties *)

(** ** The map of tracks *)

Section JsMapFacts.
Context {V : Type}.
Implicit Types (m : list (string * V)) (k : string) (v : V).

Lemma find_key_Some m k i kv :
  list_find (λ kv, kv.1 = k) m = Some (i, kv) →
  kv.1 = k ∧ m !! i = Some kv ∧ ∀ j kv', m !! j = Some kv' → j < i → kv'.1 ≠ k.
Proof. rewrite list_find_Some. by intros (? & ? & ?). Qed.

Lemma get_set_eq m k v : JsMap.get k (JsMap.set k v m) = Some v.
Proof.
  unfold JsMap.get, JsMap.set.
  destruct (list_find _ m) as [[i kv]|] eqn:Hfind.
  - apply find_key_Some in Hfind as (Hk & Hi & Hlt).
    assert (list_find (λ kv, kv.1 = k) (<[i:=(k, v)]> m) = Some (i, (k, v))) as ->; [|done].
    apply list_find_Some. split_and!.
    + apply list_lookup_insert_eq. by eapply lookup_lt_Some.
    + done.
    + intros j y Hj Hji. rewrite list_lookup_insert_ne in Hj by lia. eauto.
  - assert (list_find (λ kv, kv.1 = k) (m ++ [(k, v)]) = Some (length m, (k, v))) as ->; [|done].
    apply list_find_Some. split_and!.
    + by rewrite lookup_app_r, Nat.sub_diag.
    + done.
    + intros j y Hj Hji. rewrite lookup_app_l in Hj by done.
      rewrite list_find_None, Forall_forall in Hfind.
      apply Hfind. eapply list_elem_of_lookup_2; eauto.
Qed.

Lemma get_set_ne m k k' v : k ≠ k' → JsMap.get k' (JsMap.set k v m) = JsMap.get k' m.
Proof.
  intros Hne. unfold JsMap.get, JsMap.set.
  destruct (list_find (λ kv, kv.1 = k) m) as [[i kv]|] eqn:Hfind.
  - apply find_key_Some in Hfind as (Hk & Hi & Hlt).
    f_equal. f_equal.
    destruct (list_find (λ kv, kv.1 = k') m) as [[j kv']|] eqn:Hfind'.
    + apply list_find_Some in Hfind' as (Hj & Hk' & Hlt').
      apply list_find_Some.
      assert (i ≠ j) by (intros ->; simplify_eq; done).
      split_and!; [by rewrite list_lookup_insert_ne|done|].
      intros j' y Hj' Hlt''.
      destruct (decide (i = j')) as [->|].
      * rewrite list_lookup_insert_eq in Hj' by (by eapply lookup_lt_Some).
        by simplify_eq.
      * rewrite list_lookup_insert_ne in Hj' by done. eauto.
    + apply list_find_None. apply list_find_None in Hfind'.
      rewrite Forall_forall in *. intros y Hy.
      apply list_elem_of_lookup in Hy as [j Hj].
      destruct (decide (i = j)) as [->|].
      * rewrite list_lookup_insert_eq in Hj by (by eapply lookup_lt_Some).
        by simplify_eq.
      * rewrite list_lookup_insert_ne in Hj by done.
        apply Hfind'. by eapply list_elem_of_lookup_2.
  - f_equal. f_equal.
    destruct (list_find (λ kv, kv.1 = k') m) as [[j kv']|] eqn:Hfind'.
    + apply list_find_Some in Hfind' as (Hj & Hk' & Hlt').
      apply list_find_Some. split_and!; [by apply lookup_app_l_Some|done|].
      intros j' y Hj' Hlt''. apply (Hlt' j' y); [|done].
      rewrite lookup_app_l in Hj'; [done|]. apply lookup_lt_Some in Hj. lia.
    + apply list_find_None. apply list_find_None in Hfind'.
      apply Forall_app. split; [done|]. by repeat constructor.
Qed.

Lemma get_set m k k' v :
  JsMap.get k' (JsMap.set k v m) = if decide (k = k') then Some v else JsMap.get k' m.
Proof. case_decide; [subst; apply get_set_eq|by apply get_set_ne]. Qed.

End JsMapFacts.

(** ** The overlap resolver, slot by slot *)

Lemma resolveVisit_at (newItem : MediaItem.t) (done rest : list MediaItem.t)
    (item : MediaItem.t) (k : nat) :
  k = length done →
  TimelineManager.resolveVisit newItem (done ++ item :: rest) k
  = done ++ resolveOne newItem item :: rest.
Proof.
  intros ->. unfold TimelineManager.resolveVisit, resolveOne.
  rewrite list_lookup_middle by done.
  repeat case_match; try done.
  all: rewrite insert_app_r_alt by lia; by rewrite Nat.sub_diag.
Qed.

Lemma resolve_fold (newItem : MediaItem.t) (items : list MediaItem.t) (n : nat) :
  n ≤ length items →
  foldl (TimelineManager.resolveVisit newItem) items (seq 0 n)
  = (resolveOne newItem <$> take n items) ++ drop n items.
Proof.
  induction n as [|n IH]; intros Hn.
  - by rewrite take_0, drop_0.
  - rewrite seq_S, foldl_app, IH by lia. simpl.
    destruct (lookup_lt_is_Some_2 items n) as [item Hitem]; [lia|].
    rewrite (drop_S _ _ _ Hitem), (take_S_r _ _ _ Hitem), fmap_app. simpl.
    rewrite resolveVisit_at by (rewrite length_fmap, length_take; lia).
    by rewrite <- app_assoc.
Qed.

Lemma resolveOverlaps_items (track : Track.t) (newItem : MediaItem.t) :
  Track.items (TimelineManager.resolveOverlaps track newItem)
  = resolveOne newItem <$> Track.items track.
Proof.
  unfold TimelineManager.resolveOverlaps. simpl.
  rewrite resolve_fold by done.
  by rewrite firstn_all, drop_all, app_nil_r.
Qed.

(** ** Occupied intervals and the resolver *)

Lemma intersecting_sym (a b : MediaItem.t) : intersecting a b → intersecting b a.
Proof. intros (f & ? & ?). by exists f. Qed.

(** On items of positive duration the test of the resolver decides whether
    the occupied intervals share a frame. *)
Lemma overlaps_intersecting (a b : MediaItem.t) :
  (0 < MediaItem.durationInFrames a)%Z → (0 < MediaItem.durationInFrames b)%Z →
  TimelineManager.overlaps a b = true ↔ intersecting a b.
Proof.
  intros Ha Hb. unfold TimelineManager.overlaps, intersecting, occupies,
    MediaItem.endFrame.
  rewrite negb_true_iff, orb_false_iff, Z.leb_gt, Z.geb_leb, Z.leb_gt. split.
  - intros [? ?].
    exists (Z.max (MediaItem.startFrame a) (MediaItem.startFrame b)). lia.
  - intros (f & ? & ?). lia.
Qed.

Lemma resolveOne_id (newItem item : MediaItem.t) :
  MediaItem.id (resolveOne newItem item) = MediaItem.id item.
Proof. unfold resolveOne. by repeat case_match. Qed.

Lemma resolveOne_self (newItem : MediaItem.t) : resolveOne newItem newItem = newItem.
Proof. unfold resolveOne. by case_decide. Qed.

(** An item that does not start inside the new item's interval is at most
    trimmed, and ends up clear of the new item. *)
Lemma resolveOne_trimmed (newItem item : MediaItem.t) :
  MediaItem.id item ≠ MediaItem.id newItem →
  ¬ occupies newItem (MediaItem.startFrame item) →
  (∀ f, occupies (resolveOne newItem item) f → occupies item f)
  ∧ ¬ intersecting newItem (resolveOne newItem item).
Proof.
  intros Hid Hstart. unfold resolveOne, TimelineManager.overlaps.
  case_decide; [done|].
  unfold intersecting, occupies, MediaItem.endFrame in *.
  destruct (Z.leb_spec (MediaItem.startFrame newItem + MediaItem.durationInFrames newItem)
              (MediaItem.startFrame item)),
    (Z.geb_spec (MediaItem.startFrame newItem)
       (MediaItem.startFrame item + MediaItem.durationInFrames item)),
    (Z.ltb_spec (MediaItem.startFrame newItem) (MediaItem.startFrame item)); simpl.
  all: split; [intros f|intros (f & ? & ?)]; simpl in *; lia.
Qed.

Lemma NonOverlapping_delete (items : list MediaItem.t) (i : nat) :
  NonOverlapping items → NonOverlapping (delete i items).
Proof.
  intros Hno j k a b Hjk Hj Hk.
  rewrite list_lookup_delete in Hj, Hk.
  eapply Hno; [|done..]. repeat case_decide; lia.
Qed.

(** An item that starts inside the new item's interval, after its first
    frame, is slid behind the new item, unless it occupies no frame at all;
    either way it ends up clear of the new item. *)
Lemma resolveOne_displaced (newItem item : MediaItem.t) :
  MediaItem.id item ≠ MediaItem.id newItem →
  occupies newItem (MediaItem.startFrame item) →
  MediaItem.startFrame item ≠ MediaItem.startFrame newItem →
  (resolveOne newItem item = displaced newItem item
   ∨ ∀ f, ¬ occupies (resolveOne newItem item) f)
  ∧ ¬ intersecting newItem (resolveOne newItem item).
Proof.
  intros Hid Hinside Hstart. unfold resolveOne, TimelineManager.overlaps, displaced.
  case_decide; [done|].
  unfold intersecting, occupies, MediaItem.endFrame in *.
  destruct (Z.leb_spec (MediaItem.startFrame newItem + MediaItem.durationInFrames newItem)
              (MediaItem.startFrame item)),
    (Z.geb_spec (MediaItem.startFrame newItem)
       (MediaItem.startFrame item + MediaItem.durationInFrames item)),
    (Z.ltb_spec (MediaItem.startFrame newItem) (MediaItem.startFrame item)); simpl.
  all: try lia.
  all: split; [|intros (f & ? & ?); simpl in *; lia].
  all: first [by left | right; intros f; lia].
Qed.

(** The array after the new item was put into slot [i] and the resolver has
    visited every slot. *)
Lemma place_non_overlapping (l : list MediaItem.t) (newItem : MediaItem.t) (i : nat) :
  (∀ j k a b, j ≠ k → j ≠ i → k ≠ i → l !! j = Some a → l !! k = Some b →
              ¬ intersecting a b) →
  (∀ k a, k ≠ i → l !! k = Some a → MediaItem.id a ≠ MediaItem.id newItem) →
  (∀ j a, j ≠ i → l !! j = Some a → occupies newItem (MediaItem.startFrame a) →
          MediaItem.startFrame a ≠ MediaItem.startFrame newItem
          ∧ ∀ k b, k ≠ j → k ≠ i → l !! k = Some b →
                   ¬ occupies newItem (MediaItem.startFrame b)
                   ∧ ¬ intersecting (displaced newItem a) b) →
  (∀ a, l !! i = Some a → a = newItem) →
  NonOverlapping (resolveOne newItem <$> l).
Proof.
  intros Hothers Hids Hsafe Hnew.
  assert (∀ k b, k ≠ i → l !! k = Some b →
                 ¬ intersecting newItem (resolveOne newItem b)) as Hclear.
  { intros k b Hki Hb. pose proof (Hids _ _ Hki Hb) as Hid.
    destruct (decide (occupies newItem (MediaItem.startFrame b))) as [Hin|Hout].
    - destruct (Hsafe _ _ Hki Hb Hin) as [Hstart _].
      by apply resolveOne_displaced.
    - by apply resolveOne_trimmed. }
  assert (∀ j k a b, j ≠ k → j ≠ i → k ≠ i → l !! j = Some a → l !! k = Some b →
                     occupies newItem (MediaItem.startFrame a) →
                     ¬ intersecting (resolveOne newItem a) (resolveOne newItem b))
    as Hslid.
  { intros j k a b Hjk Hji Hki Ha Hb Hin (f & Hfa & Hfb).
    destruct (Hsafe _ _ Hji Ha Hin) as [Hstart Hrest].
    destruct (Hrest k b (not_eq_sym Hjk) Hki Hb) as [Hout Hfree].
    pose proof (Hids _ _ Hji Ha) as Hida. pose proof (Hids _ _ Hki Hb) as Hidb.
    destruct (resolveOne_trimmed newItem b Hidb Hout) as [Hsub _].
    destruct (resolveOne_displaced newItem a Hida Hin Hstart) as [[Heq|Hempty] _].
    - apply Hfree. exists f. rewrite <- Heq. split; [done|]. by apply Hsub.
    - by apply (Hempty f). }
  intros j k a' b' Hjk Hj Hk.
  rewrite list_lookup_fmap in Hj, Hk.
  destruct (l !! j) as [a|] eqn:Ha; [|done].
  destruct (l !! k) as [b|] eqn:Hb; [|done].
  simplify_eq/=.
  destruct (decide (j = i)) as [->|Hji], (decide (k = i)) as [->|Hki]; [done|..].
  - rewrite (Hnew _ Ha), resolveOne_self. by eapply Hclear.
  - rewrite (Hnew _ Hb), resolveOne_self.
    intros ?%intersecting_sym. by eapply Hclear.
  - destruct (decide (occupies newItem (MediaItem.startFrame a))) as [Hina|Houta].
    { exact (Hslid j k a b Hjk Hji Hki Ha Hb Hina). }
    destruct (decide (occupies newItem (MediaItem.startFrame b))) as [Hinb|Houtb].
    { intros ?%intersecting_sym.
      by apply (Hslid k j b a (not_eq_sym Hjk) Hki Hji Hb Ha Hinb). }
    intros (f & Hfa & Hfb).
    apply (Hothers j k a b); [done..|]. exists f.
    split; eapply resolveOne_trimmed; eauto.
Qed.

(** ** Adding and moving items *)

Lemma findItem_Some (itemId : string) (items : list MediaItem.t) i item :
  TimelineManager.findItem itemId items = Some (i, item) →
  items !! i = Some item ∧ MediaItem.id item = itemId.
Proof. unfold TimelineManager.findItem. rewrite list_find_Some. by intros (? & ? & ?). Qed.

Lemma trackIds_resolve (track : Track.t) (newItem : MediaItem.t) (l : list MediaItem.t) :
  trackIds (Track.with_items (resolveOne newItem <$> l) track) = MediaItem.id <$> l.
Proof.
  unfold trackIds. simpl. rewrite <- list_fmap_compose.
  apply list_fmap_ext. intros ? ? ?. apply resolveOne_id.
Qed.

Lemma ids_insert_same (items : list MediaItem.t) i item placed :
  items !! i = Some item → MediaItem.id placed = MediaItem.id item →
  MediaItem.id <$> <[i := placed]> items = MediaItem.id <$> items.
Proof.
  intros Hi Hid. rewrite list_fmap_insert, Hid.
  apply list_insert_id. by rewrite list_lookup_fmap, Hi.
Qed.

Lemma resolveOverlaps_eq (track : Track.t) (newItem : MediaItem.t) :
  TimelineManager.resolveOverlaps track newItem
  = Track.with_items (resolveOne newItem <$> Track.items track) track.
Proof.
  rewrite <- resolveOverlaps_items. by destruct track.
Qed.

(** The tracks after a successful [addItemToTrack]. *)
Lemma addItemToTrack_tracks tm trackId item insertFrame opId now track :
  TimelineManager.getTrack tm trackId = Some track →
  Track.isLocked track = false →
  let placed :=
    match insertFrame with
    | Some f => MediaItem.with_startFrame f item
    | None => item
    end in
  (TimelineManager.addItemToTrack tm trackId item insertFrame opId now).2 = true
  ∧ TimelineManager.tracks
      (TimelineManager.addItemToTrack tm trackId item insertFrame opId now).1
    = JsMap.set trackId
        (Track.with_items ((resolveOne placed <$> Track.items track) ++ [placed]) track)
        (TimelineManager.tracks tm).
Proof.
  unfold TimelineManager.getTrack, TimelineManager.addItemToTrack.
  intros -> ->. cbn -[TimelineManager.resolveOverlaps JsMap.set].
  by rewrite resolveOverlaps_items.
Qed.

Lemma addItemToTrack_rejected tm trackId item insertFrame opId now :
  TimelineManager.getTrack tm trackId = None
  ∨ (∃ track, TimelineManager.getTrack tm trackId = Some track
              ∧ Track.isLocked track = true) →
  TimelineManager.addItemToTrack tm trackId item insertFrame opId now = (tm, false).
Proof.
  unfold TimelineManager.getTrack, TimelineManager.addItemToTrack.
  by intros [->|(track & -> & ->)].
Qed.

(** The tracks after a successful [moveItem] within one track. *)
Lemma moveItem_same_tracks tm trackId itemId newStartFrame newTrackId opId now
    source i item :
  TimelineManager.getTrack tm trackId = Some source →
  Track.isLocked source = false →
  TimelineManager.findItem itemId (Track.items source) = Some (i, item) →
  TimelineManager.sameTrack trackId newTrackId = true →
  let placed := MediaItem.with_startFrame newStartFrame item in
  (TimelineManager.moveItem tm trackId itemId newStartFrame newTrackId opId now).2 = true
  ∧ TimelineManager.tracks
      (TimelineManager.moveItem tm trackId itemId newStartFrame newTrackId opId now).1
    = JsMap.set trackId
        (Track.with_items (resolveOne placed <$> <[i := placed]> (Track.items source))
           source)
        (TimelineManager.tracks tm).
Proof.
  unfold TimelineManager.getTrack, TimelineManager.moveItem.
  intros -> -> -> ->. cbn -[TimelineManager.resolveOverlaps JsMap.set].
  by rewrite resolveOverlaps_eq.
Qed.

(** The tracks after a successful [moveItem] to another track. *)
Lemma moveItem_cross_tracks tm trackId itemId newStartFrame newTrackId opId now
    source i item target :
  TimelineManager.getTrack tm trackId = Some source →
  Track.isLocked source = false →
  TimelineManager.findItem itemId (Track.items source) = Some (i, item) →
  TimelineManager.sameTrack trackId newTrackId = false →
  TimelineManager.getTrack tm (TimelineManager.orTrackId trackId newTrackId)
    = Some target →
  Track.isLocked target = false →
  let placed := MediaItem.with_startFrame newStartFrame item in
  (TimelineManager.moveItem tm trackId itemId newStartFrame newTrackId opId now).2 = true
  ∧ TimelineManager.tracks
      (TimelineManager.moveItem tm trackId itemId newStartFrame newTrackId opId now).1
    = JsMap.set (TimelineManager.orTrackId trackId newTrackId)
        (Track.with_items ((resolveOne placed <$> Track.items target) ++ [placed])
           target)
        (JsMap.set trackId
           (Track.with_items (delete i (Track.items source)) source)
           (TimelineManager.tracks tm)).
Proof.
  unfold TimelineManager.getTrack, TimelineManager.moveItem.
  intros -> -> -> -> -> ->. cbn -[TimelineManager.resolveOverlaps JsMap.set].
  by rewrite resolveOverlaps_items.
Qed.

Lemma moveItem_rejected tm trackId itemId newStartFrame newTrackId opId now :
  TimelineManager.getTrack tm trackId = None
  ∨ (∃ source, TimelineManager.getTrack tm trackId = Some source
               ∧ (Track.isLocked source = true
                  ∨ TimelineManager.findItem itemId (Track.items source) = None
                  ∨ TimelineManager.sameTrack trackId newTrackId = false
                    ∧ (TimelineManager.getTrack tm
                         (TimelineManager.orTrackId trackId newTrackId) = None
                       ∨ ∃ target,
                           TimelineManager.getTrack tm
                             (TimelineManager.orTrackId trackId newTrackId)
                           = Some target
                           ∧ Track.isLocked target = true))) →
  TimelineManager.moveItem tm trackId itemId newStartFrame newTrackId opId now
  = (tm, false).
Proof.
  unfold TimelineManager.getTrack, TimelineManager.moveItem.
  intros [->|(source & -> & Hwhy)]; [done|].
  destruct (Track.isLocked source); [done|].
  destruct Hwhy as [?|[->|[-> Htarget]]]; [done..|].
  destruct (TimelineManager.findItem _ _) as [[i item]|]; [|done].
  by destruct Htarget as [->|(target & -> & ->)].
Qed.

Lemma sameTrack_false trackId newTrackId :
  TimelineManager.sameTrack trackId newTrackId = false →
  TimelineManager.orTrackId trackId newTrackId ≠ trackId.
Proof.
  unfold TimelineManager.sameTrack, TimelineManager.orTrackId.
  destruct newTrackId as [n|]; [|done].
  intros [Hempty Hsame]%orb_false_elim.
  apply bool_decide_eq_false in Hempty, Hsame. by case_decide.
Qed.

Lemma add_step tm trackId item insertFrame opId now :
  let c := AddItemToTrack trackId item insertFrame opId now in
  DistinctIds tm → FreshItem c tm → Safe c tm → AllNonOverlapping tm →
  AllNonOverlapping (perform c tm).1 ∧ DistinctIds (perform c tm).1.
Proof.
  intros c [Hnodup Hcross] Hfresh Hsafe Hno. simpl in Hfresh.
  destruct (TimelineManager.getTrack tm trackId) as [track|] eqn:Htrack; cycle 1.
  { simpl. rewrite addItemToTrack_rejected by eauto. done. }
  destruct (Track.isLocked track) eqn:Hlock.
  { simpl. rewrite addItemToTrack_rejected by eauto. done. }
  destruct (addItemToTrack_tracks tm trackId item insertFrame opId now track
              Htrack Hlock) as [_ Htracks].
  set (placed := match insertFrame with
                 | Some f => MediaItem.with_startFrame f item
                 | None => item
                 end) in *.
  assert (MediaItem.id placed = MediaItem.id item) as Hid
    by (subst placed; by destruct insertFrame).
  assert (∀ k tr,
            TimelineManager.getTrack (perform c tm).1 k = Some tr →
            (k = trackId
             ∧ tr = Track.with_items
                      (resolveOne placed <$> (Track.items track ++ [placed])) track)
            ∨ (k ≠ trackId ∧ TimelineManager.getTrack tm k = Some tr)) as Hget.
  { intros k tr. unfold TimelineManager.getTrack at 1. simpl. rewrite Htracks, get_set.
    case_decide; [|by right]. intros [= <-]. left. split; [done|].
    by rewrite fmap_app, (list_fmap_singleton _ placed), resolveOne_self. }
  assert (∀ j a, j ≠ length (Track.items track) →
                 (Track.items track ++ [placed]) !! j = Some a →
                 Track.items track !! j = Some a
                 ∧ MediaItem.id a ≠ MediaItem.id placed) as Hrest.
  { intros j a ? Ha. apply lookup_lt_Some in Ha as Hlt.
    rewrite length_app in Hlt. simpl in *. rewrite lookup_app_l in Ha by lia.
    split; [done|]. rewrite Hid. intros Heq. apply (Hfresh _ _ Htrack).
    rewrite <- Heq. apply list_elem_of_fmap_2. by eapply list_elem_of_lookup_2. }
  split.
  - intros k tr [[-> ->]|[_ Hold]]%Hget; [|by eapply Hno].
    apply (place_non_overlapping _ _ (length (Track.items track))).
    + intros j1 j2 a b Hj ? ? Ha Hb.
      apply lookup_lt_Some in Ha as Hlt1. apply lookup_lt_Some in Hb as Hlt2.
      rewrite length_app in Hlt1, Hlt2. simpl in *.
      rewrite lookup_app_l in Ha, Hb by lia.
      exact (Hno _ _ Htrack j1 j2 a b Hj Ha Hb).
    + intros j a Hj Ha. by destruct (Hrest j a Hj Ha).
    + intros j a Hj Ha Hin. destruct (Hrest j a Hj Ha) as [Ha' Hida].
      destruct (Hsafe trackId placed track eq_refl Htrack j a Ha' Hida Hin)
        as [Hstart Hfurther].
      split; [done|]. intros k' b Hkj Hk Hb. destruct (Hrest k' b Hk Hb) as [Hb' Hidb].
      exact (Hfurther k' b Hkj Hb' Hidb).
    + intros a. rewrite lookup_app_r, Nat.sub_diag by done. by intros [= <-].
  - split.
    + intros k tr [[-> ->]|[_ Hold]]%Hget; [|by eapply Hnodup].
      rewrite trackIds_resolve, fmap_app. simpl.
      apply NoDup_app. split_and!; [exact (Hnodup _ _ Htrack)| |apply NoDup_singleton].
      intros x Hx ->%list_elem_of_singleton. rewrite Hid in Hx.
      exact (Hfresh _ _ Htrack Hx).
    + intros k1 k2 tr1 tr2 Hne [[-> ->]|[? Hold1]]%Hget [[-> ->]|[? Hold2]]%Hget;
        [done|..|exact (Hcross k1 k2 tr1 tr2 Hne Hold1 Hold2)].
      * rewrite trackIds_resolve, fmap_app. simpl. intros x [Hx|Hx]%elem_of_app.
        -- by apply (Hcross trackId k2 track tr2).
        -- apply list_elem_of_singleton in Hx as ->. rewrite Hid.
           by apply (Hfresh k2).
      * rewrite trackIds_resolve, fmap_app. simpl. intros x Hx [Hx'|Hx']%elem_of_app.
        -- by apply (Hcross k1 trackId tr1 track Hne Hold1 Htrack x).
        -- apply list_elem_of_singleton in Hx' as ->. rewrite Hid in Hx.
           exact (Hfresh _ _ Hold1 Hx).
Qed.

Lemma NoDup_delete_lookup {A} (l : list A) (i : nat) (x : A) :
  NoDup l → l !! i = Some x → x ∉ delete i l.
Proof.
  intros Hnd Hi [j Hj]%list_elem_of_lookup. rewrite list_lookup_delete in Hj.
  pose proof (NoDup_lookup _ _ _ _ Hnd Hi Hj). case_decide; lia.
Qed.

(** No identifier has two owners. *)
Lemma DistinctIds_owner tm :
  DistinctIds tm ↔
  (∀ trackId track, TimelineManager.getTrack tm trackId = Some track →
                    NoDup (trackIds track))
  ∧ (∀ k1 k2 track1 track2 id,
       TimelineManager.getTrack tm k1 = Some track1 →
       TimelineManager.getTrack tm k2 = Some track2 →
       id ∈ trackIds track1 → id ∈ trackIds track2 → k1 = k2).
Proof.
  split; intros [Hnodup Hcross]; (split; [done|]).
  - intros k1 k2 tr1 tr2 x H1 H2 Hx1 Hx2.
    destruct (decide (k1 = k2)) as [|Hne]; [done|].
    by destruct (Hcross k1 k2 tr1 tr2 Hne H1 H2 x).
  - intros k1 k2 tr1 tr2 Hne H1 H2 x Hx1 Hx2.
    by apply Hne, (Hcross k1 k2 tr1 tr2 x).
Qed.

Lemma move_same_step tm trackId itemId newStartFrame newTrackId opId now source i item :
  let c := MoveItem trackId itemId newStartFrame newTrackId opId now in
  TimelineManager.getTrack tm trackId = Some source →
  Track.isLocked source = false →
  TimelineManager.findItem itemId (Track.items source) = Some (i, item) →
  TimelineManager.sameTrack trackId newTrackId = true →
  DistinctIds tm → Safe c tm → AllNonOverlapping tm →
  AllNonOverlapping (perform c tm).1 ∧ DistinctIds (perform c tm).1.
Proof.
  intros c Hsource Hlock Hfind Hsame [Hnodup Hcross] Hsafe Hno.
  destruct (moveItem_same_tracks tm trackId itemId newStartFrame newTrackId opId now
              source i item Hsource Hlock Hfind Hsame) as [_ Htracks].
  apply findItem_Some in Hfind as Hitem. destruct Hitem as [Hi Hid].
  set (placed := MediaItem.with_startFrame newStartFrame item) in *.
  assert (placement c tm = Some (trackId, placed)) as Hplace.
  { simpl. rewrite Hsource. simpl. rewrite Hfind. simpl. by rewrite Hsame. }
  assert (∀ k tr,
            TimelineManager.getTrack (perform c tm).1 k = Some tr →
            (k = trackId
             ∧ tr = Track.with_items
                      (resolveOne placed <$> <[i := placed]> (Track.items source))
                      source)
            ∨ (k ≠ trackId ∧ TimelineManager.getTrack tm k = Some tr)) as Hget.
  { intros k tr. unfold TimelineManager.getTrack at 1. simpl. rewrite Htracks, get_set.
    case_decide; [|by right]. intros [= <-]. by left. }
  assert (∀ k tr, TimelineManager.getTrack (perform c tm).1 k = Some tr →
                  ∃ tr0, TimelineManager.getTrack tm k = Some tr0
                         ∧ trackIds tr = trackIds tr0) as Hids.
  { intros k tr [[-> ->]|[_ Hold]]%Hget; [|by eauto].
    exists source. split; [done|].
    rewrite trackIds_resolve. by apply (ids_insert_same _ _ item). }
  assert (∀ j a, j ≠ i → <[i := placed]> (Track.items source) !! j = Some a →
                 Track.items source !! j = Some a
                 ∧ MediaItem.id a ≠ MediaItem.id placed) as Hrest.
  { intros j a ? Ha. rewrite list_lookup_insert_ne in Ha by done.
    split; [done|]. simpl. intros Heq.
    assert (i = j); [|done].
    apply (NoDup_lookup (trackIds source) i j (MediaItem.id item));
      [by eapply Hnodup|unfold trackIds; rewrite list_lookup_fmap..].
    - by rewrite Hi.
    - rewrite Ha. simpl. f_equal. exact Heq. }
  split.
  - intros k tr [[-> ->]|[_ Hold]]%Hget; [|by eapply Hno].
    apply (place_non_overlapping _ _ i).
    + intros j1 j2 a b Hj ? ? Ha Hb.
      rewrite list_lookup_insert_ne in Ha, Hb by done.
      exact (Hno _ _ Hsource j1 j2 a b Hj Ha Hb).
    + intros j a Hj Ha. by destruct (Hrest j a Hj Ha).
    + intros j a Hj Ha Hin. destruct (Hrest j a Hj Ha) as [Ha' Hida].
      destruct (Hsafe trackId placed source Hplace Hsource j a Ha' Hida Hin)
        as [Hstart Hfurther].
      split; [done|]. intros k' b Hkj Hk Hb. destruct (Hrest k' b Hk Hb) as [Hb' Hidb].
      exact (Hfurther k' b Hkj Hb' Hidb).
    + intros a. rewrite list_lookup_insert_eq by (by eapply lookup_lt_Some).
      by intros [= <-].
  - split.
    + intros k tr (tr0 & Hold & ->)%Hids. by eapply Hnodup.
    + intros k1 k2 tr1 tr2 Hne (tr1' & Hold1 & ->)%Hids (tr2' & Hold2 & ->)%Hids.
      exact (Hcross k1 k2 tr1' tr2' Hne Hold1 Hold2).
Qed.

Lemma move_cross_step tm trackId itemId newStartFrame newTrackId opId now
    source i item target :
  let c := MoveItem trackId itemId newStartFrame newTrackId opId now in
  TimelineManager.getTrack tm trackId = Some source →
  Track.isLocked source = false →
  TimelineManager.findItem itemId (Track.items source) = Some (i, item) →
  TimelineManager.sameTrack trackId newTrackId = false →
  TimelineManager.getTrack tm (TimelineManager.orTrackId trackId newTrackId)
    = Some target →
  Track.isLocked target = false →
  DistinctIds tm → Safe c tm → AllNonOverlapping tm →
  AllNonOverlapping (perform c tm).1 ∧ DistinctIds (perform c tm).1.
Proof.
  intros c Hsource Hlock Hfind Hsame Htarget Hlock' Hdistinct Hsafe Hno.
  destruct (moveItem_cross_tracks tm trackId itemId newStartFrame newTrackId opId now
              source i item target Hsource Hlock Hfind Hsame Htarget Hlock')
    as [_ Htracks].
  apply sameTrack_false in Hsame as Hdest.
  apply findItem_Some in Hfind as Hitem. destruct Hitem as [Hi Hid].
  set (dest := TimelineManager.orTrackId trackId newTrackId) in *.
  set (placed := MediaItem.with_startFrame newStartFrame item) in *.
  assert (placement c tm = Some (dest, placed)) as Hplace.
  { simpl. rewrite Hsource. simpl. rewrite Hfind. simpl. by rewrite Hsame. }
  assert (MediaItem.id item ∈ trackIds source) as Hin.
  { apply list_elem_of_fmap_2. by eapply list_elem_of_lookup_2. }
  apply DistinctIds_owner in Hdistinct as [Hnodup Hcross].
  assert (MediaItem.id item ∉ trackIds target) as Hfresh.
  { intros Hin'. apply Hdest. symmetry.
    exact (Hcross trackId dest source target _ Hsource Htarget Hin Hin'). }
  assert (∀ k tr,
            TimelineManager.getTrack (perform c tm).1 k = Some tr →
            (k = dest
             ∧ tr = Track.with_items
                      (resolveOne placed <$> (Track.items target ++ [placed])) target)
            ∨ (k = trackId
               ∧ tr = Track.with_items (delete i (Track.items source)) source)
            ∨ (k ≠ dest ∧ k ≠ trackId ∧ TimelineManager.getTrack tm k = Some tr))
    as Hget.
  { intros k tr. unfold TimelineManager.getTrack at 1. simpl.
    rewrite Htracks, !get_set. repeat case_decide.
    - intros [= <-]. left. split; [done|].
      by rewrite fmap_app, (list_fmap_singleton _ placed), resolveOne_self.
    - intros [= <-]. right. by left.
    - right. by right. }
  assert (∀ k tr x,
            TimelineManager.getTrack (perform c tm).1 k = Some tr →
            x ∈ trackIds tr →
            (x = MediaItem.id item ∧ k = dest)
            ∨ (x ≠ MediaItem.id item
               ∧ ∃ tr0, TimelineManager.getTrack tm k = Some tr0 ∧ x ∈ trackIds tr0))
    as Hown.
  { intros k tr x [[-> ->]|[[-> ->]|(? & ? & Hold)]]%Hget.
    - rewrite trackIds_resolve, fmap_app. intros [Hx|Hx]%elem_of_app.
      + right. split; [by intros ->|]. eauto.
      + apply list_elem_of_singleton in Hx as ->. by left.
    - unfold trackIds at 1. simpl. rewrite list_fmap_delete. intros Hx. right. split.
      + intros ->. revert Hx. apply NoDup_delete_lookup; [by eapply Hnodup|].
        unfold trackIds. by rewrite list_lookup_fmap, Hi.
      + exists source. split; [done|]. by eapply list_elem_of_delete_inv.
    - intros Hx. right. split; [|by eauto]. intros ->.
      by pose proof (Hcross k trackId tr source _ Hold Hsource Hx Hin). }
  assert (∀ j a, j ≠ length (Track.items target) →
                 (Track.items target ++ [placed]) !! j = Some a →
                 Track.items target !! j = Some a
                 ∧ MediaItem.id a ≠ MediaItem.id placed) as Hrest.
  { intros j a ? Ha. apply lookup_lt_Some in Ha as Hlt.
    rewrite length_app in Hlt. simpl in *. rewrite lookup_app_l in Ha by lia.
    split; [done|]. simpl. intros Heq. apply Hfresh. rewrite <- Heq.
    apply list_elem_of_fmap_2. by eapply list_elem_of_lookup_2. }
  split.
  - intros k tr [[-> ->]|[[-> ->]|(? & ? & Hold)]]%Hget; [| |by eapply Hno].
    + apply (place_non_overlapping _ _ (length (Track.items target))).
      * intros j1 j2 a b Hj ? ? Ha Hb.
        apply lookup_lt_Some in Ha as Hlt1. apply lookup_lt_Some in Hb as Hlt2.
        rewrite length_app in Hlt1, Hlt2. simpl in *.
        rewrite lookup_app_l in Ha, Hb by lia.
        exact (Hno _ _ Htarget j1 j2 a b Hj Ha Hb).
      * intros j a Hj Ha. by destruct (Hrest j a Hj Ha).
      * intros j a Hj Ha Hinside. destruct (Hrest j a Hj Ha) as [Ha' Hida].
        destruct (Hsafe dest placed target Hplace Htarget j a Ha' Hida Hinside)
          as [Hstart Hfurther].
        split; [done|]. intros k' b Hkj Hk Hb.
        destruct (Hrest k' b Hk Hb) as [Hb' Hidb].
        exact (Hfurther k' b Hkj Hb' Hidb).
      * intros a. rewrite lookup_app_r, Nat.sub_diag by done. by intros [= <-].
    + apply NonOverlapping_delete. by eapply Hno.
  - apply DistinctIds_owner. split.
    + intros k tr [[-> ->]|[[-> ->]|(? & ? & Hold)]]%Hget; [| |by eapply Hnodup].
      * rewrite trackIds_resolve, fmap_app. simpl.
        apply NoDup_app. split_and!; [exact (Hnodup _ _ Htarget)| |apply NoDup_singleton].
        by intros x Hx ->%list_elem_of_singleton.
      * unfold trackIds. simpl. rewrite list_fmap_delete.
        eapply sublist_NoDup; [exact (Hnodup _ _ Hsource)|apply sublist_delete].
    + intros k1 k2 tr1 tr2 x H1 H2 Hx1 Hx2.
      destruct (Hown _ _ _ H1 Hx1) as [[-> ->]|[Hne1 (tr1' & Hold1 & Hx1')]],
        (Hown _ _ _ H2 Hx2) as [[? ->]|[Hne2 (tr2' & Hold2 & Hx2')]]; try done.
      exact (Hcross k1 k2 tr1' tr2' x Hold1 Hold2 Hx1' Hx2').
Qed.

(** ** Sorting the queue *)

Lemma insertByPriority_perm d l : insertByPriority d l ≡ₚ d :: l.
Proof.
  induction l as [|e r IH]; simpl; [done|].
  case_match; [done|]. rewrite IH. apply Permutation_swap.
Qed.

Lemma insertByPriority_ascending d l :
  Ascending l → Ascending (insertByPriority d l).
Proof.
  unfold Ascending. induction 1 as [|e r Hr IH He]; simpl.
  - repeat constructor.
  - destruct (Z.ltb_spec (EditingDirective.priority d) (EditingDirective.priority e)).
    + constructor; [by constructor|].
      constructor; [lia|]. eapply Forall_impl; [exact He|]. simpl. intros; lia.
    + constructor; [done|]. rewrite insertByPriority_perm. by constructor.
Qed.

Lemma ofPriority_above p l :
  Forall (λ e, (p < EditingDirective.priority e)%Z) l → ofPriority p l = [].
Proof.
  unfold ofPriority. induction 1 as [|e r He Hr IH]; [done|].
  rewrite filter_cons, IH. case_decide; [lia|done].
Qed.

(** Insertion puts a directive behind those of its own priority. *)
Lemma insertByPriority_stable d l p :
  Ascending l →
  ofPriority p (insertByPriority d l)
  = ofPriority p l ++ (if decide (EditingDirective.priority d = p) then [d] else []).
Proof.
  unfold Ascending. induction 1 as [|e r Hr IH He]; simpl.
  - unfold ofPriority. rewrite filter_cons, filter_nil. by case_decide.
  - destruct (Z.ltb_spec (EditingDirective.priority d) (EditingDirective.priority e)).
    + unfold ofPriority at 1. rewrite filter_cons. fold (ofPriority p (e :: r)).
      case_decide as Hd; [|by rewrite app_nil_r].
      rewrite (ofPriority_above p (e :: r)); [done|].
      constructor; [lia|]. eapply Forall_impl; [exact He|]. simpl. intros; lia.
    + unfold ofPriority in *. rewrite !filter_cons, IH. by repeat case_decide.
Qed.

(** What [sort]ing with an accumulator yields. *)
Lemma foldl_insertByPriority acc l :
  Ascending acc →
  let r := foldl (λ sorted d, insertByPriority d sorted) acc l in
  Ascending r ∧ r ≡ₚ acc ++ l ∧ ∀ p, ofPriority p r = ofPriority p acc ++ ofPriority p l.
Proof.
  revert acc. induction l as [|d l IH]; intros acc Hacc; simpl.
  - split; [done|]. split; [by rewrite app_nil_r|]. intros p.
    unfold ofPriority. by rewrite filter_nil, app_nil_r.
  - destruct (IH (insertByPriority d acc)) as (Hasc & Hperm & Hstable);
      [by apply insertByPriority_ascending|].
    split; [done|]. split.
    + rewrite Hperm, insertByPriority_perm. apply Permutation_middle.
    + intros p. rewrite Hstable, insertByPriority_stable by done.
      unfold ofPriority. rewrite (filter_cons _ d), <- app_assoc. by repeat case_decide.
Qed.

Lemma sortByPriority_spec l :
  Ascending (sortByPriority l)
  ∧ sortByPriority l ≡ₚ l
  ∧ ∀ p, ofPriority p (sortByPriority l) = ofPriority p l.
Proof.
  destruct (foldl_insertByPriority [] l) as (? & ? & Hstable); [constructor|].
  split; [done|]. split; [done|]. intros p. by rewrite Hstable.
Qed.

(** A list that is ascending is determined by the order within each
    priority. *)
Lemma ascending_stable_unique l1 l2 :
  Ascending l1 → Ascending l2 →
  (∀ p, ofPriority p l1 = ofPriority p l2) → l1 = l2.
Proof.
  unfold Ascending. intros H1. revert l2.
  induction H1 as [|a r1 Hr1 IH Ha]; intros l2 H2 Heq.
  - destruct l2 as [|b r2]; [done|].
    specialize (Heq (EditingDirective.priority b)). unfold ofPriority in Heq.
    rewrite filter_nil, filter_cons in Heq. by case_decide.
  - destruct H2 as [|b r2 Hr2 Hb].
    { specialize (Heq (EditingDirective.priority a)). unfold ofPriority in Heq.
      rewrite filter_nil, filter_cons in Heq. by case_decide. }
    assert (a ∈ b :: r2) as Hin2.
    { apply (list_elem_of_filter (λ d, EditingDirective.priority d = EditingDirective.priority a)).
      fold (ofPriority (EditingDirective.priority a) (b :: r2)). rewrite <- Heq.
      unfold ofPriority. rewrite filter_cons. case_decide; [|done]. by left. }
    assert (b ∈ a :: r1) as Hin1.
    { apply (list_elem_of_filter (λ d, EditingDirective.priority d = EditingDirective.priority b)).
      fold (ofPriority (EditingDirective.priority b) (a :: r1)). rewrite Heq.
      unfold ofPriority. rewrite filter_cons. case_decide; [|done]. by left. }
    assert (EditingDirective.priority a = EditingDirective.priority b) as Hprio.
    { apply elem_of_cons in Hin1 as [->|Hin1]; [done|].
      apply elem_of_cons in Hin2 as [->|Hin2]; [done|].
      rewrite Forall_forall in Ha, Hb.
      specialize (Ha _ Hin1). specialize (Hb _ Hin2). simpl in *. lia. }
    assert (a = b) as <-.
    { specialize (Heq (EditingDirective.priority a)). unfold ofPriority in Heq.
      rewrite !filter_cons in Heq. rewrite decide_True in Heq by done.
      rewrite (decide_True (P := EditingDirective.priority b = EditingDirective.priority a)) in Heq by done.
      by injection Heq. }
    f_equal. apply IH; [done|]. intros p. specialize (Heq p).
    unfold ofPriority in *. rewrite !filter_cons in Heq.
    case_decide; [by injection Heq|done].
Qed.

(** The sort is the only arrangement that is ascending and stable. *)
Lemma sortByPriority_unique l sorted :
  Ascending sorted → (∀ p, ofPriority p sorted = ofPriority p l) →
  sorted = sortByPriority l.
Proof.
  intros Hasc Hstable. destruct (sortByPriority_spec l) as (? & _ & Hs).
  apply ascending_stable_unique; [done..|]. intros p. by rewrite Hstable, Hs.
Qed.

Lemma sortByPriority_resort l1 l2 :
  sortByPriority (sortByPriority l1 ++ l2) = sortByPriority (l1 ++ l2).
Proof.
  symmetry. apply sortByPriority_unique.
  - apply sortByPriority_spec.
  - intros p. destruct (sortByPriority_spec (l1 ++ l2)) as (_ & _ & ->).
    destruct (sortByPriority_spec l1) as (_ & _ & Hs).
    unfold ofPriority in *. by rewrite !filter_app, Hs.
Qed.

(** ** Sessions and the server *)

Lemma values_set_elem {V} (k : string) (v x : V) (m : list (string * V)) :
  x ∈ JsMap.values (JsMap.set k v m) → x = v ∨ x ∈ JsMap.values m.
Proof.
  unfold JsMap.values, JsMap.set.
  destruct (list_find _ m) as [[i kv]|].
  - rewrite list_fmap_insert. simpl.
    intros [j Hj]%list_elem_of_lookup.
    destruct (decide (i = j)) as [->|Hne].
    + destruct (decide (j < length m.*2)).
      * rewrite list_lookup_insert_eq in Hj by done. left. by injection Hj.
      * rewrite list_insert_ge in Hj by lia. right. by eapply list_elem_of_lookup_2.
    + rewrite list_lookup_insert_ne in Hj by done.
      right. by eapply list_elem_of_lookup_2.
  - rewrite fmap_app. simpl. intros [?|?%list_elem_of_singleton]%elem_of_app; auto.
Qed.

Lemma getSession_putSession srv k s :
  MCPVideoEditingServer.getSession
    (MCPVideoEditingServer.putSession srv (Some k) s) (Some k) = Some s.
Proof. simpl. apply get_set_eq. Qed.

(** With every track named, the lookup of a track by name returns. *)
Lemma findTrackByName_named needle tracks :
  Forall (λ track, Track.name track ≠ None) tracks →
  ∃ found, findTrackByName needle tracks = Return found.
Proof.
  induction 1 as [|track rest Hname Hrest IH]; simpl; [by eauto|].
  destruct (Track.name track) as [n|]; [|done].
  destruct (includes n needle); eauto.
Qed.

Lemma executeDirective_named session directive newId :
  TracksNamed session →
  ∃ session',
    MCPVideoEditingServer.executeDirective session directive newId
    = (session', Return ())
    ∧ TracksNamed session'
    ∧ EditingSession.pendingDirectives session'
      = EditingSession.pendingDirectives session
    ∧ EditingSession.completedDirectives session'
      = EditingSession.completedDirectives session.
Proof.
  intros Hnamed. unfold MCPVideoEditingServer.executeDirective.
  destruct (EditingDirective.type directive); try (by eexists).
  unfold MCPVideoEditingServer.executeAddBGM.
  destruct (DirectiveParameters.asset _); [|by eexists].
  destruct (findTrackByName_named "BGM"
              (TimelineManager.getTracks (EditingSession.getTimelineManager session)))
    as [[found|] ->]; [by apply Forall_forall| by eexists |].
  eexists. split; [done|]. split; [|done].
  intros track. simpl. unfold TimelineManager.getTracks. simpl.
  intros [->|?]%values_set_elem; [done|by apply Hnamed].
Qed.

Lemma updateEditingStatus_accurate s :
  StatusAccurate (EditingSession.updateEditingStatus s)
  ∧ EditingSession.pendingDirectives (EditingSession.updateEditingStatus s)
    = EditingSession.pendingDirectives s
  ∧ EditingSession.completedDirectives (EditingSession.updateEditingStatus s)
    = EditingSession.completedDirectives s
  ∧ EditingSession.timelineManager (EditingSession.updateEditingStatus s)
    = EditingSession.timelineManager s.
Proof.
  split; [|done]. unfold StatusAccurate. simpl. split_and!; try done.
  by destruct (EditingSession.pendingDirectives s).
Qed.

(** One [agent.execute_next] on a session whose tracks all have names. *)
Lemma executeNext_named srv sessionId session d rest newId :
  MCPVideoEditingServer.getSession srv (Some sessionId) = Some session →
  EditingSession.pendingDirectives session = d :: rest →
  TracksNamed session →
  ∃ session' message,
    MCPVideoEditingServer.handleExecuteNext srv
      (RequestParams.ofSession sessionId) newId
    = (MCPVideoEditingServer.putSession srv (Some sessionId) session',
       Return (ResponseResult.mk (Some true) (Some message) None None
                 (Some (EditingSession.getEditingStatus session'))))
    ∧ EditingSession.pendingDirectives session' = rest
    ∧ EditingSession.completedDirectives session'
      = EditingSession.completedDirectives session ++ [EditingDirective.id d]
    ∧ TracksNamed session'
    ∧ StatusAccurate session'.
Proof.
  intros Hsession Hpending Hnamed.
  unfold MCPVideoEditingServer.handleExecuteNext.
  change (RequestParams.sessionId (RequestParams.ofSession sessionId))
    with (Some sessionId).
  rewrite Hsession. unfold EditingSession.getNextDirective. rewrite Hpending.
  cbn [JsArray.shift].
  destruct (executeDirective_named
              (EditingSession.with_pendingDirectives rest session) d newId)
    as (session' & -> & Hnamed' & Hpending' & Hcompleted'); [done|].
  unfold EditingSession.markDirectiveCompleted.
  match goal with
  | |- context [EditingSession.updateEditingStatus ?s] =>
    destruct (updateEditingStatus_accurate s) as (Hacc & Hp & Hc & Ht);
    exists (EditingSession.updateEditingStatus s)
  end.
  eexists. split; [done|].
  split; [by rewrite Hp; simpl; rewrite Hpending'|].
  split; [by rewrite Hc; simpl; rewrite Hcompleted'|].
  split; [|done].
  unfold TracksNamed, EditingSession.getTimelineManager. rewrite Ht. apply Hnamed'.
Qed.

(** [agent.execute_next] sent as many times as [ids] is long, to a queue
    that is at least as long. *)
Lemma executeMany_named ids : ∀ srv sessionId session,
  MCPVideoEditingServer.getSession srv (Some sessionId) = Some session →
  TracksNamed session →
  length ids ≤ length (EditingSession.pendingDirectives session) →
  ∃ session',
    MCPVideoEditingServer.getSession (executeMany srv sessionId ids).1 (Some sessionId)
    = Some session'
    ∧ EditingSession.pendingDirectives session'
      = drop (length ids) (EditingSession.pendingDirectives session)
    ∧ EditingSession.completedDirectives session'
      = EditingSession.completedDirectives session
        ++ (EditingDirective.id
              <$> take (length ids) (EditingSession.pendingDirectives session))
    ∧ Forall (λ r, ∃ response,
                r = Return response ∧ ResponseResult.success response = Some true)
        (executeMany srv sessionId ids).2
    ∧ length (executeMany srv sessionId ids).2 = length ids
    ∧ TracksNamed session'
    ∧ (ids ≠ [] → StatusAccurate session').
Proof.
  induction ids as [|newId ids IH]; intros srv sessionId session Hsession Hnamed Hlen.
  - exists session. simpl. rewrite drop_0, app_nil_r. by split_and!.
  - simpl in Hlen.
    destruct (EditingSession.pendingDirectives session) as [|d rest] eqn:Hpending;
      [simpl in Hlen; lia|]. simpl in Hlen.
    destruct (executeNext_named srv sessionId session d rest newId Hsession Hpending
                Hnamed)
      as (session1 & message & Hstep & Hp1 & Hc1 & Hnamed1 & Hacc1).
    simpl. rewrite Hstep.
    destruct (IH (MCPVideoEditingServer.putSession srv (Some sessionId) session1)
                sessionId session1)
      as (session' & Hsession' & Hp' & Hc' & Hok & Hcount & Hnamed' & Hacc');
      [apply getSession_putSession|done|rewrite Hp1; lia|].
    assert (StatusAccurate session') as Hacc''.
    { destruct ids as [|? ?]; [|by apply Hacc'].
      cbn [executeMany fst] in Hsession'.
      rewrite getSession_putSession in Hsession'. by injection Hsession' as <-. }
    destruct (executeMany _ sessionId ids) as [srv' rs] eqn:Hmany.
    cbn [fst snd length take drop fmap list_fmap] in *.
    exists session'. split_and!; try done.
    + by rewrite Hp', Hp1.
    + by rewrite Hc', Hc1, Hp1, <- app_assoc.
    + constructor; [by eexists|done].
    + by rewrite Hcount.
Qed.

Lemma Ascending_lookup l :
  Ascending l →
  ∀ i j a b, i < j → l !! i = Some a → l !! j = Some b →
             (EditingDirective.priority a ≤ EditingDirective.priority b)%Z.
Proof.
  unfold Ascending. induction 1 as [|e r Hr IH He]; intros i j a b Hij Ha Hb; [done|].
  destruct j as [|j]; [lia|]. destruct i as [|i]; simpl in *.
  - injection Ha as <-. rewrite Forall_forall in He. apply He.
    by eapply list_elem_of_lookup_2.
  - apply (IH i j); [lia|done..].
Qed.

Lemma addDirectives_pending s ds :
  EditingSession.pendingDirectives (EditingSession.addDirectives s ds)
  = sortByPriority (EditingSession.pendingDirectives s ++ ds)
  ∧ EditingSession.completedDirectives (EditingSession.addDirectives s ds)
    = EditingSession.completedDirectives s
  ∧ EditingSession.timelineManager (EditingSession.addDirectives s ds)
    = EditingSession.timelineManager s.
Proof. done. Qed.

(** The queue after a series of [agent.submit_directives] requests. *)
Lemma submitAll_spec batches : ∀ srv sessionId session l0,
  MCPVideoEditingServer.getSession srv (Some sessionId) = Some session →
  EditingSession.pendingDirectives session = sortByPriority l0 →
  ∃ session',
    MCPVideoEditingServer.getSession (submitAll srv sessionId batches) (Some sessionId)
    = Some session'
    ∧ EditingSession.pendingDirectives session'
      = sortByPriority (l0 ++ concat batches)
    ∧ EditingSession.completedDirectives session'
      = EditingSession.completedDirectives session
    ∧ EditingSession.timelineManager session'
      = EditingSession.timelineManager session.
Proof.
  induction batches as [|batch batches IH]; intros srv sessionId session l0 Hsession Hp.
  - exists session. simpl. by rewrite app_nil_r.
  - simpl. unfold MCPVideoEditingServer.handleSubmitDirectives at 1.
    change (RequestParams.sessionId (submitRequest sessionId batch))
      with (Some sessionId).
    rewrite Hsession. cbn [RequestParams.directives submitRequest fst].
    destruct (addDirectives_pending session batch) as (Hp1 & Hc1 & Ht1).
    destruct (IH (MCPVideoEditingServer.putSession srv (Some sessionId)
                    (EditingSession.addDirectives session batch))
                sessionId (EditingSession.addDirectives session batch) (l0 ++ batch))
      as (session' & Hsession' & Hp' & Hc' & Ht').
    + apply getSession_putSession.
    + by rewrite Hp1, Hp, sortByPriority_resort.
    + exists session'. split; [done|].
      by rewrite Hp', Hc', Ht', Hc1, Ht1, <- app_assoc.
Qed.

(** ** Undo, redo and the cached total *)


(** [undo] and [redo] only move an entry between the two stacks. *)
Lemma undo_keeps_timeline (tm : TimelineManager.t) :
  TimelineManager.tracks (TimelineManager.undo tm).1 = TimelineManager.tracks tm
  ∧ TimelineManager.totalDuration (TimelineManager.undo tm).1
    = TimelineManager.totalDuration tm.
Proof.
  unfold TimelineManager.undo.
  by destruct (JsArray.pop (TimelineManager.undoStack tm)) as [[operation rest]|].
Qed.

Lemma redo_keeps_timeline (tm : TimelineManager.t) :
  TimelineManager.tracks (TimelineManager.redo tm).1 = TimelineManager.tracks tm
  ∧ TimelineManager.totalDuration (TimelineManager.redo tm).1
    = TimelineManager.totalDuration tm.
Proof.
  unfold TimelineManager.redo.
  by destruct (JsArray.pop (TimelineManager.redoStack tm)) as [[operation rest]|].
Qed.

Lemma maxEnd_nonneg items : (0 ≤ maxEnd items)%Z.
Proof. unfold maxEnd. induction items; csimpl; lia. Qed.

Lemma maxEnd_app l1 l2 : maxEnd (l1 ++ l2) = Z.max (maxEnd l1) (maxEnd l2).
Proof.
  pose proof (maxEnd_nonneg l2). unfold maxEnd in *.
  rewrite fmap_app. induction l1; csimpl; lia.
Qed.

Lemma maxEnd_cons item l : maxEnd (item :: l) = Z.max (MediaItem.endFrame item) (maxEnd l).
Proof. done. Qed.

(** The inner loop of [updateTotalDuration]. *)
Lemma foldl_items_max acc items :
  (0 ≤ acc)%Z →
  foldl (λ acc item, Z.max acc (MediaItem.endFrame item)) acc items
  = Z.max acc (maxEnd items).
Proof.
  revert acc. induction items as [|item items IH]; intros acc Hacc; csimpl.
  - unfold maxEnd. csimpl. lia.
  - rewrite IH by lia. rewrite maxEnd_cons. lia.
Qed.

(** The outer loop of [updateTotalDuration]. *)
Lemma foldl_tracks_max acc (tracks : list Track.t) :
  (0 ≤ acc)%Z →
  foldl (λ acc track,
           foldl (λ acc item, Z.max acc (MediaItem.endFrame item)) acc
                 (Track.items track))
        acc tracks
  = Z.max acc (maxEnd (concat (Track.items <$> tracks))).
Proof.
  revert acc. induction tracks as [|track tracks IH]; intros acc Hacc; csimpl.
  - unfold maxEnd. csimpl. lia.
  - rewrite foldl_items_max by done. pose proof (maxEnd_nonneg (Track.items track)).
    rewrite IH by lia. rewrite maxEnd_app. lia.
Qed.

Lemma updateTotalDuration_fresh tm :
  DurationFresh (TimelineManager.updateTotalDuration tm).
Proof.
  unfold DurationFresh, TimelineManager.updateTotalDuration, allItems,
    TimelineManager.getTotalDuration, TimelineManager.getTracks. simpl.
  rewrite foldl_tracks_max by done.
  pose proof (maxEnd_nonneg (concat (Track.items <$> JsMap.values (TimelineManager.tracks tm)))).
  lia.
Qed.

Lemma recordOperation_fresh tm operation :
  DurationFresh tm → DurationFresh (TimelineManager.recordOperation tm operation).
Proof. done. Qed.





(** ** Integer frames in [Loose] *)

Lemma get_loose {A B} (f : A → B) (k : string) (m : list (string * A)) :
  JsMap.get k (prod_map id f <$> m) = f <$> JsMap.get k m.
Proof.
  unfold JsMap.get. rewrite list_find_fmap.
  change ((λ kv : string * B, kv.1 = k) ∘ prod_map id f)
    with (λ kv : string * A, kv.1 = k).
  by destruct (list_find _ m) as [[i [k' v]]|].
Qed.

Lemma set_loose {A B} (f : A → B) (k : string) (v : A) (m : list (string * A)) :
  JsMap.set k (f v) (prod_map id f <$> m) = prod_map id f <$> JsMap.set k v m.
Proof.
  unfold JsMap.set. rewrite list_find_fmap.
  change ((λ kv : string * B, kv.1 = k) ∘ prod_map id f)
    with (λ kv : string * A, kv.1 = k).
  destruct (list_find _ m) as [[i [k' v']]|]; simpl.
  - by rewrite list_fmap_insert.
  - by rewrite fmap_app.
Qed.

Lemma findItem_loose (itemId : string) (items : list MediaItem.t) :
  Loose.TimelineManager.findItem itemId (looseItem <$> items)
  = prod_map id looseItem <$> TimelineManager.findItem itemId items.
Proof.
  unfold Loose.TimelineManager.findItem, TimelineManager.findItem.
  by rewrite list_find_fmap.
Qed.

Lemma overlaps_loose (newItem item : MediaItem.t) :
  Loose.TimelineManager.overlaps (looseItem newItem) (looseItem item)
  = TimelineManager.overlaps newItem item.
Proof. done. Qed.

Lemma resolveVisit_loose (newItem : MediaItem.t) (items : list MediaItem.t) (k : nat) :
  Loose.TimelineManager.resolveVisit (looseItem newItem) (looseItem <$> items) k
  = looseItem <$> TimelineManager.resolveVisit newItem items k.
Proof.
  unfold Loose.TimelineManager.resolveVisit, TimelineManager.resolveVisit.
  rewrite list_lookup_fmap. destruct (items !! k) as [item|]; [|done]. simpl.
  change (Loose.MediaItem.id (looseItem item)) with (MediaItem.id item).
  change (Loose.MediaItem.id (looseItem newItem)) with (MediaItem.id newItem).
  case_decide; [done|]. rewrite overlaps_loose.
  destruct (TimelineManager.overlaps newItem item); [|done].
  change (Loose.Frame.ltb (Loose.MediaItem.startFrame (looseItem newItem))
            (Loose.MediaItem.startFrame (looseItem item)))
    with (MediaItem.startFrame newItem <? MediaItem.startFrame item)%Z.
  destruct (_ <? _)%Z; by rewrite list_fmap_insert.
Qed.

Lemma resolvePass_loose (newItem : MediaItem.t) (items : list MediaItem.t) :
  foldl (Loose.TimelineManager.resolveVisit (looseItem newItem)) (looseItem <$> items)
    (seq 0 (length (looseItem <$> items)))
  = looseItem <$> foldl (TimelineManager.resolveVisit newItem) items
                    (seq 0 (length items)).
Proof.
  rewrite length_fmap. generalize (seq 0 (length items)). intros ks.
  revert items. induction ks as [|k ks IH]; intros items; [done|].
  simpl. by rewrite resolveVisit_loose, IH.
Qed.

Lemma resolveOverlaps_loose (track : Track.t) (newItem : MediaItem.t) :
  Loose.TimelineManager.resolveOverlaps (looseTrack track) (looseItem newItem)
  = looseTrack (TimelineManager.resolveOverlaps track newItem).
Proof.
  unfold Loose.TimelineManager.resolveOverlaps, TimelineManager.resolveOverlaps,
    looseTrack, Loose.Track.with_items. simpl. f_equal. apply resolvePass_loose.
Qed.

Lemma updateTotalDuration_loose (tm : TimelineManager.t) :
  Loose.TimelineManager.updateTotalDuration (looseTimeline tm)
  = looseTimeline (TimelineManager.updateTotalDuration tm).
Proof.
  unfold Loose.TimelineManager.updateTotalDuration, TimelineManager.updateTotalDuration,
    looseTimeline, Loose.TimelineManager.with_totalDuration. simpl. f_equal.
  unfold JsMap.values. rewrite <- list_fmap_compose.
  generalize 0%Z. induction (TimelineManager.tracks tm) as [|[k track] m IH];
    intros acc; [done|].
  simpl. rewrite <- IH. f_equal.
  generalize acc. clear. induction (Track.items track) as [|item items IH];
    intros acc; [done|].
  simpl. by rewrite <- IH.
Qed.

Lemma recordOperation_loose (tm : TimelineManager.t) (operation : EditOperation.t) :
  Loose.TimelineManager.recordOperation (looseTimeline tm) (looseOperation operation)
  = looseTimeline (TimelineManager.recordOperation tm operation).
Proof.
  unfold Loose.TimelineManager.recordOperation, TimelineManager.recordOperation,
    looseTimeline. simpl.
  rewrite !length_app, !length_fmap.
  change (length [looseOperation operation]) with (length [operation]).
  unfold Loose.TimelineManager.with_redoStack, Loose.TimelineManager.with_undoStack.
  simpl. f_equal. case_decide; by rewrite ?fmap_drop, fmap_app.
Qed.

Lemma with_tracks_loose (m : list (string * Track.t)) (tm : TimelineManager.t) :
  Loose.TimelineManager.with_tracks (prod_map id looseTrack <$> m) (looseTimeline tm)
  = looseTimeline (TimelineManager.with_tracks m tm).
Proof. done. Qed.

(** On an integer split frame [Loose.TimelineManager.splitItem] is
    [TimelineManager.splitItem]. *)
Lemma splitItem_on_integer_frames (tm : TimelineManager.t) (trackId itemId : string)
    (splitFrame : Z) (newId opId : string) (now : Z) :
  Loose.TimelineManager.splitItem (looseTimeline tm) trackId itemId
    (Loose.Frame.Int splitFrame) newId opId now
  = prod_map looseTimeline id
      (TimelineManager.splitItem tm trackId itemId splitFrame newId opId now).
Proof.
  unfold Loose.TimelineManager.splitItem, TimelineManager.splitItem.
  change (Loose.TimelineManager.tracks (looseTimeline tm))
    with (prod_map id looseTrack <$> TimelineManager.tracks tm).
  rewrite get_loose.
  destruct (JsMap.get trackId (TimelineManager.tracks tm)) as [track|]; [|done].
  simpl. destruct (Track.isLocked track); [done|].
  rewrite findItem_loose.
  destruct (TimelineManager.findItem itemId (Track.items track)) as [[i item]|];
    [|done].
  simpl. destruct (_ || _); [done|]. simpl.
  rewrite <- recordOperation_loose, <- with_tracks_loose, <- set_loose.
  f_equal. f_equal. f_equal. f_equal.
  unfold looseTrack, Loose.Track.with_items. simpl. f_equal.
  by rewrite fmap_app, list_fmap_insert.
Qed.

(** On an integer start frame [Loose.TimelineManager.moveItem] is
    [TimelineManager.moveItem]. *)
Lemma moveItem_on_integer_frames (tm : TimelineManager.t) (trackId itemId : string)
    (newStartFrame : Z) (newTrackId : option string) (opId : string) (now : Z) :
  Loose.TimelineManager.moveItem (looseTimeline tm) trackId itemId
    (Loose.Frame.Int newStartFrame) newTrackId opId now
  = prod_map looseTimeline id
      (TimelineManager.moveItem tm trackId itemId newStartFrame newTrackId opId now).
Proof.
  unfold Loose.TimelineManager.moveItem, TimelineManager.moveItem.
  change (Loose.TimelineManager.tracks (looseTimeline tm))
    with (prod_map id looseTrack <$> TimelineManager.tracks tm).
  rewrite !get_loose.
  destruct (JsMap.get trackId (TimelineManager.tracks tm)) as [sourceTrack|]; [|done].
  simpl. destruct (Track.isLocked sourceTrack); [done|].
  rewrite findItem_loose.
  destruct (TimelineManager.findItem itemId (Track.items sourceTrack)) as [[i item]|];
    [|done].
  simpl. destruct (TimelineManager.sameTrack trackId newTrackId).
  - match goal with
    | |- _ = prod_map _ _ (?a, ?b) =>
      change (prod_map looseTimeline id (a, b)) with (looseTimeline a, b)
    end.
    rewrite <- recordOperation_loose, <- updateTotalDuration_loose,
      <- with_tracks_loose, <- set_loose, <- resolveOverlaps_loose.
    do 5 f_equal. unfold looseTrack, Loose.Track.with_items. simpl.
    by rewrite list_fmap_insert.
  - destruct (JsMap.get (TimelineManager.orTrackId trackId newTrackId)
                (TimelineManager.tracks tm)) as [targetTrack|]; [|done].
    simpl. destruct (Track.isLocked targetTrack); [done|].
    match goal with
    | |- _ = prod_map _ _ (?a, ?b) =>
      change (prod_map looseTimeline id (a, b)) with (looseTimeline a, b)
    end.
    change (Loose.MediaItem.with_startFrame (Loose.Frame.Int newStartFrame)
              (looseItem item))
      with (looseItem (MediaItem.with_startFrame newStartFrame item)).
    rewrite resolveOverlaps_loose.
    rewrite <- recordOperation_loose, <- updateTotalDuration_loose,
      <- with_tracks_loose, <- !set_loose.
    do 4 f_equal. f_equal.
    + unfold looseTrack, Loose.Track.with_items. simpl.
      by rewrite resolvePass_loose, fmap_app.
    + f_equal. unfold looseTrack, Loose.Track.with_items. simpl.
      by rewrite list_fmap_delete.
Qed.

(** ** The non-overlap invariant *)

Lemma safe_step (tm : TimelineManager.t) (c : Call) :
  isAddOrMove c = true →
  DistinctIds tm → FreshItem c tm → Safe c tm → AllNonOverlapping tm →
  AllNonOverlapping (perform c tm).1 ∧ DistinctIds (perform c tm).1.
Proof.
  destruct c as [| |trackId item insertFrame opId now|
                 |trackId itemId newStartFrame newTrackId opId now| | | |];
    try discriminate; intros _ Hdistinct Hfresh Hsafe Hno.
  { by apply add_step. }
  destruct (TimelineManager.getTrack tm trackId) as [source|] eqn:Hsource; cycle 1.
  { simpl. by rewrite moveItem_rejected by eauto. }
  destruct (Track.isLocked source) eqn:Hlock.
  { simpl. by rewrite moveItem_rejected by eauto 10. }
  destruct (TimelineManager.findItem itemId (Track.items source))
    as [[i item]|] eqn:Hfind; cycle 1.
  { simpl. by rewrite moveItem_rejected by eauto 10. }
  destruct (TimelineManager.sameTrack trackId newTrackId) eqn:Hsame.
  { by eapply move_same_step. }
  destruct (TimelineManager.getTrack tm (TimelineManager.orTrackId trackId newTrackId))
    as [target|] eqn:Htarget; cycle 1.
  { simpl. by rewrite moveItem_rejected by eauto 10. }
  destruct (Track.isLocked target) eqn:Hlock'.
  { simpl. by rewrite moveItem_rejected by eauto 10. }
  by eapply move_cross_step.
Qed.

(** The sample timelines, read through [getTrack]. *)
Lemma get_single {V} (key k : string) (v v' : V) :
  JsMap.get k [(key, v)] = Some v' → k = key ∧ v' = v.
Proof.
  unfold JsMap.get. cbn. case_decide; [|done]. by intros [= <-].
Qed.

Lemma twoClips_getTrack trackId track :
  TimelineManager.getTrack twoClips trackId = Some track →
  trackId = "t1" ∧ Track.items track = [clip "B" 10 10; clip "C" 20 10].
Proof.
  unfold TimelineManager.getTrack.
  replace (TimelineManager.tracks twoClips)
    with [("t1", Track.mk "t1" (Some "Video Track") (Some TVideo)
                   [clip "B" 10 10; clip "C" 20 10] false true None)]
    by (vm_compute; reflexivity).
  by intros [-> ->]%get_single.
Qed.

Lemma twoClips_non_overlapping : AllNonOverlapping twoClips.
Proof.
  intros trackId track [_ ->]%twoClips_getTrack i j a b Hij Ha Hb (f & Hfa & Hfb).
  destruct i as [|[|i]], j as [|[|j]]; simplify_eq/=;
    unfold occupies, MediaItem.endFrame in *; simpl in *; lia.
Qed.

Lemma spacedClips_getTrack trackId track :
  TimelineManager.getTrack spacedClips trackId = Some track →
  trackId = "t1" ∧ Track.items track = [clip "B" 10 10; clip "C" 40 10].
Proof.
  unfold TimelineManager.getTrack.
  replace (TimelineManager.tracks spacedClips)
    with [("t1", Track.mk "t1" (Some "Video Track") (Some TVideo)
                   [clip "B" 10 10; clip "C" 40 10] false true None)]
    by (vm_compute; reflexivity).
  by intros [-> ->]%get_single.
Qed.

Lemma spacedClips_non_overlapping : AllNonOverlapping spacedClips.
Proof.
  intros trackId track [_ ->]%spacedClips_getTrack i j a b Hij Ha Hb (f & Hfa & Hfb).
  destruct i as [|[|i]], j as [|[|j]]; simplify_eq/=;
    unfold occupies, MediaItem.endFrame in *; simpl in *; lia.
Qed.

Lemma spacedClips_distinct : DistinctIds spacedClips.
Proof.
  split.
  - intros trackId track [_ Hitems]%spacedClips_getTrack.
    unfold trackIds. rewrite Hitems. by apply (bool_decide_unpack _).
  - intros k1 k2 track1 track2 Hne [-> _]%spacedClips_getTrack
      [-> _]%spacedClips_getTrack.
    done.
Qed.

(** C1 (as amended). A run of [addItemToTrack] and [moveItem] calls keeps
    every track free of intersecting items, displacements by the overlap
    resolver included, when each call is safe: whenever another item of the
    destination track starts inside the interval of the placed item, it
    starts after the placed item's first frame, it is the only item that
    starts there, and slid to the end of the placed item it intersects no
    further item of the track. Item identifiers are distinct, an added item
    brings a new one, and they stay distinct along the run. *)
Theorem safe_edits_keep_tracks_non_overlapping
    (tm : TimelineManager.t) (calls : list Call) :
  DistinctIds tm → AllNonOverlapping tm → SafeRun calls tm →
  AllNonOverlapping (run calls tm) ∧ DistinctIds (run calls tm).
Proof.
  revert tm. induction calls as [|c calls IH]; intros tm Hdistinct Hno Hrun.
  - done.
  - destruct Hrun as (Hkind & Hfresh & Hsafe & Hrun).
    destruct (safe_step tm c Hkind Hdistinct Hfresh Hsafe Hno) as [Hno' Hdistinct'].
    exact (IH _ Hdistinct' Hno' Hrun).
Qed.

(** A safe run on the track with B on [[10,20)] and C on [[40,50)]: A
    arrives on [[5,12)], B starts inside it and is slid to [[12,22)], which
    is clear of C. *)
Lemma safe_edits_keep_tracks_non_overlapping_witness :
  AllNonOverlapping
    (run [AddItemToTrack "t1" (clip "A" 5 7) None "op3" 3] spacedClips)
  ∧ DistinctIds
      (run [AddItemToTrack "t1" (clip "A" 5 7) None "op3" 3] spacedClips).
Proof.
  apply (safe_edits_keep_tracks_non_overlapping spacedClips
           [AddItemToTrack "t1" (clip "A" 5 7) None "op3" 3]).
  - exact spacedClips_distinct.
  - exact spacedClips_non_overlapping.
  - simpl. split_and!; [reflexivity| | |exact I].
    + intros trackId track [_ Hitems]%spacedClips_getTrack.
      unfold trackIds. rewrite Hitems. by apply (bool_decide_unpack _).
    + intros dest placed track [= <- <-] [_ Hitems]%spacedClips_getTrack.
      rewrite Hitems. intros j a Ha _ Hin.
      destruct j as [|[|j]]; simplify_eq/=.
      * split; [done|]. intros k b Hk Hb _.
        destruct k as [|[|k]]; simplify_eq/=.
        unfold intersecting, occupies, displaced, MediaItem.endFrame. simpl.
        split; [lia|]. intros (f & ? & ?). lia.
      * unfold occupies, MediaItem.endFrame in Hin. simpl in Hin. lia.
Defined.

(** C1, the claim as stated, fails. The track holds B on [[10,20)] and C on
    [[20,30)], which do not intersect. Adding A on [[5,15)] makes the
    resolver slide B to [[15,25)]; the pass does not look at B again, and B
    now shares frames 20 to 24 with C. *)
Lemma chain_displacement_leaves_overlap :
  let after := run [AddItemToTrack "t1" (clip "A" 5 10) None "op3" 3] twoClips in
  AllNonOverlapping twoClips
  ∧ (TimelineManager.addItemToTrack twoClips "t1" (clip "A" 5 10) None "op3" 3).2 = true
  ∧ Track.items <$> TimelineManager.getTrack after "t1"
    = Some [clip "B" 15 10; clip "C" 20 10; clip "A" 5 10]
  ∧ occupies (clip "B" 15 10) 20 ∧ occupies (clip "C" 20 10) 20
  ∧ ¬ AllNonOverlapping after.
Proof.
  intros after. split; [exact twoClips_non_overlapping|].
  split; [reflexivity|]. split; [reflexivity|].
  assert (occupies (clip "B" 15 10) 20 ∧ occupies (clip "C" 20 10) 20) as [HB HC].
  { unfold occupies, MediaItem.endFrame. simpl. lia. }
  split; [exact HB|]. split; [exact HC|].
  intros Hno.
  destruct (TimelineManager.getTrack after "t1") as [track|] eqn:Htrack; [|done].
  apply (Hno "t1" track Htrack 0 1 (clip "B" 15 10) (clip "C" 20 10)).
  - done.
  - by injection Htrack as <-.
  - by injection Htrack as <-.
  - by exists 20%Z.
Qed.

(** The other two conditions of a safe call are needed as well. On the
    track with B on [[10,20)] and C on [[20,30)], an item A added on
    [[10,15)] starts on the first frame of B, which is cut down to one
    frame and still shares frame 10 with A; an item A added on [[5,25)]
    has both B and C start inside it, and both are slid to frame 25. *)
Lemma same_start_or_two_displaced_leave_overlap :
  Track.items
    <$> TimelineManager.getTrack
          (run [AddItemToTrack "t1" (clip "A" 10 5) None "op3" 3] twoClips) "t1"
  = Some [clip "B" 10 1; clip "C" 20 10; clip "A" 10 5]
  ∧ intersecting (clip "B" 10 1) (clip "A" 10 5)
  ∧ Track.items
      <$> TimelineManager.getTrack
            (run [AddItemToTrack "t1" (clip "A" 5 20) None "op3" 3] twoClips) "t1"
    = Some [clip "B" 25 10; clip "C" 25 10; clip "A" 5 20]
  ∧ intersecting (clip "B" 25 10) (clip "C" 25 10).
Proof.
  split; [reflexivity|]. split.
  { exists 10%Z. unfold occupies, MediaItem.endFrame. simpl. lia. }
  split; [reflexivity|].
  exists 25%Z. unfold occupies, MediaItem.endFrame. simpl. lia.
Qed.

(** ** The cached total duration *)

(** C2 at the input where the code departs from it. The track ["t1"] holds
    B on [[10,20)] and C on [[20,30)], and the cached total is 30, the
    maximum of [start + duration]. [deleteTrack("t1")] succeeds and removes
    the track with its items, but does not recompute the total:
    [getTotalDuration()] still answers 30 on a timeline without items, where
    the maximum over the items is 0. *)
Theorem deleteTrack_leaves_total_duration_stale :
  let deleted := TimelineManager.deleteTrack twoClips "t1" in
  DurationFresh twoClips
  ∧ TimelineManager.getTotalDuration twoClips = 30%Z
  ∧ deleted.2 = true
  ∧ TimelineManager.getTracks deleted.1 = []
  ∧ allItems deleted.1 = []
  ∧ maxEnd (allItems deleted.1) = 0%Z
  ∧ TimelineManager.getTotalDuration deleted.1 = 30%Z
  ∧ ¬ DurationFresh deleted.1.
Proof.
  intros deleted. split_and!; try reflexivity.
  unfold DurationFresh. vm_compute. discriminate.
Qed.


(** ** Undo and redo *)

(** C3 at the input where the code departs from it. On the timeline with
    the empty track ["t1"], [addItemToTrack] puts B on [[10,20)] and
    succeeds. [undo()] then returns [true], yet the track still holds B and
    the total is still 20: the state before the call, an empty track and a
    total of 0, is not restored. [redo()] afterwards returns [true] and
    leaves the timeline as the call had made it. *)
Theorem undo_does_not_restore_timeline :
  let before := oneTrack in
  let added :=
    TimelineManager.addItemToTrack before "t1" (clip "B" 10 10) None "op1" 1 in
  let undone := TimelineManager.undo added.1 in
  let redone := TimelineManager.redo undone.1 in
  added.2 = true ∧ undone.2 = true ∧ redone.2 = true
  ∧ Track.items <$> TimelineManager.getTrack before "t1" = Some []
  ∧ TimelineManager.getTotalDuration before = 0%Z
  ∧ Track.items <$> TimelineManager.getTrack undone.1 "t1" = Some [clip "B" 10 10]
  ∧ TimelineManager.getTotalDuration undone.1 = 20%Z
  ∧ TimelineManager.tracks undone.1 ≠ TimelineManager.tracks before
  ∧ TimelineManager.tracks undone.1 = TimelineManager.tracks added.1
  ∧ redone.1 = added.1.
Proof.
  intros before added undone redone. split_and!; try reflexivity.
  vm_compute. discriminate.
Qed.

(** ** Splitting an item *)

(** On integer frames [splitItem] does what the specification says. It
    returns [false] and leaves the whole timeline as it was when the track
    is missing or locked, when no item of the track has the identifier, or
    when [splitFrame] is not strictly inside the occupied interval of the
    item ([splitFrame <= start] or [splitFrame >= start + duration]).
    Otherwise it returns [true]; the item keeps its slot, its identifier
    and its start and now ends at [splitFrame]; a new last slot holds an
    item with the generated identifier that occupies
    [[splitFrame, start + duration)] and agrees with the original on every
    other attribute; the two durations add up to the original one, and the
    other tracks are untouched. When the generated identifier is not in
    use in the track, the identifiers of the track stay distinct. *)
Lemma splitItem_spec (tm : TimelineManager.t) (trackId itemId : string)
    (splitFrame : Z) (newId opId : string) (now : Z) :
  let result := TimelineManager.splitItem tm trackId itemId splitFrame newId opId now in
  ((TimelineManager.getTrack tm trackId = None
    ∨ ∃ track,
        TimelineManager.getTrack tm trackId = Some track
        ∧ (Track.isLocked track = true
           ∨ TimelineManager.findItem itemId (Track.items track) = None
           ∨ ∃ i item,
               TimelineManager.findItem itemId (Track.items track) = Some (i, item)
               ∧ (splitFrame ≤ MediaItem.startFrame item
                  ∨ splitFrame >= MediaItem.startFrame item
                                  + MediaItem.durationInFrames item)%Z)) →
   result = (tm, false))
  ∧ (∀ track i item,
       TimelineManager.getTrack tm trackId = Some track →
       Track.isLocked track = false →
       TimelineManager.findItem itemId (Track.items track) = Some (i, item) →
       (MediaItem.startFrame item < splitFrame
        < MediaItem.startFrame item + MediaItem.durationInFrames item)%Z →
       ∃ first second,
         result.2 = true
         ∧ TimelineManager.getTrack result.1 trackId
           = Some (Track.with_items (<[i := first]> (Track.items track) ++ [second])
                     track)
         ∧ (∀ k, k ≠ trackId →
                 TimelineManager.getTrack result.1 k = TimelineManager.getTrack tm k)
         ∧ first = MediaItem.with_durationInFrames
                     (splitFrame - MediaItem.startFrame item) item
         ∧ MediaItem.startFrame first = MediaItem.startFrame item
         ∧ MediaItem.endFrame first = splitFrame
         ∧ second = MediaItem.with_durationInFrames
                      (MediaItem.endFrame item - splitFrame)
                      (MediaItem.with_startFrame splitFrame
                         (MediaItem.with_id newId item))
         ∧ MediaItem.id second = newId
         ∧ (MediaItem.type second, MediaItem.src second,
            MediaItem.x second, MediaItem.y second,
            MediaItem.width second, MediaItem.height second,
            MediaItem.opacity second, MediaItem.scale second,
            MediaItem.rotation second)
           = (MediaItem.type item, MediaItem.src item,
              MediaItem.x item, MediaItem.y item,
              MediaItem.width item, MediaItem.height item,
              MediaItem.opacity item, MediaItem.scale item,
              MediaItem.rotation item)
         ∧ MediaItem.startFrame second = splitFrame
         ∧ MediaItem.endFrame second = MediaItem.endFrame item
         ∧ (MediaItem.durationInFrames first + MediaItem.durationInFrames second
            = MediaItem.durationInFrames item)%Z
         ∧ (NoDup (trackIds track) → newId ∉ trackIds track →
            NoDup (MediaItem.id <$> <[i := first]> (Track.items track) ++ [second]))).
Proof.
  intros result. subst result.
  unfold TimelineManager.getTrack, TimelineManager.splitItem. split.
  - intros [->|(track & -> & Hwhy)]; [done|].
    destruct (Track.isLocked track); [done|].
    destruct Hwhy as [?|[->|(i & item & -> & Hout)]]; [done..|].
    destruct (Z.leb_spec (splitFrame - MediaItem.startFrame item) 0),
      (Z.geb_spec (splitFrame - MediaItem.startFrame item)
         (MediaItem.durationInFrames item)); simpl; try done.
    exfalso. lia.
  - intros track i item -> -> Hfind Hin. rewrite Hfind.
    destruct (Z.leb_spec (splitFrame - MediaItem.startFrame item) 0),
      (Z.geb_spec (splitFrame - MediaItem.startFrame item)
         (MediaItem.durationInFrames item)); simpl; try (exfalso; lia).
    exists (MediaItem.with_durationInFrames
              (splitFrame - MediaItem.startFrame item) item),
      (MediaItem.with_durationInFrames (MediaItem.endFrame item - splitFrame)
         (MediaItem.with_startFrame splitFrame (MediaItem.with_id newId item))).
    split; [done|].
    split.
    { rewrite get_set_eq. unfold MediaItem.endFrame.
      do 4 f_equal. unfold MediaItem.with_durationInFrames. f_equal. simpl. lia. }
    split; [by intros k Hk; rewrite get_set_ne|].
    unfold MediaItem.endFrame. simpl. split_and!; try first [done | lia].
    intros Hdistinct Hfresh.
    apply findItem_Some in Hfind as [Hslot _].
    rewrite fmap_app, (ids_insert_same _ _ item) by done.
    apply NoDup_app. split; [done|]. split; [|apply NoDup_singleton].
    intros id Hid ->%list_elem_of_singleton. by apply Hfresh.
Qed.

(** B on [[10,20)] split at frame 15, and at frame 20, which is not inside. *)
Lemma splitItem_spec_witness :
  TimelineManager.splitItem twoClips "t1" "B" 20 "B2" "op3" 3 = (twoClips, false)
  ∧ Track.items
      <$> TimelineManager.getTrack
            (TimelineManager.splitItem twoClips "t1" "B" 15 "B2" "op3" 3).1 "t1"
    = Some [clip "B" 10 5; clip "C" 20 10; clip "B2" 15 5].
Proof.
  pose (track := Track.mk "t1" (Some "Video Track") (Some TVideo)
                   [clip "B" 10 10; clip "C" 20 10] false true None).
  split.
  - apply (splitItem_spec twoClips "t1" "B" 20 "B2" "op3" 3).
    right. exists track. split; [reflexivity|]. right. right.
    exists 0, (clip "B" 10 10). split; [reflexivity|]. right. simpl. lia.
  - destruct (splitItem_spec twoClips "t1" "B" 15 "B2" "op3" 3) as [_ Hsplit].
    destruct (Hsplit track 0 (clip "B" 10 10)) as (first & second & Hsecond);
      [reflexivity|reflexivity|reflexivity|simpl; lia|].
    destruct Hsecond as (_ & -> & _ & -> & _ & _ & -> & _). reflexivity.
Defined.

(** C4 at the input where the code departs from it. The track ["t1"]
    holds B on [[10,20)] and C on [[20,30)]. [splitItem("t1", "B", 20)] is
    turned down, as frame 20 is not strictly inside [[10,20)]. A
    [splitFrame] that is [undefined], which is what [handleSplitClip] hands
    over with [splitFrame!] when the request has no such field, or [NaN]
    is not inside it either. But then [relativeFrame] is [NaN], both
    comparisons of the guard
    [relativeFrame <= 0 || relativeFrame >= item.durationInFrames] are
    false, and [splitItem] goes on: it returns [true], B is left with the
    duration [NaN], and a new last item with the generated identifier has
    the given [splitFrame] as its start and the duration [NaN]. *)
Theorem splitItem_accepts_a_missing_split_frame :
  let tm := looseTimeline twoClips in
  let itemsOf tm := Loose.Track.items <$> Loose.TimelineManager.getTrack tm "t1" in
  let splitAt splitFrame :=
    Loose.TimelineManager.splitItem tm "t1" "B" splitFrame "B2" "op3" 3 in
  itemsOf tm
  = Some [looseClip "B" (Loose.Frame.Int 10) (Loose.Frame.Int 10);
          looseClip "C" (Loose.Frame.Int 20) (Loose.Frame.Int 10)]
  ∧ splitAt (Loose.Frame.Int 20) = (tm, false)
  ∧ (splitAt Loose.Frame.Undefined).2 = true
  ∧ itemsOf (splitAt Loose.Frame.Undefined).1
    = Some [looseClip "B" (Loose.Frame.Int 10) Loose.Frame.NaN;
            looseClip "C" (Loose.Frame.Int 20) (Loose.Frame.Int 10);
            looseClip "B2" Loose.Frame.Undefined Loose.Frame.NaN]
  ∧ (splitAt Loose.Frame.NaN).2 = true
  ∧ itemsOf (splitAt Loose.Frame.NaN).1
    = Some [looseClip "B" (Loose.Frame.Int 10) Loose.Frame.NaN;
            looseClip "C" (Loose.Frame.Int 20) (Loose.Frame.Int 10);
            looseClip "B2" Loose.Frame.NaN Loose.Frame.NaN].
Proof. by split_and!. Qed.

(** ** The overlap resolver *)

(** C5. [resolveOverlaps] is one pass over the items the track holds: the
    array keeps its length, every slot is rewritten from its own item and
    the new item alone, and only [startFrame] and [durationInFrames] are
    ever written. The other items are the items whose identifier is not
    the new item's; the moved item itself, which [moveItem] leaves in the
    array, is skipped by its identifier. Another item is left as it is
    when [newEnd <= otherStart] or [newStart >= otherEnd]; otherwise, if
    [newStart < otherStart] its start becomes [newEnd] and its duration
    stays, and if not its duration becomes [max(1, newStart - otherStart)]
    and its start stays. Nothing else of the track changes. *)
Theorem resolveOverlaps_single_pass (track : Track.t) (newItem : MediaItem.t) :
  let newStart := MediaItem.startFrame newItem in
  let newEnd := (MediaItem.startFrame newItem + MediaItem.durationInFrames newItem)%Z in
  let track' := TimelineManager.resolveOverlaps track newItem in
  (Track.id track', Track.name track', Track.type track',
   Track.isLocked track', Track.isVisible track', Track.volume track')
  = (Track.id track, Track.name track, Track.type track,
     Track.isLocked track, Track.isVisible track, Track.volume track)
  ∧ length (Track.items track') = length (Track.items track)
  ∧ ∀ k other,
      Track.items track !! k = Some other →
      let otherStart := MediaItem.startFrame other in
      let otherDuration := MediaItem.durationInFrames other in
      let otherEnd :=
        (MediaItem.startFrame other + MediaItem.durationInFrames other)%Z in
      ∃ other',
        Track.items track' !! k = Some other'
        ∧ (MediaItem.id other', MediaItem.type other', MediaItem.src other',
           MediaItem.x other', MediaItem.y other',
           MediaItem.width other', MediaItem.height other',
           MediaItem.opacity other', MediaItem.scale other',
           MediaItem.rotation other')
          = (MediaItem.id other, MediaItem.type other, MediaItem.src other,
             MediaItem.x other, MediaItem.y other,
             MediaItem.width other, MediaItem.height other,
             MediaItem.opacity other, MediaItem.scale other,
             MediaItem.rotation other)
        ∧ (MediaItem.id other = MediaItem.id newItem →
           MediaItem.startFrame other' = otherStart
           ∧ MediaItem.durationInFrames other' = otherDuration)
        ∧ (MediaItem.id other ≠ MediaItem.id newItem →
           ((newEnd ≤ otherStart ∨ newStart >= otherEnd)%Z →
            MediaItem.startFrame other' = otherStart
            ∧ MediaItem.durationInFrames other' = otherDuration)
           ∧ (¬ (newEnd ≤ otherStart ∨ newStart >= otherEnd)%Z →
              (newStart < otherStart)%Z →
              MediaItem.startFrame other' = newEnd
              ∧ MediaItem.durationInFrames other' = otherDuration)
           ∧ (¬ (newEnd ≤ otherStart ∨ newStart >= otherEnd)%Z →
              ¬ (newStart < otherStart)%Z →
              MediaItem.startFrame other' = otherStart
              ∧ MediaItem.durationInFrames other'
                = Z.max 1 (newStart - otherStart))).
Proof.
  intros newStart newEnd track'.
  split; [done|]. subst track'.
  rewrite resolveOverlaps_items, length_fmap. split; [done|].
  intros k other Hk otherStart otherDuration otherEnd.
  exists (resolveOne newItem other). split.
  { by rewrite list_lookup_fmap, Hk. }
  subst newStart newEnd otherStart otherDuration otherEnd.
  unfold resolveOne, TimelineManager.overlaps, MediaItem.endFrame.
  split; [by repeat case_match|].
  split; [intros ?; by case_decide|]. intros Hid.
  case_decide; [done|].
  destruct
    (Z.leb_spec (MediaItem.startFrame newItem + MediaItem.durationInFrames newItem)
       (MediaItem.startFrame other)),
    (Z.geb_spec (MediaItem.startFrame newItem)
       (MediaItem.startFrame other + MediaItem.durationInFrames other)),
    (Z.ltb_spec (MediaItem.startFrame newItem) (MediaItem.startFrame other));
    simpl; split_and!; intros; first [done | exfalso; lia].
Qed.

(** The pass at work on a track with B on [[10,20)], C on [[20,30)] and D
    on [[40,50)] when A arrives on [[15,25)]: B, which starts before A, is
    cut back to [[10,15)]; C, which starts after A, slides to [[25,35)]
    and now ends where it did not before; D is out of reach and stays. *)
Lemma resolveOverlaps_single_pass_witness :
  let track :=
    Track.mk "t1" None None [clip "B" 10 10; clip "C" 20 10; clip "D" 40 10]
      false true None in
  let items' := Track.items (TimelineManager.resolveOverlaps track (clip "A" 15 10)) in
  items' !! 0 = Some (clip "B" 10 5)
  ∧ items' !! 1 = Some (clip "C" 25 10)
  ∧ items' !! 2 = Some (clip "D" 40 10).
Proof.
  intros track items'. subst items'.
  destruct (resolveOverlaps_single_pass track (clip "A" 15 10)) as (_ & _ & Hslot).
  split; [|split].
  - destruct (Hslot 0 (clip "B" 10 10) eq_refl) as (other' & -> & Hrest & _ & Hother).
    destruct Hother as (_ & _ & [Hstart Hduration]);
      [discriminate|simpl; lia|simpl; lia|].
    destruct other'. simpl in Hrest, Hstart, Hduration.
    injection Hrest as -> -> -> -> -> -> -> -> -> ->. by subst.
  - destruct (Hslot 1 (clip "C" 20 10) eq_refl) as (other' & -> & Hrest & _ & Hother).
    destruct Hother as (_ & [Hstart Hduration] & _);
      [discriminate|simpl; lia|simpl; lia|].
    destruct other'. simpl in Hrest, Hstart, Hduration.
    injection Hrest as -> -> -> -> -> -> -> -> -> ->. by subst.
  - destruct (Hslot 2 (clip "D" 40 10) eq_refl) as (other' & -> & Hrest & _ & Hother).
    destruct Hother as ([Hstart Hduration] & _); [discriminate|simpl; lia|].
    destruct other'. simpl in Hrest, Hstart, Hduration.
    injection Hrest as -> -> -> -> -> -> -> -> -> ->. by subst.
Defined.

(** ** Locked tracks *)

(** X30. The five item mutations of [TimelineManager] turn a locked track
    down: they return [false] and change nothing. For [moveItem] this holds
    for the locked track as the source and as the destination. *)
Lemma locked_track_rejects_timeline_mutations
    (tm : TimelineManager.t) (trackId : string) (track : Track.t) :
  TimelineManager.getTrack tm trackId = Some track →
  Track.isLocked track = true →
  (∀ item insertFrame opId now,
     TimelineManager.addItemToTrack tm trackId item insertFrame opId now = (tm, false))
  ∧ (∀ itemId opId now,
       TimelineManager.removeItemFromTrack tm trackId itemId opId now = (tm, false))
  ∧ (∀ itemId newStartFrame newTrackId opId now,
       TimelineManager.moveItem tm trackId itemId newStartFrame newTrackId opId now
       = (tm, false))
  ∧ (∀ sourceId itemId newStartFrame opId now,
       sourceId ≠ trackId → trackId ≠ "" →
       TimelineManager.moveItem tm sourceId itemId newStartFrame (Some trackId) opId now
       = (tm, false))
  ∧ (∀ itemId trimStart trimEnd opId now,
       TimelineManager.trimItem tm trackId itemId trimStart trimEnd opId now
       = (tm, false))
  ∧ (∀ itemId splitFrame newId opId now,
       TimelineManager.splitItem tm trackId itemId splitFrame newId opId now
       = (tm, false)).
Proof.
  intros Htrack Hlock. split_and!.
  - intros. apply addItemToTrack_rejected. eauto.
  - intros. unfold TimelineManager.removeItemFromTrack.
    unfold TimelineManager.getTrack in Htrack. by rewrite Htrack, Hlock.
  - intros. apply moveItem_rejected. eauto 10.
  - intros sourceId itemId newStartFrame opId now Hne Hnonempty.
    destruct (TimelineManager.getTrack tm sourceId) as [source|] eqn:Hsource;
      [|apply moveItem_rejected; eauto].
    apply moveItem_rejected. right. exists source. split; [done|].
    right. right. split.
    + unfold TimelineManager.sameTrack. apply orb_false_intro;
        by apply bool_decide_eq_false.
    + right. exists track. unfold TimelineManager.orTrackId.
      by case_decide.
  - intros. unfold TimelineManager.trimItem.
    unfold TimelineManager.getTrack in Htrack. by rewrite Htrack, Hlock.
  - intros. unfold TimelineManager.splitItem.
    unfold TimelineManager.getTrack in Htrack. by rewrite Htrack, Hlock.
Qed.

(** C6 at the input where the code departs from it. The session ["s1"]
    holds the track ["t1"], which is locked and contains B with [x = 0].
    The request [edit.set_properties] for B with [x = 5] is answered with
    [success: true] and the changed item, and the locked track now holds B
    with [x = 5]: [handleSetProperties] never reads [isLocked]. *)
Theorem set_properties_changes_locked_track :
  let handled := MCPVideoEditingServer.handleSetProperties lockedServer setXRequest in
  let trackOf (srv : MCPVideoEditingServer.t) :=
    session ← MCPVideoEditingServer.getSession srv (Some "s1");
    TimelineManager.getTrack (EditingSession.getTimelineManager session) "t1" in
  (Track.isLocked <$> trackOf lockedServer) = Some true
  ∧ (Track.items <$> trackOf lockedServer) = Some [clip "B" 10 10]
  ∧ handled.2
    = Return (ResponseResult.mk (Some true) None None
                (Some (MediaItem.with_x 5 (clip "B" 10 10))) None)
  ∧ (Track.isLocked <$> trackOf handled.1) = Some true
  ∧ (Track.items <$> trackOf handled.1) = Some [MediaItem.with_x 5 (clip "B" 10 10)]
  ∧ MediaItem.with_x 5 (clip "B" 10 10) ≠ clip "B" 10 10.
Proof.
  intros handled trackOf. split_and!; try reflexivity. discriminate.
Qed.

(** ** The order in which directives complete *)

(** Popping the queue one directive after the other yields the queue. *)
Lemma popAll_queue (fuel : nat) (s : EditingSession.t) :
  length (EditingSession.pendingDirectives s) < fuel →
  (popAll fuel s).1 = EditingSession.pendingDirectives s
  ∧ EditingSession.pendingDirectives (popAll fuel s).2 = [].
Proof.
  revert s. induction fuel as [|fuel IH]; intros s Hfuel; [lia|].
  simpl. unfold EditingSession.getNextDirective.
  destruct (EditingSession.pendingDirectives s) as [|d rest] eqn:Hpending; simpl.
  - by rewrite Hpending.
  - destruct (IH (EditingSession.with_pendingDirectives rest s)) as [Hpopped Hleft];
      [simpl in *; lia|].
    destruct (popAll fuel _) as [ds s']. simpl in *. by rewrite Hpopped.
Qed.

(** The queue after a series of [addDirectives] calls. *)
Lemma addDirectives_all batches : ∀ s l0,
  EditingSession.pendingDirectives s = sortByPriority l0 →
  EditingSession.pendingDirectives (foldl EditingSession.addDirectives s batches)
  = sortByPriority (l0 ++ concat batches).
Proof.
  induction batches as [|batch batches IH]; intros s l0 Hqueue; simpl.
  - by rewrite app_nil_r.
  - rewrite (IH _ (l0 ++ batch)); [by rewrite <- app_assoc|].
    destruct (addDirectives_pending s batch) as [-> _].
    by rewrite Hqueue, sortByPriority_resort.
Qed.

(** C7. A session is created, any series of batches of directives is
    submitted, and [agent.execute_next] is sent once for every directive
    submitted. Every call succeeds and the queue is empty afterwards. The
    completed list names the submitted directives, each once, in an order
    that is ascending in priority and in which the directives of any one
    priority stand as they were submitted. The same holds of the order in
    which [getNextDirective] hands out the directives of any session whose
    queue was empty before the submissions, whatever else the session
    holds. In particular directives with the priorities 3, 1, 2 complete in
    the order 1, 2, 3, and of two directives with the same priority the one
    submitted first completes first. *)
Theorem directives_complete_in_priority_order
    (srv : MCPVideoEditingServer.t) (sessionId : string)
    (batches : list (list EditingDirective.t)) (ids : list string) :
  length ids = length (concat batches) →
  let created := (MCPVideoEditingServer.createSession srv sessionId).1 in
  let submitted := submitAll created sessionId batches in
  let executed := executeMany submitted sessionId ids in
  (∃ session order,
     MCPVideoEditingServer.getSession executed.1 (Some sessionId) = Some session
     ∧ EditingSession.completedDirectives session = EditingDirective.id <$> order
     ∧ EditingSession.pendingDirectives session = []
     ∧ order ≡ₚ concat batches
     ∧ (∀ i j a b, i < j → order !! i = Some a → order !! j = Some b →
                   (EditingDirective.priority a ≤ EditingDirective.priority b)%Z)
     ∧ (∀ p, filter (λ d, EditingDirective.priority d = p) order
             = filter (λ d, EditingDirective.priority d = p) (concat batches))
     ∧ Forall (λ r, ∃ response,
                 r = Return response ∧ ResponseResult.success response = Some true)
         executed.2)
  ∧ (∀ s fuel,
       EditingSession.pendingDirectives s = [] →
       length (concat batches) < fuel →
       let popped := (popAll fuel (foldl EditingSession.addDirectives s batches)).1 in
       popped ≡ₚ concat batches
       ∧ (∀ i j a b, i < j → popped !! i = Some a → popped !! j = Some b →
                     (EditingDirective.priority a ≤ EditingDirective.priority b)%Z)
       ∧ (∀ p, filter (λ d, EditingDirective.priority d = p) popped
               = filter (λ d, EditingDirective.priority d = p) (concat batches)))
  ∧ (let run :=
       executeMany
         (submitAll (MCPVideoEditingServer.createSession srv sessionId).1 sessionId
            [[directive "p3" AddText 3; directive "p1" CutSequence 1;
              directive "p2" ApplyEffect 2]])
         sessionId ["n1"; "n2"; "n3"] in
     EditingSession.completedDirectives
       <$> MCPVideoEditingServer.getSession run.1 (Some sessionId)
     = Some ["p1"; "p2"; "p3"])
  ∧ (let run :=
       executeMany
         (submitAll (MCPVideoEditingServer.createSession srv sessionId).1 sessionId
            [[directive "first" AddText 1]; [directive "second" AddSfx 1]])
         sessionId ["n1"; "n2"] in
     EditingSession.completedDirectives
       <$> MCPVideoEditingServer.getSession run.1 (Some sessionId)
     = Some ["first"; "second"]).
Proof.
  intros Hids created submitted executed.
  assert (∀ batches ids,
            length ids = length (concat batches) →
            ∃ session order,
              MCPVideoEditingServer.getSession
                (executeMany (submitAll created sessionId batches) sessionId ids).1
                (Some sessionId) = Some session
              ∧ EditingSession.completedDirectives session
                = EditingDirective.id <$> order
              ∧ EditingSession.pendingDirectives session = []
              ∧ order = sortByPriority (concat batches)
              ∧ Forall (λ r, ∃ response,
                          r = Return response
                          ∧ ResponseResult.success response = Some true)
                  (executeMany (submitAll created sessionId batches) sessionId ids).2)
    as Hgeneral.
  { clear. intros batches ids Hids.
    destruct (submitAll_spec batches created sessionId (EditingSession.new sessionId) [])
      as (queued & Hqueued & Hpending & Hcompleted & Htimeline);
      [apply get_set_eq|done|].
    assert (length (sortByPriority (concat batches)) = length (concat batches)) as Hlen.
    { apply Permutation_length, sortByPriority_spec. }
    destruct (executeMany_named ids (submitAll created sessionId batches) sessionId queued)
      as (session & Hsession & Hleft & Hdone & Hok & _);
      [done| |rewrite Hpending; simpl; lia|].
    { intros track. unfold EditingSession.getTimelineManager. rewrite Htimeline.
      by intros ?%elem_of_nil. }
    exists session, (sortByPriority (concat batches)).
    rewrite Hpending, Hids in Hleft, Hdone. simpl in Hleft, Hdone.
    rewrite <- Hlen in Hleft, Hdone. rewrite drop_all in Hleft.
    rewrite firstn_all, Hcompleted in Hdone. by split_and!. }
  split; [|split; [|split]].
  - destruct (Hgeneral batches ids Hids)
      as (session & order & Hsession & Hdone & Hleft & -> & Hok).
    exists session, (sortByPriority (concat batches)).
    destruct (sortByPriority_spec (concat batches)) as (Hasc & Hperm & Hstable).
    split_and!; try done. by apply Ascending_lookup.
  - intros s fuel Hempty Hfuel popped. subst popped.
    pose proof (addDirectives_all batches s [] Hempty) as Hqueue. simpl in Hqueue.
    destruct (sortByPriority_spec (concat batches)) as (Hasc & Hperm & Hstable).
    destruct (popAll_queue fuel (foldl EditingSession.addDirectives s batches))
      as [-> _].
    { rewrite Hqueue, (Permutation_length Hperm). done. }
    rewrite Hqueue. split_and!; try done. by apply Ascending_lookup.
  - intros run. subst run. fold created.
    destruct (Hgeneral [[directive "p3" AddText 3; directive "p1" CutSequence 1;
                         directive "p2" ApplyEffect 2]] ["n1"; "n2"; "n3"] eq_refl)
      as (session & order & Hsession & Hdone & _ & -> & _).
    rewrite Hsession. simpl. by rewrite Hdone.
  - intros run. subst run. fold created.
    destruct (Hgeneral [[directive "first" AddText 1]; [directive "second" AddSfx 1]]
                ["n1"; "n2"] eq_refl)
      as (session & order & Hsession & Hdone & _ & -> & _).
    rewrite Hsession. simpl. by rewrite Hdone.
Qed.

(** Three batches, with a tie between the first and the last. *)
Lemma directives_complete_in_priority_order_witness :
  ∃ session order,
    MCPVideoEditingServer.getSession
      (executeMany
         (submitAll
            (MCPVideoEditingServer.createSession MCPVideoEditingServer.new "s1").1
            "s1"
            [[directive "a" AddText 2]; [bgmDirective "b" 1]; [directive "c" AddSfx 2]])
         "s1" ["n1"; "n2"; "n3"]).1
      (Some "s1") = Some session
    ∧ EditingSession.completedDirectives session = EditingDirective.id <$> order
    ∧ order ≡ₚ [directive "a" AddText 2; bgmDirective "b" 1; directive "c" AddSfx 2].
Proof.
  destruct (directives_complete_in_priority_order MCPVideoEditingServer.new "s1"
              [[directive "a" AddText 2]; [bgmDirective "b" 1]; [directive "c" AddSfx 2]]
              ["n1"; "n2"; "n3"] eq_refl)
    as ((session & order & Hsession & Hdone & _ & Hperm & _) & _).
  exists session, order. split; [exact Hsession|]. split; [exact Hdone|exact Hperm].
Defined.

(** ** The status report *)

(** C8 (as amended). A new session reports [idle] with 0 of 0 steps. Each of
    [addDirectives], [addGeneratedAsset] and [markDirectiveCompleted]
    recomputes the report, and the report [getEditingStatus] then returns
    has [currentStep] equal to the number of completed directives,
    [totalSteps] equal to completed plus pending, and the status
    [processing] when the queue is non-empty and [completed] when it is
    empty; [idle] is not reported from then on. After three directives were
    submitted and one was executed the report says step 1 of 3,
    [processing]; after all three were executed it says 3 of 3,
    [completed]. *)
Theorem status_report_after_refresh :
  (∀ sessionId,
     EditingSession.getEditingStatus (EditingSession.new sessionId)
     = EditingStatus.mk sessionId 0 0 Idle "Session created" [] [] [])
  ∧ (∀ s directives, StatusAccurate (EditingSession.addDirectives s directives))
  ∧ (∀ s asset, StatusAccurate (EditingSession.addGeneratedAsset s asset))
  ∧ (∀ s directiveId, StatusAccurate (EditingSession.markDirectiveCompleted s directiveId))
  ∧ (∀ s,
       StatusAccurate s →
       EditingStatus.status (EditingSession.getEditingStatus s) ≠ Idle
       ∧ (EditingStatus.status (EditingSession.getEditingStatus s) = Processing
          ↔ EditingSession.pendingDirectives s ≠ [])
       ∧ (EditingStatus.status (EditingSession.getEditingStatus s) = Completed
          ↔ EditingSession.pendingDirectives s = []))
  ∧ (let submitted :=
       submitAll (MCPVideoEditingServer.createSession MCPVideoEditingServer.new "s1").1
         "s1"
         [[directive "d1" AddText 1; directive "d2" AddSfx 2; directive "d3" AddBgm 3]] in
     let report srv :=
       (λ st, (EditingStatus.currentStep st, EditingStatus.totalSteps st,
               EditingStatus.status st))
         <$> (EditingSession.getEditingStatus
                <$> MCPVideoEditingServer.getSession srv (Some "s1")) in
     report submitted = Some (0, 3, Processing)
     ∧ report (executeMany submitted "s1" ["n1"]).1 = Some (1, 3, Processing)
     ∧ report (executeMany submitted "s1" ["n1"; "n2"; "n3"]).1
       = Some (3, 3, Completed)).
Proof.
  split_and!.
  - done.
  - intros s directives. apply updateEditingStatus_accurate.
  - intros s asset. apply updateEditingStatus_accurate.
  - intros s directiveId. apply updateEditingStatus_accurate.
  - intros s (_ & _ & Hstatus & _). rewrite Hstatus.
    by destruct (EditingSession.pendingDirectives s).
  - intros submitted report. by split_and!.
Qed.

(** The report of a session after one directive was submitted. *)
Lemma status_report_after_refresh_witness :
  let s := EditingSession.addDirectives (EditingSession.new "s1")
             [directive "d1" AddText 1] in
  EditingStatus.status (EditingSession.getEditingStatus s) ≠ Idle
  ∧ (EditingStatus.status (EditingSession.getEditingStatus s) = Processing
     ↔ EditingSession.pendingDirectives s ≠ []).
Proof.
  intros s.
  destruct status_report_after_refresh as (_ & Hadd & _ & _ & Hstatus & _).
  destruct (Hstatus s (Hadd (EditingSession.new "s1") [directive "d1" AddText 1]))
    as (Hidle & Hprocessing & _).
  split; [exact Hidle|exact Hprocessing].
Defined.

(** C8, the claim as stated, fails. Session ["s1"] is created and receives
    one asset through [agent.submit_asset]. No directive was ever
    submitted, yet [agent.get_status] reports [completed], not [idle]:
    [addGeneratedAsset] recomputes the report, and the recomputation knows
    only [processing] and [completed]. *)
Lemma status_is_completed_without_any_directive :
  let session := MCPVideoEditingServer.getSession assetOnlyServer (Some "s1") in
  let answer :=
    (MCPVideoEditingServer.handleGetStatus assetOnlyServer
       (RequestParams.ofSession "s1")).2 in
  EditingSession.pendingDirectives <$> session = Some []
  ∧ EditingSession.completedDirectives <$> session = Some []
  ∧ (∃ response report,
       answer = Return response
       ∧ ResponseResult.editingStatus response = Some report
       ∧ EditingStatus.currentStep report = 0
       ∧ EditingStatus.totalSteps report = 0
       ∧ EditingStatus.status report = Completed
       ∧ EditingStatus.status report ≠ Idle).
Proof.
  intros session answer. split; [done|]. split; [done|].
  eexists _, _. split; [reflexivity|]. by split_and!.
Qed.

(** ** The operation log *)

Lemma last_recordOperation (tm : TimelineManager.t) (operation : EditOperation.t) :
  last (TimelineManager.undoStack (TimelineManager.recordOperation tm operation))
  = Some operation
  ∧ TimelineManager.redoStack (TimelineManager.recordOperation tm operation) = [].
Proof.
  unfold TimelineManager.recordOperation. simpl. split; [|done].
  case_decide; [|apply last_snoc].
  destruct (TimelineManager.undoStack tm) as [|first rest]; simpl in *; [lia|].
  rewrite drop_0. apply last_snoc.
Qed.

(** C9 (as amended). Every successful [addItemToTrack] call puts a new last
    entry on the operation log whose kind is [move] and whose parameters
    carry the action ["add"] and the item as it was added; the entry names
    the track and the item, and the redo stack is emptied. The kind field
    ranges over [cut], [trim], [move], [copy], [delete] and [split], none of
    which is ["add"]. *)
Theorem addItemToTrack_logs_move_with_action_add
    (tm : TimelineManager.t) (trackId : string) (item : MediaItem.t)
    (insertFrame : option Z) (opId : string) (now : Z) :
  (TimelineManager.addItemToTrack tm trackId item insertFrame opId now).2 = true →
  let tm' := (TimelineManager.addItemToTrack tm trackId item insertFrame opId now).1 in
  let added :=
    match insertFrame with
    | Some f => MediaItem.with_startFrame f item
    | None => item
    end in
  (∃ operation,
     last (TimelineManager.undoStack tm') = Some operation
     ∧ EditOperation.type operation = OpMove
     ∧ OperationType_literal (EditOperation.type operation) = "move"
     ∧ EditOperationParameters.action (EditOperation.parameters operation)
       = Some "add"
     ∧ EditOperationParameters.item (EditOperation.parameters operation)
       = Some added
     ∧ EditOperation.id operation = opId
     ∧ EditOperation.trackId operation = trackId
     ∧ EditOperation.itemId operation = MediaItem.id item
     ∧ EditOperation.timestamp operation = now)
  ∧ TimelineManager.redoStack tm' = []
  ∧ ∀ kind : OperationType,
      OperationType_literal kind ∈ ["cut"; "trim"; "move"; "copy"; "delete"; "split"]
      ∧ OperationType_literal kind ≠ "add".
Proof.
  intros Hok tm' added. subst tm' added. revert Hok.
  unfold TimelineManager.addItemToTrack.
  destruct (JsMap.get trackId (TimelineManager.tracks tm)) as [track|]; [|done].
  destruct (Track.isLocked track); [done|]. intros _.
  cbn -[TimelineManager.recordOperation TimelineManager.updateTotalDuration
        TimelineManager.resolveOverlaps JsMap.set].
  match goal with
  | |- context [TimelineManager.recordOperation ?t ?o] =>
    destruct (last_recordOperation t o) as [Hlast Hredo]
  end.
  split; [|split; [exact Hredo|]].
  - eexists. split; [exact Hlast|]. simpl. split_and!; try done.
    by destruct insertFrame.
  - intros []; simpl; split; by apply (bool_decide_unpack _).
Qed.

(** The entry logged for a clip added to the empty track. *)
Lemma addItemToTrack_logs_move_with_action_add_witness :
  ∃ operation,
    last (TimelineManager.undoStack
            (TimelineManager.addItemToTrack oneTrack "t1" (clip "B" 10 10)
               None "op1" 1).1) = Some operation
    ∧ EditOperation.type operation = OpMove
    ∧ EditOperationParameters.action (EditOperation.parameters operation)
      = Some "add".
Proof.
  destruct (addItemToTrack_logs_move_with_action_add oneTrack "t1" (clip "B" 10 10)
              None "op1" 1 eq_refl)
    as ((operation & Hlast & Htype & _ & Haction & _) & _).
  exists operation. split; [exact Hlast|]. split; [exact Htype|exact Haction].
Defined.

(** C9, the claim as stated, fails: the entry logged by a successful
    [addItemToTrack] has kind [move], not ["add"]. *)
Lemma addItemToTrack_kind_is_not_add :
  (TimelineManager.addItemToTrack oneTrack "t1" (clip "B" 10 10) None "op1" 1).2 = true
  ∧ (OperationType_literal ∘ EditOperation.type)
      <$> last (TimelineManager.undoStack
                  (TimelineManager.addItemToTrack oneTrack "t1" (clip "B" 10 10)
                     None "op1" 1).1)
    = Some "move"
  ∧ "move" ≠ "add".
Proof. split; [reflexivity|]. split; [reflexivity|discriminate]. Qed.
(** ** The outcome of [agent.execute_next] *)

(** The bodies of [executeCutSequence], [executeAddSFX], [executeAddText],
    [executeAddTransition] and [executeApplyEffect] are empty: a directive
    of one of these five kinds at the head of the queue is popped and
    completed, and the answer is [success: true]. *)
Lemma executeNext_completes_other_kinds
    (srv : MCPVideoEditingServer.t) (sessionId : string)
    (session : EditingSession.t) (d : EditingDirective.t)
    (rest : list EditingDirective.t) (newId : string) :
  MCPVideoEditingServer.getSession srv (Some sessionId) = Some session →
  EditingSession.pendingDirectives session = d :: rest →
  EditingDirective.type d ≠ AddBgm →
  ∃ session' response,
    MCPVideoEditingServer.handleExecuteNext srv
      (RequestParams.ofSession sessionId) newId
    = (MCPVideoEditingServer.putSession srv (Some sessionId) session',
       Return response)
    ∧ ResponseResult.success response = Some true
    ∧ EditingSession.pendingDirectives session' = rest
    ∧ EditingSession.completedDirectives session'
      = EditingSession.completedDirectives session ++ [EditingDirective.id d]
    ∧ EditingSession.timelineManager session'
      = EditingSession.timelineManager session.
Proof.
  intros Hsession Hpending Hkind.
  unfold MCPVideoEditingServer.handleExecuteNext.
  change (RequestParams.sessionId (RequestParams.ofSession sessionId))
    with (Some sessionId).
  rewrite Hsession. unfold EditingSession.getNextDirective. rewrite Hpending.
  cbn [JsArray.shift]. unfold MCPVideoEditingServer.executeDirective.
  destruct (EditingDirective.type d); try done;
    eexists _, _; (split; [reflexivity|]); by split_and!.
Qed.

(** C10 at the input where the code departs from it. In session ["s1"] the
    one track was created by an [edit.create_track] request without a
    [name], and a music directive that carries an asset is queued. The
    queue is not empty, yet [agent.execute_next] answers [success: false]:
    [executeAddBGM] looks for its track with [t.name.includes('BGM')],
    which throws on the track without a name, and the [catch] of
    [handleExecuteNext] turns that into the answer. The directive has left
    the queue and is not on the completed list, and no track was added. *)
Theorem executeNext_can_drop_a_directive :
  let sessionOf srv := MCPVideoEditingServer.getSession srv (Some "s1") in
  let tracksOf s := TimelineManager.getTracks (EditingSession.getTimelineManager s) in
  let executed :=
    MCPVideoEditingServer.handleExecuteNext namelessServer
      (RequestParams.ofSession "s1") "n1" in
  (λ s, Track.name <$> tracksOf s) <$> sessionOf namelessServer = Some [None]
  ∧ EditingSession.pendingDirectives <$> sessionOf namelessServer
    = Some [bgmDirective "d1" 1]
  ∧ executed.2
    = Return
        (ResponseResult.mk (Some false)
           (Some ("Failed to execute directive: TypeError: "
                    +:+ "Cannot read properties of undefined (reading 'includes')"))
           None None None)
  ∧ EditingSession.pendingDirectives <$> sessionOf executed.1 = Some []
  ∧ EditingSession.completedDirectives <$> sessionOf executed.1 = Some []
  ∧ (λ s, Track.name <$> tracksOf s) <$> sessionOf executed.1 = Some [None].
Proof. by split_and!. Qed.

(** * Further properties of the code *)

(** ** The history stacks *)

Lemma pop_snoc {A} (l : list A) x : JsArray.pop (l ++ [x]) = Some (x, l).
Proof. unfold JsArray.pop. by rewrite reverse_snoc, reverse_involutive. Qed.

Lemma pop_Some {A} (l r : list A) x : JsArray.pop l = Some (x, r) → l = r ++ [x].
Proof.
  unfold JsArray.pop. destruct (reverse l) as [|y t] eqn:Hrev; [done|].
  intros [= -> <-]. apply (inj reverse). by rewrite reverse_snoc, reverse_involutive.
Qed.

Lemma recordOperation_stacks tm operation :
  TimelineManager.redoStack (TimelineManager.recordOperation tm operation) = []
  ∧ (length (TimelineManager.undoStack tm) ≤ 100 →
     length (TimelineManager.undoStack (TimelineManager.recordOperation tm operation))
     ≤ 100).
Proof.
  unfold TimelineManager.recordOperation. simpl. split; [done|]. intros Hlen.
  case_decide as Hc; rewrite ?length_drop, ?length_app in *; simpl in *; lia.
Qed.

(** What an edit does to the state: nothing when it fails; when it
    succeeds, it records an operation on top of the undo stack it found. *)
Lemma edit_stacks c tm :
  isEdit c = true →
  (perform c tm).1 = tm
  ∨ ∃ tm' operation,
      TimelineManager.undoStack tm' = TimelineManager.undoStack tm
      ∧ (perform c tm).2 = true
      ∧ (perform c tm).1 = TimelineManager.recordOperation tm' operation.
Proof.
  destruct c; try discriminate; intros _; simpl.
  - unfold TimelineManager.addItemToTrack.
    repeat case_match;
      first [by left | right; eexists _, _; split_and!; [|done|reflexivity]; reflexivity].
  - unfold TimelineManager.removeItemFromTrack.
    repeat case_match;
      first [by left | right; eexists _, _; split_and!; [|done|reflexivity]; reflexivity].
  - unfold TimelineManager.moveItem.
    repeat case_match; simplify_eq;
      first [by left | right; eexists _, _; split_and!; [|done|reflexivity]; reflexivity].
  - unfold TimelineManager.trimItem.
    repeat case_match;
      first [by left | right; eexists _, _; split_and!; [|done|reflexivity]; reflexivity].
  - unfold TimelineManager.splitItem.
    repeat case_match;
      first [by left | right; eexists _, _; split_and!; [|done|reflexivity]; reflexivity].
Qed.

Lemma with_tracks_same tm : TimelineManager.with_tracks (TimelineManager.tracks tm) tm = tm.
Proof. by destruct tm. Qed.

Lemma perform_history c tm : historySize tm ≤ 100 → historySize (perform c tm).1 ≤ 100.
Proof.
  intros Hsize. destruct (isEdit c) eqn:Hedit.
  - destruct (edit_stacks c tm Hedit) as [->|(tm' & operation & Hundo & _ & ->)]; [done|].
    destruct (recordOperation_stacks tm' operation) as [Hredo Hlen].
    unfold historySize in *. rewrite Hredo. simpl. rewrite Nat.add_0_r.
    apply Hlen. rewrite Hundo. lia.
  - destruct c; try discriminate; simpl.
    + done.
    + unfold TimelineManager.deleteTrack. by destruct (JsMap.delete _ _).
    + unfold TimelineManager.undo.
      destruct (JsArray.pop _) as [[operation rest]|] eqn:Hpop; [|done].
      apply pop_Some in Hpop. unfold historySize in *. simpl.
      rewrite Hpop, !length_app in *. simpl in *. lia.
    + unfold TimelineManager.redo.
      destruct (JsArray.pop _) as [[operation rest]|] eqn:Hpop; [|done].
      apply pop_Some in Hpop. unfold historySize in *. simpl.
      rewrite Hpop, !length_app in *. simpl in *. lia.
Qed.

(** X1. The history is bounded: however many calls are made, the undo
    stack and the redo stack together never hold more than 100
    operations. [recordOperation] drops the oldest entry of a full undo
    stack and empties the redo stack; [undo] and [redo] move one entry from
    one stack to the other. *)
Theorem history_holds_at_most_100_operations
    (calls : list Call) (tm : TimelineManager.t) :
  historySize tm ≤ 100 → historySize (run calls tm) ≤ 100.
Proof.
  revert tm. induction calls as [|c calls IH]; intros tm Hsize; [done|].
  simpl. apply IH. by apply perform_history.
Qed.

(** After the two clips were added, one is undone and a third is added. *)
Lemma history_holds_at_most_100_operations_witness :
  historySize
    (run [Undo; AddItemToTrack "t1" (clip "D" 40 10) None "op3" 3] twoClips) ≤ 100.
Proof.
  apply (history_holds_at_most_100_operations
           [Undo; AddItemToTrack "t1" (clip "D" 40 10) None "op3" 3] twoClips).
  vm_compute. lia.
Defined.

(** X2. [undo] and [redo] are inverse to each other: a [redo] right after a
    successful [undo] succeeds and gives back the state before the [undo],
    and an [undo] right after a successful [redo] gives back the state
    before the [redo]. *)
Theorem undo_and_redo_are_inverse (tm tm' : TimelineManager.t) :
  (TimelineManager.undo tm = (tm', true) → TimelineManager.redo tm' = (tm, true))
  ∧ (TimelineManager.redo tm = (tm', true) → TimelineManager.undo tm' = (tm, true)).
Proof.
  split.
  - unfold TimelineManager.undo.
    destruct (JsArray.pop (TimelineManager.undoStack tm)) as [[operation rest]|] eqn:Hpop;
      [|done].
    intros [= <-]. apply pop_Some in Hpop.
    unfold TimelineManager.redo. simpl. rewrite pop_snoc. simpl.
    rewrite <- Hpop. by destruct tm.
  - unfold TimelineManager.redo.
    destruct (JsArray.pop (TimelineManager.redoStack tm)) as [[operation rest]|] eqn:Hpop;
      [|done].
    intros [= <-]. apply pop_Some in Hpop.
    unfold TimelineManager.undo. simpl. rewrite pop_snoc. simpl.
    rewrite <- Hpop. by destruct tm.
Qed.

(** The last add of the two clips is undone and done again. *)
Lemma undo_and_redo_are_inverse_witness :
  TimelineManager.redo (TimelineManager.undo twoClips).1 = (twoClips, true).
Proof.
  apply (proj1 (undo_and_redo_are_inverse twoClips (TimelineManager.undo twoClips).1)).
  reflexivity.
Defined.

(** X3. A successful edit ([addItemToTrack], [removeItemFromTrack],
    [moveItem], [trimItem] or [splitItem]) empties the redo stack: the
    [redo] that follows returns [false] and changes nothing, whatever had
    been undone before. *)
Theorem successful_edit_clears_redo (c : Call) (tm : TimelineManager.t) :
  isEdit c = true → (perform c tm).2 = true →
  TimelineManager.redoStack (perform c tm).1 = []
  ∧ TimelineManager.redo (perform c tm).1 = ((perform c tm).1, false).
Proof.
  intros Hedit Hok.
  assert (TimelineManager.redoStack (perform c tm).1 = []) as Hredo.
  { destruct (edit_stacks c tm Hedit) as [Hsame|(tm' & operation & _ & _ & ->)].
    - destruct c; try discriminate; simpl in *.
      + unfold TimelineManager.addItemToTrack in *. by repeat case_match.
      + unfold TimelineManager.removeItemFromTrack in *. by repeat case_match.
      + unfold TimelineManager.moveItem in *. by repeat case_match.
      + unfold TimelineManager.trimItem in *. by repeat case_match.
      + unfold TimelineManager.splitItem in *. by repeat case_match.
    - apply recordOperation_stacks. }
  split; [done|]. unfold TimelineManager.redo. by rewrite Hredo.
Qed.

(** The add of C is undone, then D is added: the add of C cannot be done
    again. *)
Lemma successful_edit_clears_redo_witness :
  let undone := (TimelineManager.undo twoClips).1 in
  let c := AddItemToTrack "t1" (clip "D" 40 10) None "op3" 3 in
  length (TimelineManager.redoStack undone) = 1
  ∧ TimelineManager.redoStack (perform c undone).1 = []
  ∧ TimelineManager.redo (perform c undone).1 = ((perform c undone).1, false).
Proof.
  intros undone c. split; [reflexivity|].
  apply (successful_edit_clears_redo c undone); reflexivity.
Defined.

(** X4. A call that returns [false] has changed nothing: the state after it
    is the state before it, for every one of the calls ([deleteTrack] of a
    missing track, an edit that is turned down, [undo] and [redo] on an
    empty stack). *)
Theorem failed_call_changes_nothing (c : Call) (tm : TimelineManager.t) :
  (perform c tm).2 = false → (perform c tm).1 = tm.
Proof.
  destruct c; simpl.
  - done.
  - unfold TimelineManager.deleteTrack, JsMap.delete.
    destruct (list_find _ _) as [[i kv]|]; [done|]. intros _. apply with_tracks_same.
  - unfold TimelineManager.addItemToTrack. by repeat case_match.
  - unfold TimelineManager.removeItemFromTrack. by repeat case_match.
  - unfold TimelineManager.moveItem. by repeat case_match.
  - unfold TimelineManager.trimItem. by repeat case_match.
  - unfold TimelineManager.splitItem. by repeat case_match.
  - unfold TimelineManager.undo. by repeat case_match.
  - unfold TimelineManager.redo. by repeat case_match.
Qed.

(** Splitting B at its own start is turned down. *)
Lemma failed_call_changes_nothing_witness :
  (perform (SplitItem "t1" "B" 10 "B2" "op3" 3) twoClips).1 = twoClips.
Proof.
  apply (failed_call_changes_nothing (SplitItem "t1" "B" 10 "B2" "op3" 3) twoClips).
  reflexivity.
Defined.

(** X5. No call of the timeline moves the playhead or changes the frame
    rate: [currentFrame] and [fps] are the same after any series of
    calls, also when the total duration has dropped below the playhead. *)
Theorem edits_never_move_the_playhead (calls : list Call) (tm : TimelineManager.t) :
  TimelineManager.getCurrentFrame (run calls tm) = TimelineManager.getCurrentFrame tm
  ∧ TimelineManager.fps (run calls tm) = TimelineManager.fps tm.
Proof.
  revert tm. induction calls as [|c calls IH]; intros tm; [done|].
  simpl. destruct (IH (perform c tm).1) as [-> ->].
  destruct c; simpl.
  - done.
  - unfold TimelineManager.deleteTrack. by destruct (JsMap.delete _ _).
  - unfold TimelineManager.addItemToTrack. by repeat case_match.
  - unfold TimelineManager.removeItemFromTrack. by repeat case_match.
  - unfold TimelineManager.moveItem. by repeat case_match.
  - unfold TimelineManager.trimItem. by repeat case_match.
  - unfold TimelineManager.splitItem. by repeat case_match.
  - unfold TimelineManager.undo. by repeat case_match.
  - unfold TimelineManager.redo. by repeat case_match.
Qed.

(** ** The map of tracks: keys, lookups and round trips *)

Section JsMapKeys.
Context {V : Type}.
Implicit Types (m : list (string * V)) (k : string) (v : V).

Lemma find_key_None m k :
  list_find (λ kv, kv.1 = k) m = None ↔ k ∉ JsMap.keys m.
Proof.
  rewrite list_find_None, Forall_forall. unfold JsMap.keys. split.
  - intros Hall ((k' & v) & -> & Hin)%list_elem_of_fmap. by apply (Hall _ Hin).
  - intros Hnot kv Hin Hk. apply Hnot. rewrite <- Hk. by apply list_elem_of_fmap_2.
Qed.

Lemma keys_set m k v :
  JsMap.keys (JsMap.set k v m)
  = if decide (k ∈ JsMap.keys m) then JsMap.keys m else JsMap.keys m ++ [k].
Proof.
  unfold JsMap.set. destruct (list_find _ m) as [[i kv]|] eqn:Hfind.
  - apply find_key_Some in Hfind as (Hk & Hi & _).
    rewrite decide_True.
    + unfold JsMap.keys. rewrite list_fmap_insert. simpl.
      apply list_insert_id. by rewrite list_lookup_fmap, Hi, <- Hk.
    + rewrite <- Hk. apply list_elem_of_fmap_2. by eapply list_elem_of_lookup_2.
  - apply find_key_None in Hfind. rewrite decide_False by done.
    unfold JsMap.keys. by rewrite fmap_app.
Qed.

Lemma NoDup_keys_set m k v : NoDup (JsMap.keys m) → NoDup (JsMap.keys (JsMap.set k v m)).
Proof.
  intros Hnd. rewrite keys_set. case_decide; [done|].
  apply NoDup_app. split_and!; [done| |apply NoDup_singleton].
  by intros x Hx ->%list_elem_of_singleton.
Qed.

Lemma elem_of_set m k v kv :
  kv ∈ JsMap.set k v m → kv = (k, v) ∨ kv ∈ m.
Proof.
  unfold JsMap.set. destruct (list_find _ m) as [[i old]|].
  - intros [j Hj]%list_elem_of_lookup.
    destruct (decide (i = j)) as [->|Hne].
    + destruct (decide (j < length m)).
      * rewrite list_lookup_insert_eq in Hj by done. left. by injection Hj.
      * rewrite list_insert_ge in Hj by lia. right. by eapply list_elem_of_lookup_2.
    + rewrite list_lookup_insert_ne in Hj by done.
      right. by eapply list_elem_of_lookup_2.
  - intros [?|?%list_elem_of_singleton]%elem_of_app; auto.
Qed.

Lemma get_Some_elem m k v : JsMap.get k m = Some v → (k, v) ∈ m.
Proof.
  unfold JsMap.get. destruct (list_find _ m) as [[i [k' v']]|] eqn:Hfind; [|done].
  intros [= ->]. apply find_key_Some in Hfind as (Hk & Hi & _). simpl in Hk. subst k'.
  by eapply list_elem_of_lookup_2.
Qed.

Lemma get_None m k : JsMap.get k m = None ↔ k ∉ JsMap.keys m.
Proof.
  rewrite <- find_key_None. unfold JsMap.get.
  destruct (list_find _ m) as [[i kv]|]; naive_solver.
Qed.

Lemma elem_get m k v : NoDup (JsMap.keys m) → (k, v) ∈ m → JsMap.get k m = Some v.
Proof.
  intros Hnd [j Hj]%list_elem_of_lookup. unfold JsMap.get.
  destruct (list_find (λ kv, kv.1 = k) m) as [[i [k' v']]|] eqn:Hfind.
  - apply find_key_Some in Hfind as (Hk & Hi & _). simpl in Hk. subst k'.
    assert (i = j) as ->; [|by simplify_eq].
    apply (NoDup_lookup (JsMap.keys m) i j k Hnd);
      unfold JsMap.keys; rewrite list_lookup_fmap; [by rewrite Hi|by rewrite Hj].
  - rewrite list_find_None, Forall_forall in Hfind.
    destruct (Hfind (k, v)); [by eapply list_elem_of_lookup_2|done].
Qed.

Lemma get_elem_iff m k v : NoDup (JsMap.keys m) → JsMap.get k m = Some v ↔ (k, v) ∈ m.
Proof. intros Hnd. split; [apply get_Some_elem|by apply elem_get]. Qed.

Lemma get_ext m m' k :
  NoDup (JsMap.keys m) → NoDup (JsMap.keys m') →
  (∀ v, (k, v) ∈ m ↔ (k, v) ∈ m') → JsMap.get k m = JsMap.get k m'.
Proof.
  intros Hnd Hnd' Hiff. apply option_eq. intros v.
  by rewrite !get_elem_iff, Hiff.
Qed.

Lemma delete_found m k :
  is_Some (JsMap.get k m) →
  ∃ i kv, m !! i = Some kv ∧ kv.1 = k ∧ JsMap.delete k m = (delete i m, true).
Proof.
  unfold JsMap.get, JsMap.delete.
  destruct (list_find _ m) as [[i kv]|] eqn:Hfind; [|by intros [? ?]].
  intros _. apply find_key_Some in Hfind as (Hk & Hi & _). eauto.
Qed.

Lemma delete_missing m k : JsMap.get k m = None → JsMap.delete k m = (m, false).
Proof.
  unfold JsMap.get, JsMap.delete. by destruct (list_find _ m) as [[i kv]|].
Qed.

Lemma NoDup_keys_delete m i : NoDup (JsMap.keys m) → NoDup (JsMap.keys (delete i m)).
Proof.
  unfold JsMap.keys. rewrite list_fmap_delete.
  intros Hnd. eapply sublist_NoDup; [done|apply sublist_delete].
Qed.

Lemma elem_of_delete_key m i kv k' v :
  NoDup (JsMap.keys m) → m !! i = Some kv →
  (k', v) ∈ delete i m ↔ (k', v) ∈ m ∧ k' ≠ kv.1.
Proof.
  intros Hnd Hi. split.
  - intros [j Hj]%list_elem_of_lookup. rewrite list_lookup_delete in Hj.
    split; [by eapply list_elem_of_lookup_2|]. intros ->.
    assert (i = (if decide (j < i) then j else S j)) as Heq.
    { apply (NoDup_lookup (JsMap.keys m) _ _ kv.1 Hnd);
        unfold JsMap.keys; rewrite list_lookup_fmap; [by rewrite Hi|by rewrite Hj]. }
    case_decide; lia.
  - intros [[j Hj]%list_elem_of_lookup Hne].
    assert (j ≠ i) by (intros ->; by simplify_eq).
    apply list_elem_of_lookup.
    destruct (decide (j < i)).
    + exists j. rewrite list_lookup_delete. by rewrite decide_True.
    + exists (pred j). rewrite list_lookup_delete, decide_False by lia.
      by replace (S (pred j)) with j by lia.
Qed.

End JsMapKeys.

Lemma WellKeyedMap_set m k track :
  WellKeyedMap m → Track.id track = k → WellKeyedMap (JsMap.set k track m).
Proof.
  intros [Hnd Hids] Hid. split; [by apply NoDup_keys_set|].
  apply Forall_forall. intros kv [->|Hin]%elem_of_set; [done|].
  rewrite Forall_forall in Hids. by apply Hids.
Qed.

Lemma WellKeyedMap_get m k track :
  WellKeyedMap m → JsMap.get k m = Some track → Track.id track = k.
Proof.
  intros [_ Hids] Hin%get_Some_elem. rewrite Forall_forall in Hids.
  symmetry. exact (Hids _ Hin).
Qed.

Lemma WellKeyedMap_delete m k : WellKeyedMap m → WellKeyedMap (JsMap.delete k m).1.
Proof.
  intros [Hnd Hids]. unfold JsMap.delete.
  destruct (list_find _ m) as [[i kv]|]; [|done]. simpl. split.
  - by apply NoDup_keys_delete.
  - rewrite Forall_forall in *. intros kv' Hin. apply Hids.
    by eapply list_elem_of_delete_inv.
Qed.

Lemma perform_well_keyed c tm : WellKeyed tm → WellKeyed (perform c tm).1.
Proof.
  unfold WellKeyed. intros Hwk.
  assert (∀ k track, JsMap.get k (TimelineManager.tracks tm) = Some track →
                     Track.id track = k) as Hget
    by (intros; by eapply WellKeyedMap_get).
  destruct c; simpl.
  - by apply WellKeyedMap_set.
  - unfold TimelineManager.deleteTrack.
    pose proof (WellKeyedMap_delete _ trackId Hwk).
    by destruct (JsMap.delete _ _).
  - unfold TimelineManager.addItemToTrack. repeat case_match; try done; simpl.
    all: apply WellKeyedMap_set; [done|]; simpl; eauto.
  - unfold TimelineManager.removeItemFromTrack. repeat case_match; try done; simpl.
    all: apply WellKeyedMap_set; [done|]; simpl; eauto.
  - unfold TimelineManager.moveItem. repeat case_match; simplify_eq; try done; simpl.
    all: repeat (apply WellKeyedMap_set; [|simpl; eauto]); done.
  - unfold TimelineManager.trimItem. repeat case_match; try done; simpl.
    all: apply WellKeyedMap_set; [done|]; simpl; eauto.
  - unfold TimelineManager.splitItem. repeat case_match; try done; simpl.
    all: apply WellKeyedMap_set; [done|]; simpl; eauto.
  - by destruct (undo_keeps_timeline tm) as [-> _].
  - by destruct (redo_keeps_timeline tm) as [-> _].
Qed.

(** What [import] makes of the tracks of the data. *)
Lemma import_tracks (acc : list (string * Track.t)) (l : list Track.t) :
  NoDup (JsMap.keys acc ++ (Track.id <$> l)) →
  foldl (λ m track, JsMap.set (Track.id track) track m) acc l
  = acc ++ ((λ track, (Track.id track, track)) <$> l).
Proof.
  revert acc. induction l as [|track l IH]; intros acc Hnd; simpl.
  - by rewrite app_nil_r.
  - assert (JsMap.set (Track.id track) track acc = acc ++ [(Track.id track, track)]) as ->.
    { unfold JsMap.set.
      destruct (list_find _ acc) as [[i kv]|] eqn:Hfind; [|done].
      apply find_key_Some in Hfind as (Hk & Hi & _).
      apply NoDup_app in Hnd as (_ & Hdisj & _). destruct (Hdisj (Track.id track)).
      - rewrite <- Hk. apply list_elem_of_fmap_2. by eapply list_elem_of_lookup_2.
      - simpl. left. }
    rewrite IH.
    + by rewrite <- app_assoc.
    + unfold JsMap.keys in *. rewrite fmap_app, <- app_assoc. done.
Qed.

Lemma import_well_keyed tm data : WellKeyed (TimelineManager.import tm data).
Proof.
  unfold WellKeyed, TimelineManager.import. simpl.
  assert (∀ l acc, WellKeyedMap acc →
            WellKeyedMap
              (foldl (λ m track, JsMap.set (Track.id track) track m) acc l)) as Hfold.
  { induction l as [|track l IH]; intros acc Hacc; [done|].
    simpl. apply IH. by apply WellKeyedMap_set. }
  apply Hfold. split; [apply NoDup_nil_2|apply Forall_nil_2].
Qed.

Lemma keys_are_ids m : WellKeyedMap m → Track.id <$> JsMap.values m = JsMap.keys m.
Proof.
  intros [_ Hids]. unfold JsMap.values, JsMap.keys. rewrite <- list_fmap_compose.
  symmetry. apply Forall_fmap_ext. by rewrite Forall_forall in *.
Qed.

Lemma run_well_keyed calls tm : WellKeyed tm → WellKeyed (run calls tm).
Proof.
  revert tm. induction calls as [|c calls IH]; intros tm Hwk; [done|].
  simpl. apply IH. by apply perform_well_keyed.
Qed.

Lemma new_well_keyed fps : WellKeyed (TimelineManager.new fps).
Proof. split; [apply NoDup_nil_2|apply Forall_nil_2]. Qed.

Lemma twoClips_well_keyed : WellKeyed twoClips.
Proof. apply run_well_keyed, run_well_keyed, new_well_keyed. Qed.

(** X6. Every track stays stored under its own identifier: after any
    series of calls on a timeline whose map has that shape (the empty
    timeline and every imported one have it), [getTrack(id)] returns a
    track whose [id] is [id], and [getTracks()] lists no identifier
    twice. *)
Theorem tracks_stay_stored_under_their_ids (calls : list Call) (tm : TimelineManager.t) :
  WellKeyed tm →
  WellKeyed (run calls tm)
  ∧ (∀ trackId track,
       TimelineManager.getTrack (run calls tm) trackId = Some track →
       Track.id track = trackId)
  ∧ NoDup (Track.id <$> TimelineManager.getTracks (run calls tm)).
Proof.
  intros Hwk. pose proof (run_well_keyed calls tm Hwk) as Hrun.
  split; [done|]. split.
  - intros trackId track. by apply WellKeyedMap_get.
  - unfold TimelineManager.getTracks. rewrite keys_are_ids by done. apply Hrun.
Qed.

(** The empty timeline, a track, an item, and the track deleted again. *)
Lemma tracks_stay_stored_under_their_ids_witness :
  let tm :=
    run [CreateTrack (Some "Video Track") (Some TVideo) "t1";
         AddItemToTrack "t1" (clip "B" 10 10) None "op1" 1;
         CreateTrack (Some "Music") (Some TAudio) "t2";
         DeleteTrack "t1"] (TimelineManager.new 30) in
  WellKeyed tm
  ∧ (∀ trackId track,
       TimelineManager.getTrack tm trackId = Some track → Track.id track = trackId)
  ∧ NoDup (Track.id <$> TimelineManager.getTracks tm).
Proof.
  apply (tracks_stay_stored_under_their_ids
           [CreateTrack (Some "Video Track") (Some TVideo) "t1";
            AddItemToTrack "t1" (clip "B" 10 10) None "op1" 1;
            CreateTrack (Some "Music") (Some TAudio) "t2";
            DeleteTrack "t1"] (TimelineManager.new 30)).
  apply new_well_keyed.
Defined.

(** X7. [import] restores what [export] wrote: importing the exported data
    of a timeline (tracks stored under their identifiers, frame rate not
    0) into any timeline gives the tracks in their order, the playhead,
    the total duration and the frame rate of the exported one; the two
    history stacks of the importing timeline stay as they are. *)
Theorem import_restores_an_exported_timeline (tm tm0 : TimelineManager.t) :
  WellKeyed tm → TimelineManager.fps tm ≠ 0%Z →
  TimelineManager.import tm0 (TimelineManager.export tm)
  = TimelineManager.mk (TimelineManager.tracks tm) (TimelineManager.currentFrame tm)
      (TimelineManager.totalDuration tm) (TimelineManager.fps tm)
      (TimelineManager.undoStack tm0) (TimelineManager.redoStack tm0).
Proof.
  intros Hwk Hfps. unfold TimelineManager.import, TimelineManager.export. simpl.
  rewrite decide_False by done. f_equal.
  rewrite import_tracks.
  - simpl. unfold JsMap.values. rewrite <- list_fmap_compose.
    rewrite <- (list_fmap_id (TimelineManager.tracks tm)) at 2.
    apply Forall_fmap_ext. destruct Hwk as [_ Hids]. rewrite Forall_forall in *.
    intros [k track] Hin. simpl. f_equal. symmetry. exact (Hids _ Hin).
  - simpl. rewrite keys_are_ids by done. apply Hwk.
Qed.

(** The timeline with the two clips, exported and imported into itself. *)
Lemma import_restores_an_exported_timeline_witness :
  TimelineManager.import twoClips (TimelineManager.export twoClips) = twoClips.
Proof.
  apply (import_restores_an_exported_timeline twoClips twoClips).
  - exact twoClips_well_keyed.
  - vm_compute. discriminate.
Defined.

(** X8. [export] returns what [import] was given: when no two tracks of the
    data share an identifier, the export of the importing timeline is the
    data, except that a frame rate of 0 has become 30. The total duration
    is taken from the data as it is, not recomputed. *)
Theorem export_returns_imported_data (tm : TimelineManager.t)
    (data : TimelineManager.TimelineExportData) :
  NoDup (Track.id <$> TimelineManager.data_tracks data) →
  TimelineManager.export (TimelineManager.import tm data)
  = TimelineManager.mkExport
      (TimelineManager.data_tracks data)
      (TimelineManager.data_currentFrame data)
      (TimelineManager.data_totalDuration data)
      (if decide (TimelineManager.data_fps data = 0%Z) then 30%Z
       else TimelineManager.data_fps data).
Proof.
  intros Hnd. unfold TimelineManager.import, TimelineManager.export. simpl.
  f_equal. rewrite import_tracks by done. simpl.
  unfold JsMap.values. rewrite <- list_fmap_compose. apply list_fmap_id.
Qed.

(** The data with the locked track and no frame rate. *)
Lemma export_returns_imported_data_witness :
  TimelineManager.export
    (TimelineManager.import twoClips (TimelineManager.mkExport [lockedTrack] 5 20 0))
  = TimelineManager.mkExport [lockedTrack] 5 20 30.
Proof.
  apply (export_returns_imported_data twoClips
           (TimelineManager.mkExport [lockedTrack] 5 20 0)).
  vm_compute. apply NoDup_singleton.
Defined.

Lemma createTrack_appends tm name type newId :
  TimelineManager.getTrack tm newId = None →
  TimelineManager.getTracks (TimelineManager.createTrack tm name type newId).1
  = TimelineManager.getTracks tm
    ++ [(TimelineManager.createTrack tm name type newId).2].
Proof.
  unfold TimelineManager.getTrack, JsMap.get, TimelineManager.getTracks, JsMap.values.
  simpl. unfold JsMap.set.
  destruct (list_find _ _) as [[i kv]|]; [done|]. intros _.
  by rewrite fmap_app.
Qed.

(** X9. [createTrack] followed by [getTrack]: the new identifier leads to
    the track just created, which is empty, unlocked and visible and has
    volume 1 exactly when it is an audio track; every other identifier
    leads to what it led to before; and when the identifier was not in
    use, [getTracks()] is the former list with the new track at its
    end. *)
Theorem createTrack_then_getTrack (tm : TimelineManager.t) (name : option string)
    (type : option TrackType) (newId : string) :
  let tm' := (TimelineManager.createTrack tm name type newId).1 in
  let track := (TimelineManager.createTrack tm name type newId).2 in
  TimelineManager.getTrack tm' newId = Some track
  ∧ track = Track.mk newId name type [] false true
              (if decide (type = Some TAudio) then Some 1%Q else None)
  ∧ (∀ trackId, trackId ≠ newId →
       TimelineManager.getTrack tm' trackId = TimelineManager.getTrack tm trackId)
  ∧ (TimelineManager.getTrack tm newId = None →
     TimelineManager.getTracks tm' = TimelineManager.getTracks tm ++ [track]).
Proof.
  intros tm' track. unfold TimelineManager.getTrack. simpl. split_and!.
  - apply get_set_eq.
  - done.
  - intros trackId Hne. by apply get_set_ne.
  - apply createTrack_appends.
Qed.

Lemma filter_all {A} (P : A → Prop) `{∀ x, Decision (P x)} (l : list A) :
  Forall P l → filter P l = l.
Proof.
  induction 1 as [|x l Hx Hl IH]; [done|]. rewrite filter_cons_True by done. by f_equal.
Qed.

Lemma filter_delete_key {V} (m : list (string * V)) i kv :
  NoDup (JsMap.keys m) → m !! i = Some kv →
  delete i m = filter (λ kv', kv'.1 ≠ kv.1) m.
Proof.
  revert i. induction m as [|[k v] m IH]; intros i Hnd Hi; [done|].
  unfold JsMap.keys in Hnd. simpl in Hnd. apply NoDup_cons in Hnd as [Hnotin Hnd].
  destruct i as [|i]; simpl in *.
  - simplify_eq. rewrite filter_cons_False by (simpl; by intros []).
    symmetry. apply filter_all. apply Forall_forall. intros [k' v'] Hin. simpl.
    intros ->. apply Hnotin. by apply (list_elem_of_fmap_2 fst _ (k, v')).
  - rewrite filter_cons_True.
    + f_equal. by apply IH.
    + simpl. intros ->. apply Hnotin.
      apply (list_elem_of_fmap_2 fst _ kv). by eapply list_elem_of_lookup_2.
Qed.

(** X10. [deleteTrack] followed by [getTrack], on a timeline whose tracks
    are stored under their identifiers: the call returns [true] exactly
    when the track existed; afterwards its identifier leads to nothing,
    every other identifier leads to what it led to before, and
    [getTracks()] is the former list without the track, in the same
    order. *)
Theorem deleteTrack_then_getTrack (tm : TimelineManager.t) (trackId : string) :
  WellKeyed tm →
  let tm' := (TimelineManager.deleteTrack tm trackId).1 in
  ((TimelineManager.deleteTrack tm trackId).2 = true
   ↔ is_Some (TimelineManager.getTrack tm trackId))
  ∧ TimelineManager.getTrack tm' trackId = None
  ∧ (∀ other, other ≠ trackId →
       TimelineManager.getTrack tm' other = TimelineManager.getTrack tm other)
  ∧ TimelineManager.getTracks tm'
    = filter (λ track, Track.id track ≠ trackId) (TimelineManager.getTracks tm).
Proof.
  intros [Hnd Hids] tm'. subst tm'.
  unfold TimelineManager.deleteTrack, TimelineManager.getTrack, TimelineManager.getTracks.
  destruct (JsMap.get trackId (TimelineManager.tracks tm)) as [track|] eqn:Hget.
  - destruct (delete_found (TimelineManager.tracks tm) trackId) as (i & kv & Hi & Hk & ->);
      [by rewrite Hget|].
    simpl. pose proof (NoDup_keys_delete _ i Hnd) as Hnd'.
    assert (∀ k' v, (k', v) ∈ delete i (TimelineManager.tracks tm)
                    ↔ (k', v) ∈ TimelineManager.tracks tm ∧ k' ≠ trackId) as Helem.
    { intros k' v. rewrite <- Hk. by apply elem_of_delete_key. }
    split_and!.
    + done.
    + apply get_None. intros ((k' & v) & -> & Hin)%list_elem_of_fmap.
      apply Helem in Hin as [_ Hne]. done.
    + intros other Hne. apply get_ext; [done..|]. intros v. rewrite Helem. split; [by intros [? _]|by intros ?].
    + rewrite (filter_delete_key _ i kv) by done. unfold JsMap.values.
      rewrite Hk. clear -Hids. induction Hids as [|[k v] m Hkv Hids IH]; [done|].
      simpl in *. rewrite !filter_cons. simpl. rewrite <- Hkv.
      case_decide; csimpl; by rewrite IH.
  - rewrite delete_missing by done. simpl. split_and!.
    + split; [done|by intros [? ?]].
    + done.
    + done.
    + unfold JsMap.values. symmetry. apply filter_all.
      apply Forall_forall. intros track [[k v] [-> Hin]]%list_elem_of_fmap. simpl.
      rewrite Forall_forall in Hids. pose proof (Hids _ Hin) as Hkv. simpl in Hkv.
      rewrite <- Hkv. intros ->.
      apply get_None in Hget. apply Hget.
      by apply (list_elem_of_fmap_2 fst _ (trackId, v)).
Qed.

(** The track of the two clips is deleted. *)
Lemma deleteTrack_then_getTrack_witness :
  let tm' := (TimelineManager.deleteTrack twoClips "t1").1 in
  ((TimelineManager.deleteTrack twoClips "t1").2 = true
   ↔ is_Some (TimelineManager.getTrack twoClips "t1"))
  ∧ TimelineManager.getTrack tm' "t1" = None
  ∧ (∀ other, other ≠ "t1" →
       TimelineManager.getTrack tm' other = TimelineManager.getTrack twoClips other)
  ∧ TimelineManager.getTracks tm'
    = filter (λ track, Track.id track ≠ "t1") (TimelineManager.getTracks twoClips).
Proof.
  apply (deleteTrack_then_getTrack twoClips "t1"). exact twoClips_well_keyed.
Defined.

(** ** The durations of the items *)

Lemma resolveOne_positive newItem item :
  (1 ≤ MediaItem.durationInFrames item)%Z →
  (1 ≤ MediaItem.durationInFrames (resolveOne newItem item))%Z.
Proof. unfold resolveOne. repeat case_match; simpl; lia. Qed.

Lemma PositiveItems_resolve newItem items :
  PositiveItems items → PositiveItems (resolveOne newItem <$> items).
Proof.
  unfold PositiveItems. rewrite Forall_fmap. intros Hall.
  eapply Forall_impl; [done|]. intros item. apply resolveOne_positive.
Qed.

Lemma get_value {V} (m : list (string * V)) k v :
  JsMap.get k m = Some v → v ∈ JsMap.values m.
Proof. intros Hin%get_Some_elem. by apply (list_elem_of_fmap_2 snd _ (k, v)). Qed.

Lemma positive_set (m : list (string * Track.t)) k track :
  Forall (λ track, PositiveItems (Track.items track)) (JsMap.values m) →
  PositiveItems (Track.items track) →
  Forall (λ track, PositiveItems (Track.items track)) (JsMap.values (JsMap.set k track m)).
Proof.
  rewrite !Forall_forall. intros Hall Htrack x [->|Hx]%values_set_elem; auto.
Qed.

Lemma perform_positive c tm :
  AddsPositive c → PositiveDurations tm → PositiveDurations (perform c tm).1.
Proof.
  unfold PositiveDurations, TimelineManager.getTracks. intros Hadd Hpos.
  assert (∀ k track, JsMap.get k (TimelineManager.tracks tm) = Some track →
                     PositiveItems (Track.items track)) as Hget.
  { intros k track Hin%get_value. rewrite Forall_forall in Hpos. by apply Hpos. }
  destruct c; simpl in *.
  - apply positive_set; [done|]. apply Forall_nil_2.
  - unfold TimelineManager.deleteTrack, JsMap.delete.
    destruct (list_find _ _) as [[i kv]|]; [|done]. simpl.
    unfold JsMap.values. rewrite list_fmap_delete. by apply Forall_delete.
  - unfold TimelineManager.addItemToTrack.
    destruct (JsMap.get _ _) as [track|] eqn:Htrack; [|done].
    destruct (Track.isLocked track); [done|].
    cbn -[TimelineManager.resolveOverlaps JsMap.set].
    apply positive_set; [done|]. cbn -[TimelineManager.resolveOverlaps].
    rewrite resolveOverlaps_items.
    apply Forall_app. split; [apply PositiveItems_resolve; exact (Hget _ _ Htrack)|].
    apply Forall_singleton. by destruct insertFrame.
  - unfold TimelineManager.removeItemFromTrack.
    destruct (JsMap.get _ _) as [track|] eqn:Htrack; [|done].
    destruct (Track.isLocked track); [done|].
    destruct (TimelineManager.findItem _ _) as [[i item]|]; [|done]. simpl.
    apply positive_set; [done|]. simpl. apply Forall_delete. exact (Hget _ _ Htrack).
  - unfold TimelineManager.moveItem.
    destruct (JsMap.get _ _) as [source|] eqn:Hsource; [|done].
    destruct (Track.isLocked source); [done|].
    destruct (TimelineManager.findItem _ _) as [[i item]|] eqn:Hfind; [|done].
    apply findItem_Some in Hfind as [Hi _].
    assert (1 ≤ MediaItem.durationInFrames item)%Z as Hitem.
    { pose proof (Hget _ _ Hsource) as Hall. unfold PositiveItems in Hall.
      rewrite Forall_forall in Hall. apply Hall. by eapply list_elem_of_lookup_2. }
    destruct (TimelineManager.sameTrack _ _).
    + cbn -[TimelineManager.resolveOverlaps JsMap.set].
      apply positive_set; [done|]. rewrite resolveOverlaps_items. simpl.
      apply PositiveItems_resolve, Forall_insert; [exact (Hget _ _ Hsource)|done].
    + destruct (JsMap.get (TimelineManager.orTrackId _ _) _) as [target|] eqn:Htarget;
        [|done].
      destruct (Track.isLocked target); [done|].
      cbn -[TimelineManager.resolveOverlaps JsMap.set].
      apply positive_set; [apply positive_set; [done|]|].
      * simpl. apply Forall_delete. exact (Hget _ _ Hsource).
      * cbn -[TimelineManager.resolveOverlaps]. rewrite resolveOverlaps_items.
        apply Forall_app. split; [apply PositiveItems_resolve; exact (Hget _ _ Htarget)|].
        by apply Forall_singleton.
  - unfold TimelineManager.trimItem.
    destruct (JsMap.get _ _) as [track|] eqn:Htrack; [|done].
    destruct (Track.isLocked track); [done|].
    destruct (TimelineManager.findItem _ _) as [[i item]|] eqn:Hfind; [|done].
    apply findItem_Some in Hfind as [Hi _].
    assert (1 ≤ MediaItem.durationInFrames item)%Z as Hitem.
    { pose proof (Hget _ _ Htrack) as Hall. unfold PositiveItems in Hall.
      rewrite Forall_forall in Hall. apply Hall. by eapply list_elem_of_lookup_2. }
    simpl. apply positive_set; [done|]. simpl.
    apply Forall_insert; [exact (Hget _ _ Htrack)|]. destruct trimStart, trimEnd; simpl; lia.
  - unfold TimelineManager.splitItem.
    destruct (JsMap.get _ _) as [track|] eqn:Htrack; [|done].
    destruct (Track.isLocked track); [done|].
    destruct (TimelineManager.findItem _ _) as [[i item]|] eqn:Hfind; [|done].
    destruct (Z.leb_spec (splitFrame - MediaItem.startFrame item) 0),
      (Z.geb_spec (splitFrame - MediaItem.startFrame item)
         (MediaItem.durationInFrames item)); simpl; try done.
    apply positive_set; [done|]. simpl.
    apply Forall_app. split; [apply Forall_insert; [exact (Hget _ _ Htrack)|simpl; lia]|].
    apply Forall_singleton. simpl. lia.
  - by destruct (undo_keeps_timeline tm) as [-> _].
  - by destruct (redo_keeps_timeline tm) as [-> _].
Qed.

(** What the integer frames keep out. The track ["t1"] holds B on
    [[10,20)] and C on [[40,50)], and [moveItem("t1", "B", undefined)] is
    what [handleMoveClip] calls when the request has no [newStartFrame].
    The call returns [true]. B has no start any more, the resolver takes C
    for overlapping, since every comparison with [NaN] fails, and writes
    [Math.max(1, NaN)], which is [NaN], into the duration of C; the total
    duration is [NaN] as well. *)
Lemma moveItem_without_start_frame :
  let tm := looseTimeline spacedClips in
  let moved :=
    Loose.TimelineManager.moveItem tm "t1" "B" Loose.Frame.Undefined None "op3" 3 in
  Loose.Track.items <$> Loose.TimelineManager.getTrack tm "t1"
  = Some [looseClip "B" (Loose.Frame.Int 10) (Loose.Frame.Int 10);
          looseClip "C" (Loose.Frame.Int 40) (Loose.Frame.Int 10)]
  ∧ moved.2 = true
  ∧ Loose.Track.items <$> Loose.TimelineManager.getTrack moved.1 "t1"
    = Some [looseClip "B" Loose.Frame.Undefined (Loose.Frame.Int 10);
            looseClip "C" (Loose.Frame.Int 40) Loose.Frame.NaN]
  ∧ Loose.TimelineManager.getTotalDuration moved.1 = Loose.Frame.NaN.
Proof. by split_and!. Qed.

(** X11. Durations stay positive on integer frames: when every item lasts
    at least one frame and every added item does, the same holds after any
    series of calls whose frame arguments are integers, as those of [Call]
    are. The overlap resolver and [trimItem] never cut an item below one
    frame, and [splitItem] only splits strictly inside an item. A
    [moveItem] without a start frame is another matter
    ([moveItem_without_start_frame]). *)
Theorem durations_stay_positive (calls : list Call) (tm : TimelineManager.t) :
  PositiveDurations tm → Forall AddsPositive calls → PositiveDurations (run calls tm).
Proof.
  revert tm. induction calls as [|c calls IH]; intros tm Hpos Hadds; [done|].
  apply Forall_cons in Hadds as [Hadd Hadds].
  simpl. apply IH; [|done]. by apply perform_positive.
Qed.

(** A is added over the end of B, which the resolver trims; a later trim
    cuts A down to one frame. *)
Lemma durations_stay_positive_witness :
  PositiveDurations
    (run [CreateTrack (Some "Video Track") (Some TVideo) "t1";
          AddItemToTrack "t1" (clip "B" 10 10) None "op1" 1;
          AddItemToTrack "t1" (clip "A" 12 10) None "op2" 2;
          TrimItem "t1" "A" (Some 40%Z) None "op3" 3] (TimelineManager.new 30)).
Proof.
  apply (durations_stay_positive
           [CreateTrack (Some "Video Track") (Some TVideo) "t1";
            AddItemToTrack "t1" (clip "B" 10 10) None "op1" 1;
            AddItemToTrack "t1" (clip "A" 12 10) None "op2" 2;
            TrimItem "t1" "A" (Some 40%Z) None "op3" 3] (TimelineManager.new 30)).
  - apply Forall_nil_2.
  - repeat constructor; simpl; lia.
Defined.

(** ** The items under the playhead *)

(** [getActiveItems] walks the visible tracks and keeps the items that
    occupy the current frame. *)
Lemma getActiveItems_filter (tm : TimelineManager.t) :
  TimelineManager.getActiveItems tm
  = mjoin ((λ track,
              filter (λ item, occupies item (TimelineManager.currentFrame tm))
                     (Track.items track))
             <$> filter (λ track, Track.isVisible track = true)
                        (TimelineManager.getTracks tm)).
Proof.
  unfold TimelineManager.getActiveItems, TimelineManager.getTracks.
  set (frame := TimelineManager.currentFrame tm).
  assert (∀ items acc,
            foldl (λ activeItems item,
                     if (frame >=? MediaItem.startFrame item)%Z
                        && (frame <? MediaItem.endFrame item)%Z
                     then activeItems ++ [item] else activeItems) acc items
            = acc ++ filter (λ item, occupies item frame) items) as Hinner.
  { induction items as [|item items IH]; intros acc; simpl.
    - by rewrite app_nil_r.
    - rewrite IH, filter_cons. unfold occupies at 2.
      destruct (Z.geb_spec frame (MediaItem.startFrame item)),
        (Z.ltb_spec frame (MediaItem.endFrame item)); simpl;
        case_decide; try lia; by rewrite <- ?app_assoc. }
  assert (∀ tracks acc,
            foldl (λ activeItems track,
                     if negb (Track.isVisible track) then activeItems
                     else
                       foldl (λ activeItems item,
                                if (frame >=? MediaItem.startFrame item)%Z
                                   && (frame <? MediaItem.endFrame item)%Z
                                then activeItems ++ [item] else activeItems)
                             activeItems (Track.items track))
                  acc tracks
            = acc ++ mjoin ((λ track, filter (λ item, occupies item frame)
                                             (Track.items track))
                              <$> filter (λ track, Track.isVisible track = true) tracks))
    as Houter.
  { induction tracks as [|track tracks IH]; intros acc; cbn [foldl].
    - by rewrite app_nil_r.
    - rewrite filter_cons. destruct (Track.isVisible track); cbn [negb].
      + rewrite Hinner, IH. rewrite decide_True by done. csimpl.
        by rewrite <- app_assoc.
      + rewrite IH. by rewrite decide_False by done. }
  apply Houter.
Qed.

Lemma NonOverlapping_tail item items :
  NonOverlapping (item :: items) → NonOverlapping items.
Proof.
  intros Hno i j a b Hij Ha Hb. apply (Hno (S i) (S j) a b); [lia|done..].
Qed.

Lemma filter_none {A} (P : A → Prop) `{∀ x, Decision (P x)} (l : list A) :
  Forall (λ x, ¬ P x) l → filter P l = [].
Proof.
  induction 1 as [|x l Hx Hl IH]; [done|]. by rewrite filter_cons_False.
Qed.

Lemma one_item_per_frame (items : list MediaItem.t) (frame : Z) :
  NonOverlapping items →
  length (filter (λ item, occupies item frame) items) ≤ 1.
Proof.
  induction items as [|item items IH]; intros Hno; [simpl; lia|].
  rewrite filter_cons. case_decide as Hactive.
  - rewrite filter_none; [simpl; lia|].
    apply Forall_forall. intros other [j Hj]%list_elem_of_lookup Hother.
    apply (Hno 0 (S j) item other); [lia|done..|]. by exists frame.
  - apply IH. by eapply NonOverlapping_tail.
Qed.

(** X12. On a timeline whose tracks are free of intersecting items (and
    stored under their identifiers), [getActiveItems()] returns at most one
    item for each visible track. *)
Theorem at_most_one_active_item_per_visible_track (tm : TimelineManager.t) :
  WellKeyed tm → AllNonOverlapping tm →
  length (TimelineManager.getActiveItems tm)
  ≤ length (filter (λ track, Track.isVisible track = true)
                   (TimelineManager.getTracks tm)).
Proof.
  intros [Hnd _] Hno. rewrite getActiveItems_filter.
  assert (Forall (λ track, NonOverlapping (Track.items track))
                 (TimelineManager.getTracks tm)) as Hall.
  { apply Forall_forall.
    intros track [[k v] [-> Hin]]%list_elem_of_fmap. simpl.
    apply (Hno k). by apply elem_get. }
  induction Hall as [|track tracks Htrack Hall IH]; [done|].
  rewrite filter_cons. case_decide; [|done]. csimpl.
  rewrite length_app.
  pose proof (one_item_per_frame (Track.items track)
                (TimelineManager.currentFrame tm) Htrack). lia.
Qed.

(** The track with B on [[10,20)] and C on [[20,30)]. *)
Lemma at_most_one_active_item_per_visible_track_witness :
  length (TimelineManager.getActiveItems twoClips)
  ≤ length (filter (λ track, Track.isVisible track = true)
                   (TimelineManager.getTracks twoClips)).
Proof.
  apply (at_most_one_active_item_per_visible_track twoClips).
  - exact twoClips_well_keyed.
  - exact twoClips_non_overlapping.
Defined.




(** ** The item edits *)

(** Settles [outcome = true ↔ conditions] once the guards are decided. *)
Ltac settle_guard :=
  simpl; split;
  [ first [done | intros _; eauto 10]
  | first [done
          | intros Hwhy;
            repeat match goal with
                   | H : ∃ _, _ |- _ => destruct H
                   | H : _ ∧ _ |- _ => destruct H
                   | H : _ ∨ _ |- _ => destruct H
                   | H : is_Some _ |- _ => destruct H
                   end;
            simplify_eq; congruence ] ].

(** X14. When the edits succeed: [addItemToTrack] returns [true] exactly
    when the track exists and is not locked; [removeItemFromTrack] and
    [trimItem] exactly when, besides, the track holds an item with the
    identifier; [moveItem] exactly when, besides, the destination is the
    same track (no [newTrackId], an empty one, or the track itself) or
    another track that exists and is not locked. *)
Theorem edits_succeed_exactly_when (tm : TimelineManager.t) (trackId : string) :
  (∀ item insertFrame opId now,
     (TimelineManager.addItemToTrack tm trackId item insertFrame opId now).2 = true
     ↔ ∃ track, TimelineManager.getTrack tm trackId = Some track
                ∧ Track.isLocked track = false)
  ∧ (∀ itemId opId now,
       (TimelineManager.removeItemFromTrack tm trackId itemId opId now).2 = true
       ↔ ∃ track, TimelineManager.getTrack tm trackId = Some track
                  ∧ Track.isLocked track = false
                  ∧ is_Some (TimelineManager.findItem itemId (Track.items track)))
  ∧ (∀ itemId trimStart trimEnd opId now,
       (TimelineManager.trimItem tm trackId itemId trimStart trimEnd opId now).2 = true
       ↔ ∃ track, TimelineManager.getTrack tm trackId = Some track
                  ∧ Track.isLocked track = false
                  ∧ is_Some (TimelineManager.findItem itemId (Track.items track)))
  ∧ (∀ itemId newStartFrame newTrackId opId now,
       (TimelineManager.moveItem tm trackId itemId newStartFrame newTrackId opId now).2
       = true
       ↔ ∃ source, TimelineManager.getTrack tm trackId = Some source
                   ∧ Track.isLocked source = false
                   ∧ is_Some (TimelineManager.findItem itemId (Track.items source))
                   ∧ (TimelineManager.sameTrack trackId newTrackId = true
                      ∨ ∃ target,
                          TimelineManager.getTrack tm
                            (TimelineManager.orTrackId trackId newTrackId)
                          = Some target
                          ∧ Track.isLocked target = false)).
Proof.
  unfold TimelineManager.getTrack. split_and!.
  - intros. unfold TimelineManager.addItemToTrack.
    destruct (JsMap.get _ _) as [track|]; [|settle_guard].
    destruct (Track.isLocked track) eqn:?; settle_guard.
  - intros. unfold TimelineManager.removeItemFromTrack.
    destruct (JsMap.get _ _) as [track|]; [|settle_guard].
    destruct (Track.isLocked track) eqn:?; [settle_guard|].
    destruct (TimelineManager.findItem _ _) as [[i item]|] eqn:?; settle_guard.
  - intros. unfold TimelineManager.trimItem.
    destruct (JsMap.get _ _) as [track|]; [|settle_guard].
    destruct (Track.isLocked track) eqn:?; [settle_guard|].
    destruct (TimelineManager.findItem _ _) as [[i item]|] eqn:?; settle_guard.
  - intros. unfold TimelineManager.moveItem.
    destruct (JsMap.get trackId _) as [source|]; [|settle_guard].
    destruct (Track.isLocked source) eqn:?; [settle_guard|].
    destruct (TimelineManager.findItem _ _) as [[i item]|] eqn:?; [|settle_guard].
    destruct (TimelineManager.sameTrack _ _) eqn:?; [settle_guard|].
    destruct (JsMap.get _ _) as [target|]; [|settle_guard].
    destruct (Track.isLocked target) eqn:?; settle_guard.
Qed.

(** X15. [trimItem] on an unlocked track that holds the item: the item
    stays in its slot and keeps every field but its start and duration.
    Its start becomes [trimStart] when that is given. With only
    [trimStart], the end of the item stays where it was as long as
    [trimStart] lies before it, and otherwise the item shrinks to one
    frame at [trimStart]. With [trimEnd], the item ends at [trimEnd] when
    that lies after its start, and otherwise lasts one frame. Whenever one
    of the two is given the duration is at least 1. *)
Theorem trimItem_spec (tm : TimelineManager.t) (trackId itemId : string)
    (trimStart trimEnd : option Z) (opId : string) (now : Z)
    (track : Track.t) (i : nat) (item : MediaItem.t) :
  TimelineManager.getTrack tm trackId = Some track →
  Track.isLocked track = false →
  TimelineManager.findItem itemId (Track.items track) = Some (i, item) →
  ∃ trimmed,
    TimelineManager.getTrack
      (TimelineManager.trimItem tm trackId itemId trimStart trimEnd opId now).1 trackId
    = Some (Track.with_items (<[i := trimmed]> (Track.items track)) track)
    ∧ trimmed
      = MediaItem.with_durationInFrames (MediaItem.durationInFrames trimmed)
          (MediaItem.with_startFrame (MediaItem.startFrame trimmed) item)
    ∧ MediaItem.startFrame trimmed = default (MediaItem.startFrame item) trimStart
    ∧ (trimStart = None → trimEnd = None → trimmed = item)
    ∧ (trimStart ≠ None ∨ trimEnd ≠ None → (1 ≤ MediaItem.durationInFrames trimmed)%Z)
    ∧ (∀ ts, trimStart = Some ts → trimEnd = None → (ts < MediaItem.endFrame item)%Z →
             MediaItem.endFrame trimmed = MediaItem.endFrame item)
    ∧ (∀ ts, trimStart = Some ts → trimEnd = None → (MediaItem.endFrame item ≤ ts)%Z →
             MediaItem.durationInFrames trimmed = 1%Z)
    ∧ (∀ te, trimEnd = Some te → (MediaItem.startFrame trimmed < te)%Z →
             MediaItem.endFrame trimmed = te)
    ∧ (∀ te, trimEnd = Some te → (te ≤ MediaItem.startFrame trimmed)%Z →
             MediaItem.durationInFrames trimmed = 1%Z).
Proof.
  unfold TimelineManager.getTrack at 1. intros Htrack Hlock Hfind.
  unfold TimelineManager.trimItem. rewrite Htrack, Hlock, Hfind.
  unfold TimelineManager.getTrack. cbn -[JsMap.set JsMap.get].
  rewrite get_set_eq. eexists. split; [reflexivity|].
  unfold MediaItem.endFrame.
  destruct item, trimStart as [ts|], trimEnd as [te|]; simpl.
  all: split_and!; try done; intros; simplify_eq; simpl; try lia.
  all: try (f_equal; lia).
  match goal with H : _ ∨ _ |- _ => by destruct H end.
Qed.

(** The start of B is trimmed from 10 to 15: B then occupies [[15,20)]. *)
Lemma trimItem_spec_witness :
  ∃ trimmed,
    Track.items
      <$> TimelineManager.getTrack
            (TimelineManager.trimItem twoClips "t1" "B" (Some 15%Z) None "op3" 3).1 "t1"
    = Some [trimmed; clip "C" 20 10]
    ∧ MediaItem.startFrame trimmed = 15%Z
    ∧ MediaItem.endFrame trimmed = 20%Z.
Proof.
  destruct (trimItem_spec twoClips "t1" "B" (Some 15%Z) None "op3" 3
              (Track.mk "t1" (Some "Video Track") (Some TVideo)
                 [clip "B" 10 10; clip "C" 20 10] false true None)
              0 (clip "B" 10 10) eq_refl eq_refl eq_refl)
    as (trimmed & Hget & _ & Hstart & _ & _ & Hend & _).
  exists trimmed. split; [by rewrite Hget|]. split; [exact Hstart|].
  apply (Hend 15%Z); reflexivity.
Defined.

(** X16. [removeItemFromTrack] on an unlocked track that holds the item:
    the first item with the identifier leaves the track and the others keep
    their order, the other tracks are untouched, the cached total is
    recomputed, and the operation on top of the undo stack is a [delete]
    with the action ['remove'] and the removed item. When the identifiers
    of the track are distinct, the identifier is no longer found. *)
Theorem removeItemFromTrack_spec (tm : TimelineManager.t) (trackId itemId : string)
    (opId : string) (now : Z) (track : Track.t) (i : nat) (item : MediaItem.t) :
  TimelineManager.getTrack tm trackId = Some track →
  Track.isLocked track = false →
  TimelineManager.findItem itemId (Track.items track) = Some (i, item) →
  let tm' := (TimelineManager.removeItemFromTrack tm trackId itemId opId now).1 in
  TimelineManager.getTrack tm' trackId
  = Some (Track.with_items (delete i (Track.items track)) track)
  ∧ (∀ other, other ≠ trackId →
       TimelineManager.getTrack tm' other = TimelineManager.getTrack tm other)
  ∧ DurationFresh tm'
  ∧ last (TimelineManager.undoStack tm')
    = Some (EditOperation.mk opId OpDelete trackId itemId now
              (EditOperationParameters.mk (Some "remove") (Some item)
                 None None None None None None None None None None))
  ∧ (NoDup (trackIds track) →
     TimelineManager.findItem itemId (delete i (Track.items track)) = None).
Proof.
  intros Htrack Hlock Hfind tm'. subst tm'. unfold TimelineManager.getTrack in Htrack.
  unfold TimelineManager.removeItemFromTrack. rewrite Htrack, Hlock, Hfind.
  cbn -[JsMap.set JsMap.get TimelineManager.updateTotalDuration
        TimelineManager.recordOperation].
  split_and!.
  - unfold TimelineManager.getTrack. cbn -[JsMap.set JsMap.get]. apply get_set_eq.
  - intros other Hne. unfold TimelineManager.getTrack. cbn -[JsMap.set JsMap.get].
    by apply get_set_ne.
  - apply recordOperation_fresh, updateTotalDuration_fresh.
  - apply last_recordOperation.
  - intros Hnd. apply findItem_Some in Hfind as [Hi Hid].
    unfold TimelineManager.findItem. apply list_find_None, Forall_forall.
    intros other Hother Hsame.
    apply (NoDup_delete_lookup (trackIds track) i itemId Hnd).
    + unfold trackIds. by rewrite list_lookup_fmap, Hi, <- Hid.
    + unfold trackIds. rewrite <- list_fmap_delete, <- Hsame.
      by apply list_elem_of_fmap_2.
Qed.

(** B is removed from the track of the two clips. *)
Lemma removeItemFromTrack_spec_witness :
  let tm' := (TimelineManager.removeItemFromTrack twoClips "t1" "B" "op3" 3).1 in
  Track.items <$> TimelineManager.getTrack tm' "t1" = Some [clip "C" 20 10]
  ∧ DurationFresh tm'
  ∧ TimelineManager.findItem "B" [clip "C" 20 10] = None.
Proof.
  intros tm'. subst tm'.
  destruct (removeItemFromTrack_spec twoClips "t1" "B" "op3" 3
              (Track.mk "t1" (Some "Video Track") (Some TVideo)
                 [clip "B" 10 10; clip "C" 20 10] false true None)
              0 (clip "B" 10 10) eq_refl eq_refl eq_refl)
    as (Hget & _ & Hfresh & _ & Hgone).
  split; [by rewrite Hget|]. split; [exact Hfresh|].
  apply Hgone. by apply (bool_decide_unpack _).
Defined.

(** X17. [moveItem] on an unlocked track that holds the item. Within the
    track, the item stays in its slot with its new start, and the other
    items of the track are as the overlap resolver leaves them. To another
    track that exists and is unlocked, the item leaves its slot in the
    source, whose other items keep their order, and is appended to the
    destination behind the items the resolver has visited. The moved item
    differs from the original in its start only, no item changes its
    identifier, and the tracks not involved are untouched. *)
Theorem moveItem_spec (tm : TimelineManager.t) (trackId itemId : string)
    (newStartFrame : Z) (newTrackId : option string) (opId : string) (now : Z)
    (source : Track.t) (i : nat) (item : MediaItem.t) :
  TimelineManager.getTrack tm trackId = Some source →
  Track.isLocked source = false →
  TimelineManager.findItem itemId (Track.items source) = Some (i, item) →
  let tm' :=
    (TimelineManager.moveItem tm trackId itemId newStartFrame newTrackId opId now).1 in
  let moved := MediaItem.with_startFrame newStartFrame item in
  let dest := TimelineManager.orTrackId trackId newTrackId in
  (TimelineManager.sameTrack trackId newTrackId = true →
   let items' := resolveOne moved <$> <[i := moved]> (Track.items source) in
   TimelineManager.getTrack tm' trackId = Some (Track.with_items items' source)
   ∧ items' !! i = Some moved
   ∧ MediaItem.id <$> items' = MediaItem.id <$> Track.items source
   ∧ (∀ other, other ≠ trackId →
        TimelineManager.getTrack tm' other = TimelineManager.getTrack tm other))
  ∧ (∀ target,
       TimelineManager.sameTrack trackId newTrackId = false →
       TimelineManager.getTrack tm dest = Some target →
       Track.isLocked target = false →
       let items' := resolveOne moved <$> Track.items target in
       TimelineManager.getTrack tm' trackId
       = Some (Track.with_items (delete i (Track.items source)) source)
       ∧ TimelineManager.getTrack tm' dest
         = Some (Track.with_items (items' ++ [moved]) target)
       ∧ MediaItem.id <$> items' = MediaItem.id <$> Track.items target
       ∧ (∀ other, other ≠ trackId → other ≠ dest →
            TimelineManager.getTrack tm' other = TimelineManager.getTrack tm other)).
Proof.
  intros Hsource Hlock Hfind tm' moved dest. subst tm'. split.
  - intros Hsame items'. subst items'.
    destruct (moveItem_same_tracks tm trackId itemId newStartFrame newTrackId opId now
                source i item Hsource Hlock Hfind Hsame) as [_ Htracks].
    apply findItem_Some in Hfind as [Hi Hid].
    unfold TimelineManager.getTrack. rewrite Htracks. split_and!.
    + apply get_set_eq.
    + rewrite list_lookup_fmap, list_lookup_insert_eq by (by eapply lookup_lt_Some).
      simpl. by rewrite resolveOne_self.
    + pose proof (trackIds_resolve source moved (<[i := moved]> (Track.items source)))
        as Hids.
      unfold trackIds in Hids. simpl in Hids. rewrite Hids.
      by apply (ids_insert_same _ _ item).
    + intros other Hne. by apply get_set_ne.
  - intros target Hsame Htarget Hlock' items'. subst items'.
    destruct (moveItem_cross_tracks tm trackId itemId newStartFrame newTrackId opId now
                source i item target Hsource Hlock Hfind Hsame Htarget Hlock')
      as [_ Htracks].
    apply sameTrack_false in Hsame as Hdest. fold dest in Hdest, Htracks.
    unfold TimelineManager.getTrack. rewrite Htracks. split_and!.
    + rewrite get_set_ne by done. apply get_set_eq.
    + apply get_set_eq.
    + pose proof (trackIds_resolve target moved (Track.items target)) as Hids.
      unfold trackIds in Hids. simpl in Hids. exact Hids.
    + intros other Hne Hne'. rewrite !get_set_ne by done. done.
Qed.

(** C is moved to frame 40 within the track of the two clips. *)
Lemma moveItem_spec_witness :
  Track.items
    <$> TimelineManager.getTrack
          (TimelineManager.moveItem twoClips "t1" "C" 40 None "op3" 3).1 "t1"
  = Some [clip "B" 10 10; clip "C" 40 10].
Proof.
  destruct (moveItem_spec twoClips "t1" "C" 40 None "op3" 3
              (Track.mk "t1" (Some "Video Track") (Some TVideo)
                 [clip "B" 10 10; clip "C" 20 10] false true None)
              1 (clip "C" 20 10) eq_refl eq_refl eq_refl)
    as [Hsame _].
  destruct (Hsame eq_refl) as (Hget & _). by rewrite Hget.
Defined.

(** ** Keyframes *)

Section SortFacts.
Context {A : Type} (key : A → Z).
Implicit Types (x : A) (l : list A).

Lemma insertBy_perm x l : JsArray.insertBy key x l ≡ₚ x :: l.
Proof.
  induction l as [|e r IH]; simpl; [done|].
  case_match; [done|]. rewrite IH. apply Permutation_swap.
Qed.

(** Where [insertBy] puts the element in an ascending list. *)
Lemma insertBy_split x l :
  SortedBy key l →
  ∃ l1 l2, l = l1 ++ l2 ∧ JsArray.insertBy key x l = l1 ++ x :: l2
           ∧ Forall (λ e, (key e ≤ key x)%Z) l1
           ∧ Forall (λ e, (key x < key e)%Z) l2.
Proof.
  induction 1 as [|e r Hr IH He]; simpl.
  - by exists [], [].
  - destruct (Z.ltb_spec (key x) (key e)).
    + exists [], (e :: r). split_and!; [done..|].
      constructor; [done|]. eapply Forall_impl; [done|]. simpl. lia.
    + destruct IH as (l1 & l2 & -> & -> & H1 & H2).
      exists (e :: l1), l2. split_and!; [done..| |done]. by constructor.
Qed.

Lemma insertBy_sorted x l : SortedBy key l → SortedBy key (JsArray.insertBy key x l).
Proof.
  intros Hl. destruct (insertBy_split x l Hl) as (l1 & l2 & -> & -> & H1 & H2).
  unfold SortedBy in *. apply StronglySorted_app in Hl as (Hcross & Hl1 & Hl2).
  apply StronglySorted_app. split_and!; [|done|].
  - intros a b Ha [->|Hb]%elem_of_cons.
    + rewrite Forall_forall in H1. by apply H1.
    + by apply Hcross.
  - constructor; [done|]. eapply Forall_impl; [done|]. simpl. lia.
Qed.

Lemma sortBy_snoc l x :
  JsArray.sortBy key (l ++ [x]) = JsArray.insertBy key x (JsArray.sortBy key l).
Proof. unfold JsArray.sortBy. by rewrite foldl_app. Qed.

Lemma sortBy_spec l : SortedBy key (JsArray.sortBy key l) ∧ JsArray.sortBy key l ≡ₚ l.
Proof.
  induction l as [|x l IH] using rev_ind.
  - split; [constructor|done].
  - destruct IH as [Hs Hp]. rewrite sortBy_snoc. split.
    + by apply insertBy_sorted.
    + rewrite insertBy_perm, Hp. by rewrite Permutation_cons_append.
Qed.

Lemma insertBy_last x l :
  Forall (λ e, (key e ≤ key x)%Z) l → JsArray.insertBy key x l = l ++ [x].
Proof.
  induction 1 as [|e r He Hr IH]; simpl; [done|].
  destruct (Z.ltb_spec (key x) (key e)); [lia|]. by rewrite IH.
Qed.

Lemma sortBy_sorted l : SortedBy key l → JsArray.sortBy key l = l.
Proof.
  induction l as [|x l IH] using rev_ind; intros Hl; [done|].
  unfold SortedBy in Hl. apply StronglySorted_app in Hl as (Hcross & Hl & _).
  rewrite sortBy_snoc, IH by done. apply insertBy_last.
  apply Forall_forall. intros e He. apply Hcross; [done|]. by apply list_elem_of_singleton.
Qed.

End SortFacts.

Section FindFacts.
Context {A : Type}.
Implicit Types (P Q : A → Prop) (l : list A).

Lemma findFirst_cons P `{∀ x, Decision (P x)} x l :
  findFirst P (x :: l) = if decide (P x) then Some x else findFirst P l.
Proof.
  unfold findFirst. simpl. case_decide; [done|].
  by destruct (list_find P l) as [[i y]|].
Qed.

Lemma findFirst_app P `{∀ x, Decision (P x)} l1 l2 :
  findFirst P (l1 ++ l2)
  = match findFirst P l1 with Some x => Some x | None => findFirst P l2 end.
Proof.
  induction l1 as [|x l1 IH]; [done|].
  rewrite <- app_comm_cons, !findFirst_cons. by case_decide.
Qed.

Lemma findFirst_None P `{∀ x, Decision (P x)} l :
  findFirst P l = None ↔ Forall (λ x, ¬ P x) l.
Proof.
  induction l as [|x l IH]; [by split|].
  rewrite findFirst_cons, Forall_cons. case_decide; [by split; [|intros [? _]]|].
  rewrite IH. by split; [|intros [_ ?]].
Qed.

Lemma findFirst_filter P Q `{∀ x, Decision (P x)} `{∀ x, Decision (Q x)} l :
  findFirst P (filter Q l) = findFirst (λ x, P x ∧ Q x) l.
Proof.
  induction l as [|x l IH]; [done|].
  rewrite filter_cons, (findFirst_cons (λ x, P x ∧ Q x)).
  destruct (decide (Q x)).
  - rewrite findFirst_cons, IH.
    destruct (decide (P x));
      [by rewrite decide_True|by rewrite decide_False by (by intros [? ?])].
  - rewrite IH. by rewrite decide_False by (by intros [? ?]).
Qed.

End FindFacts.

Lemma SortedBy_filter {A} (key : A → Z) (P : A → Prop) `{∀ x, Decision (P x)} l :
  SortedBy key l → SortedBy key (filter P l).
Proof.
  induction 1 as [|x l Hl IH Hx]; [constructor|].
  rewrite filter_cons. case_decide; [|done].
  constructor; [done|]. apply Forall_forall. intros y [_ Hy]%list_elem_of_filter.
  rewrite Forall_forall in Hx. by apply Hx.
Qed.

Section KeyframeFacts.
Context {num : Type} `{JsNumber num}.
Implicit Types (km : KeyframeManager.t num) (kf : Keyframe.t num)
  (kfs : list (Keyframe.t num)).

Lemma addKeyframe_get km itemId kf :
  JsMap.get itemId (KeyframeManager.keyframes (KeyframeManager.addKeyframe km itemId kf))
  = Some (JsArray.sortBy Keyframe.frame (keyframesOf km itemId ++ [kf]))
  ∧ ∀ other, other ≠ itemId →
      JsMap.get other (KeyframeManager.keyframes (KeyframeManager.addKeyframe km itemId kf))
      = JsMap.get other (KeyframeManager.keyframes km).
Proof.
  unfold KeyframeManager.addKeyframe, keyframesOf.
  destruct (JsMap.get itemId (KeyframeManager.keyframes km)) as [kfs|] eqn:Hget.
  - rewrite Hget. cbn -[JsMap.get JsMap.set]. split; [apply get_set_eq|].
    intros other Hne. by apply get_set_ne.
  - rewrite get_set_eq. cbn -[JsMap.get JsMap.set]. split; [apply get_set_eq|].
    intros other Hne. by rewrite !get_set_ne.
Qed.

(** X18. [addKeyframe] keeps the keyframes of an item in the order of their
    frames: after the call the keyframes of the item are ascending in
    [frame] and are the former ones together with the new one; when the
    former ones were ascending, the new keyframe has been put behind those
    with a frame up to its own and before those with a later frame, and
    the others kept their order. The keyframes of other items are
    untouched. *)
Theorem addKeyframe_keeps_keyframes_sorted km itemId kf :
  ∃ after,
    JsMap.get itemId (KeyframeManager.keyframes (KeyframeManager.addKeyframe km itemId kf))
    = Some after
    ∧ SortedBy Keyframe.frame after
    ∧ after ≡ₚ keyframesOf km itemId ++ [kf]
    ∧ (SortedBy Keyframe.frame (keyframesOf km itemId) →
       ∃ l1 l2, keyframesOf km itemId = l1 ++ l2 ∧ after = l1 ++ kf :: l2
                ∧ Forall (λ e, (Keyframe.frame e ≤ Keyframe.frame kf)%Z) l1
                ∧ Forall (λ e, (Keyframe.frame kf < Keyframe.frame e)%Z) l2)
    ∧ ∀ other, other ≠ itemId →
        JsMap.get other
          (KeyframeManager.keyframes (KeyframeManager.addKeyframe km itemId kf))
        = JsMap.get other (KeyframeManager.keyframes km).
Proof.
  destruct (addKeyframe_get km itemId kf) as [Hget Hothers].
  eexists. split; [exact Hget|].
  destruct (sortBy_spec Keyframe.frame (keyframesOf km itemId ++ [kf])) as [Hs Hp].
  split_and!; [done..| |done].
  intros Hsorted. rewrite sortBy_snoc, sortBy_sorted by done.
  by apply insertBy_split.
Qed.

(** The lookup of the exact keyframe in [getValue]. *)
Lemma getValue_exact km itemId frame property kfs old :
  JsMap.get itemId (KeyframeManager.keyframes km) = Some kfs →
  findFirst (λ kf, Keyframe.frame kf = frame ∧ Keyframe.property kf = property) kfs
  = Some old →
  KeyframeManager.getValue km itemId frame property = Some (Keyframe.value old).
Proof.
  intros Hget Hfind. unfold KeyframeManager.getValue. rewrite Hget.
  rewrite <- findFirst_filter in Hfind. unfold findFirst in Hfind.
  destruct (list_find _ (filter _ kfs)) as [[i kf']|] eqn:Hexact; [|done].
  simpl in Hfind. injection Hfind as ->.
  case_decide as Hlen; [|done].
  apply list_find_Some in Hexact as (Hi & _). apply lookup_lt_Some in Hi. lia.
Qed.

(** X19. [addKeyframe] never replaces a keyframe: when the item already
    has a keyframe for the same frame and property, [getValue] at that
    frame still returns the value of the first such keyframe after the
    call; only when there was none does it return the value of the new
    one. *)
Theorem addKeyframe_does_not_replace km itemId kf :
  SortedBy Keyframe.frame (keyframesOf km itemId) →
  KeyframeManager.getValue (KeyframeManager.addKeyframe km itemId kf) itemId
    (Keyframe.frame kf) (Keyframe.property kf)
  = Some match KeyframeManager.findKeyframe (Keyframe.frame kf) (Keyframe.property kf)
                 (keyframesOf km itemId) with
         | Some (_, old) => Keyframe.value old
         | None => Keyframe.value kf
         end.
Proof.
  intros Hsorted. destruct (addKeyframe_get km itemId kf) as [Hget _].
  rewrite sortBy_snoc, sortBy_sorted in Hget by done.
  destruct (insertBy_split Keyframe.frame kf _ Hsorted) as (l1 & l2 & Hl & Hins & H1 & H2).
  rewrite Hins in Hget. rewrite Hl.
  set (P := λ e : Keyframe.t num,
              Keyframe.frame e = Keyframe.frame kf
              ∧ Keyframe.property e = Keyframe.property kf).
  assert (findFirst P l2 = None) as Hl2.
  { apply findFirst_None. eapply Forall_impl; [exact H2|]. intros e He [Hf _]. simpl in *. lia. }
  assert (findFirst P (l1 ++ kf :: l2)
          = Some (default kf (findFirst P (l1 ++ l2)))) as Hfirst.
  { rewrite !findFirst_app, findFirst_cons, Hl2.
    destruct (findFirst P l1); [done|]. by rewrite decide_True. }
  rewrite (getValue_exact _ _ _ _ _ _ Hget Hfirst). f_equal.
  unfold KeyframeManager.findKeyframe. fold P. unfold findFirst.
  by destruct (list_find P (l1 ++ l2)) as [[i old]|].
Qed.

(** X20. [getValue] returns a value exactly when the item has a keyframe
    for the property: it is [undefined] for an item without keyframes and
    for a property none of them animates, and defined at every frame
    otherwise. *)
Theorem getValue_defined_iff km itemId frame property :
  is_Some (KeyframeManager.getValue km itemId frame property)
  ↔ ∃ kf, kf ∈ keyframesOf km itemId ∧ Keyframe.property kf = property.
Proof.
  unfold KeyframeManager.getValue, keyframesOf.
  destruct (JsMap.get itemId (KeyframeManager.keyframes km)) as [kfs|]; simpl; cycle 1.
  { split; [by intros [? ?]|]. by intros (kf & ?%elem_of_nil & _). }
  set (pk := filter (λ kf, Keyframe.property kf = property) kfs).
  assert ((∃ kf, kf ∈ kfs ∧ Keyframe.property kf = property) ↔ pk ≠ []) as ->.
  { split.
    - intros (kf & Hin & Hp) Hnil.
      assert (kf ∈ pk) as Hpk by (by apply list_elem_of_filter).
      rewrite Hnil in Hpk. by apply elem_of_nil in Hpk.
    - destruct pk as [|kf pk'] eqn:Hpk; [done|]. intros _. exists kf.
      assert (kf ∈ pk) as Hin by (rewrite Hpk; left).
      apply list_elem_of_filter in Hin as [? ?]. done. }
  case_decide as Hlen.
  { split; [by intros [? ?]|]. intros Hne. by apply nil_length_inv in Hlen. }
  assert (pk ≠ []) as Hne by (by intros ->).
  split; [done|]. intros _.
  destruct (list_find _ pk) as [[i exact]|] eqn:Hexact; [done|].
  apply list_find_None in Hexact.
  set (before := filter (λ kf, (Keyframe.frame kf < frame)%Z) pk).
  set (after := filter (λ kf, (Keyframe.frame kf > frame)%Z) pk).
  case_decide as Hb.
  { apply nil_length_inv in Hb.
    assert (after = pk) as ->.
    { apply filter_all, Forall_forall. intros kf Hin.
      rewrite Forall_forall in Hexact. pose proof (Hexact kf Hin) as Hneq.
      assert (kf ∉ before) as Hnot by (rewrite Hb; apply not_elem_of_nil).
      unfold before in Hnot. rewrite list_elem_of_filter in Hnot.
      destruct (Z.lt_trichotomy (Keyframe.frame kf) frame) as [?|[?|?]];
        [by destruct Hnot|done|lia]. }
    destruct pk; [done|]. by eexists. }
  case_decide as Ha.
  { destruct before as [|b before'] using rev_ind; [done|].
    rewrite last_snoc. by eexists. }
  destruct before as [|b before' _] using rev_ind; [done|]. rewrite last_snoc.
  destruct after as [|a after']; [done|]. by eexists.
Qed.

(** X21. Outside the range of its keyframes a property keeps the value of
    the nearest one: at a frame before all keyframes of the property
    [getValue] returns the value of the earliest, and at a frame after all
    of them the value of the latest. *)
Theorem getValue_outside_the_keyframes km itemId frame property :
  let propertyKeyframes := propertyKeyframesOf km itemId property in
  propertyKeyframes ≠ [] →
  SortedBy Keyframe.frame (keyframesOf km itemId) →
  ((∀ kf, kf ∈ propertyKeyframes → (frame < Keyframe.frame kf)%Z) →
   ∃ first,
     head propertyKeyframes = Some first
     ∧ KeyframeManager.getValue km itemId frame property = Some (Keyframe.value first)
     ∧ ∀ kf, kf ∈ propertyKeyframes → (Keyframe.frame first ≤ Keyframe.frame kf)%Z)
  ∧ ((∀ kf, kf ∈ propertyKeyframes → (Keyframe.frame kf < frame)%Z) →
     ∃ final,
       last propertyKeyframes = Some final
       ∧ KeyframeManager.getValue km itemId frame property = Some (Keyframe.value final)
       ∧ ∀ kf, kf ∈ propertyKeyframes → (Keyframe.frame kf ≤ Keyframe.frame final)%Z).
Proof.
  intros pk Hne Hsorted.
  assert (SortedBy Keyframe.frame pk) as Hpk by (by apply SortedBy_filter).
  unfold KeyframeManager.getValue. unfold propertyKeyframesOf, keyframesOf in *.
  destruct (JsMap.get itemId (KeyframeManager.keyframes km)) as [kfs|]; [|done].
  simpl in pk. fold pk.
  rewrite decide_False by (by intros ?%nil_length_inv).
  split.
  - intros Hafter.
    destruct (list_find _ pk) as [[i exact]|] eqn:Hexact.
    { apply list_find_Some in Hexact as (Hi & Hframe & _).
      apply list_elem_of_lookup_2, Hafter in Hi. lia. }
    assert (filter (λ kf, (Keyframe.frame kf < frame)%Z) pk = []) as ->.
    { apply filter_none, Forall_forall. intros kf ?%Hafter. lia. }
    assert (filter (λ kf, (Keyframe.frame kf > frame)%Z) pk = pk) as ->.
    { apply filter_all, Forall_forall. intros kf ?%Hafter. lia. }
    simpl. destruct pk as [|first rest]; [done|]. exists first.
    split_and!; [done..|]. intros kf [->|Hin]%elem_of_cons; [lia|].
    apply StronglySorted_inv in Hpk as [_ Hall]. rewrite Forall_forall in Hall.
    by apply Hall.
  - intros Hbefore.
    destruct (list_find _ pk) as [[i exact]|] eqn:Hexact.
    { apply list_find_Some in Hexact as (Hi & Hframe & _).
      apply list_elem_of_lookup_2, Hbefore in Hi. lia. }
    assert (filter (λ kf, (Keyframe.frame kf > frame)%Z) pk = []) as ->.
    { apply filter_none, Forall_forall. intros kf ?%Hbefore. lia. }
    assert (filter (λ kf, (Keyframe.frame kf < frame)%Z) pk = pk) as ->.
    { apply filter_all, Forall_forall. intros kf ?%Hbefore. lia. }
    rewrite decide_False by (by intros ?%nil_length_inv). simpl.
    destruct pk as [|final rest _] using rev_ind; [done|]. exists final.
    rewrite last_snoc. split_and!; [done..|].
    intros kf [Hin|Hin]%elem_of_app;
      [|apply list_elem_of_singleton in Hin as ->; lia].
    unfold SortedBy in Hpk. apply StronglySorted_app in Hpk as (Hcross & _ & _).
    apply Hcross; [done|]. by apply list_elem_of_singleton.
Qed.

(** X22. [removeKeyframe] undoes [addKeyframe]: when the item had no
    keyframe for the frame and property of the new one, removing that frame
    and property after the add returns [true] and leaves the keyframes of
    the item as they were before the add (an item that had no entry is
    left with an empty list), and the other items untouched. *)
Theorem removeKeyframe_undoes_addKeyframe km itemId kf :
  SortedBy Keyframe.frame (keyframesOf km itemId) →
  KeyframeManager.findKeyframe (Keyframe.frame kf) (Keyframe.property kf)
    (keyframesOf km itemId) = None →
  let removed :=
    KeyframeManager.removeKeyframe (KeyframeManager.addKeyframe km itemId kf) itemId
      (Keyframe.frame kf) (Keyframe.property kf) in
  removed.2 = true
  ∧ JsMap.get itemId (KeyframeManager.keyframes removed.1) = Some (keyframesOf km itemId)
  ∧ ∀ other, other ≠ itemId →
      JsMap.get other (KeyframeManager.keyframes removed.1)
      = JsMap.get other (KeyframeManager.keyframes km).
Proof.
  intros Hsorted Hnone removed. subst removed.
  destruct (addKeyframe_get km itemId kf) as [Hget Hothers].
  rewrite sortBy_snoc, sortBy_sorted in Hget by done.
  destruct (insertBy_split Keyframe.frame kf _ Hsorted) as (l1 & l2 & Hl & Hins & H1 & H2).
  rewrite Hins in Hget. rewrite Hl in *.
  unfold KeyframeManager.removeKeyframe. rewrite Hget.
  assert (KeyframeManager.findKeyframe (Keyframe.frame kf) (Keyframe.property kf)
            (l1 ++ kf :: l2) = Some (length l1, kf)) as ->.
  { unfold KeyframeManager.findKeyframe in *. apply list_find_Some. split; [|split].
    - by rewrite list_lookup_middle.
    - done.
    - intros j e Hj Hlt. rewrite lookup_app_l in Hj by done.
      apply list_find_None in Hnone. rewrite Forall_forall in Hnone.
      apply Hnone. apply elem_of_app. left. by eapply list_elem_of_lookup_2. }
  cbn -[JsMap.get JsMap.set]. split_and!.
  - done.
  - rewrite get_set_eq. f_equal. by rewrite delete_middle.
  - intros other Hne. rewrite get_set_ne by done. by apply Hothers.
Qed.

(** X23. Between two keyframes [getValue] interpolates between the nearest
    keyframe before the frame and the nearest one after it, with the
    progress [(frame - before.frame) / (after.frame - before.frame)] and
    the easing of the earlier keyframe (linear when it has none). Unless
    both values are numbers nothing is interpolated: the result is the
    value of the earlier keyframe. *)
Theorem getValue_between_keyframes km itemId frame property before after :
  SortedBy Keyframe.frame (keyframesOf km itemId) →
  let propertyKeyframes := propertyKeyframesOf km itemId property in
  (∀ kf, kf ∈ propertyKeyframes → Keyframe.frame kf ≠ frame) →
  last (filter (λ kf, (Keyframe.frame kf < frame)%Z) propertyKeyframes) = Some before →
  head (filter (λ kf, (Keyframe.frame kf > frame)%Z) propertyKeyframes) = Some after →
  KeyframeManager.getValue km itemId frame property
  = Some (KeyframeManager.interpolate (Keyframe.value before) (Keyframe.value after)
            (div (ofInteger (frame - Keyframe.frame before))
                 (ofInteger (Keyframe.frame after - Keyframe.frame before)))
            (default Linear (Keyframe.easing before)))
  ∧ (Keyframe.frame before < frame < Keyframe.frame after)%Z
  ∧ (∀ kf, kf ∈ propertyKeyframes →
           (Keyframe.frame kf ≤ Keyframe.frame before)%Z
           ∨ (Keyframe.frame after ≤ Keyframe.frame kf)%Z)
  ∧ ((∀ n, Keyframe.value before ≠ VNumber n) ∨ (∀ n, Keyframe.value after ≠ VNumber n) →
     KeyframeManager.getValue km itemId frame property = Some (Keyframe.value before)).
Proof.
  intros Hsorted pk Hnoexact Hlast Hhead. subst pk.
  unfold propertyKeyframesOf, keyframesOf in *.
  destruct (JsMap.get itemId (KeyframeManager.keyframes km)) as [kfs|] eqn:Hget;
    [|done].
  simpl in Hsorted, Hnoexact, Hlast, Hhead |- *.
  set (pk := filter (λ kf, Keyframe.property kf = property) kfs) in *.
  assert (SortedBy Keyframe.frame pk) as Hpk by (by apply SortedBy_filter).
  set (beforeKeyframes := filter (λ kf, (Keyframe.frame kf < frame)%Z) pk) in *.
  set (afterKeyframes := filter (λ kf, (Keyframe.frame kf > frame)%Z) pk) in *.
  assert (before ∈ beforeKeyframes) as Hb.
  { apply last_Some in Hlast as [l ->]. apply elem_of_app. right. left. }
  assert (after ∈ afterKeyframes) as Ha.
  { destruct afterKeyframes; [done|]. injection Hhead as ->. left. }
  assert (KeyframeManager.getValue km itemId frame property
          = Some (KeyframeManager.interpolate (Keyframe.value before)
                    (Keyframe.value after)
                    (div (ofInteger (frame - Keyframe.frame before))
                         (ofInteger (Keyframe.frame after - Keyframe.frame before)))
                    (default Linear (Keyframe.easing before)))) as Hvalue.
  { unfold KeyframeManager.getValue. rewrite Hget. cbv zeta.
    fold pk. fold beforeKeyframes. fold afterKeyframes.
    assert (list_find (λ kf, Keyframe.frame kf = frame) pk = None) as ->.
    { apply list_find_None, Forall_forall. exact Hnoexact. }
    rewrite decide_False; cycle 1.
    { intros Hlen%nil_length_inv. unfold beforeKeyframes in Hb. rewrite Hlen in Hb.
      rewrite filter_nil in Hb. by apply elem_of_nil in Hb. }
    rewrite decide_False; cycle 1.
    { intros Hlen%nil_length_inv. rewrite Hlen in Hb. by apply elem_of_nil in Hb. }
    rewrite decide_False; cycle 1.
    { intros Hlen%nil_length_inv. rewrite Hlen in Ha. by apply elem_of_nil in Ha. }
    by rewrite Hlast, Hhead. }
  split; [exact Hvalue|].
  apply list_elem_of_filter in Hb as Hb'. apply list_elem_of_filter in Ha as Ha'.
  destruct Hb' as [Hbf Hbin], Ha' as [Haf Hain].
  split; [lia|]. split.
  - intros kf Hin.
    destruct (Z.lt_trichotomy (Keyframe.frame kf) frame) as [Hlt|[Heq|Hgt]].
    + left. assert (kf ∈ beforeKeyframes) as Hkf by (by apply list_elem_of_filter).
      assert (SortedBy Keyframe.frame beforeKeyframes) as Hbs
        by (by apply SortedBy_filter).
      apply last_Some in Hlast as [l Hl]. rewrite Hl in Hkf, Hbs.
      apply elem_of_app in Hkf as [Hkf|Hkf].
      * unfold SortedBy in Hbs. apply StronglySorted_app in Hbs as (Hcross & _ & _).
        apply Hcross; [done|]. left.
      * apply list_elem_of_singleton in Hkf as ->. lia.
    + by destruct (Hnoexact kf Hin).
    + right. assert (kf ∈ afterKeyframes) as Hkf by (apply list_elem_of_filter; split; [lia|done]).
      assert (SortedBy Keyframe.frame afterKeyframes) as Has
        by (by apply SortedBy_filter).
      destruct afterKeyframes as [|first rest]; [done|]. injection Hhead as ->.
      apply elem_of_cons in Hkf as [->|Hkf]; [lia|].
      apply StronglySorted_inv in Has as [_ Hall]. rewrite Forall_forall in Hall.
      by apply Hall.
  - intros Hheld. rewrite Hvalue. f_equal. unfold KeyframeManager.interpolate.
    destruct (Keyframe.value before) as [s|s], (Keyframe.value after) as [e|e];
      try done.
    destruct Hheld as [Hheld|Hheld]; by destruct (Hheld _ eq_refl).
Qed.

End KeyframeFacts.

(** The keyframes of the sample, as [addKeyframe] has ordered them. *)
Lemma fade_keyframes :
  keyframesOf fade "clip1"
  = [Keyframe.mk 0 "opacity" (VNumber 0%Q) (Some EaseIn);
     Keyframe.mk 30 "opacity" (VNumber 1%Q) None].
Proof. reflexivity. Qed.

Lemma fade_sorted : SortedBy Keyframe.frame (keyframesOf fade "clip1").
Proof. rewrite fade_keyframes. repeat constructor; simpl; lia. Qed.

(** A second keyframe is added at frame 30, where the opacity is 1: it
    stays 1. *)
Lemma addKeyframe_does_not_replace_witness :
  KeyframeManager.getValue
    (KeyframeManager.addKeyframe fade "clip1"
       (Keyframe.mk 30 "opacity" (VNumber (1 # 2)%Q) None))
    "clip1" 30 "opacity"
  = Some (VNumber 1%Q).
Proof.
  exact (addKeyframe_does_not_replace fade "clip1"
           (Keyframe.mk 30 "opacity" (VNumber (1 # 2)%Q) None) fade_sorted).
Defined.

(** Before frame 0 the opacity is 0, after frame 30 it is 1. *)
Lemma getValue_outside_the_keyframes_witness :
  KeyframeManager.getValue fade "clip1" (-5) "opacity" = Some (VNumber 0%Q)
  ∧ KeyframeManager.getValue fade "clip1" 45 "opacity" = Some (VNumber 1%Q).
Proof.
  split.
  - destruct (getValue_outside_the_keyframes fade "clip1" (-5) "opacity")
      as [Hbefore _]; [done|exact fade_sorted|].
    destruct Hbefore as (first & Hhead & Hvalue & _).
    + intros kf Hin. unfold propertyKeyframesOf in Hin. rewrite fade_keyframes in Hin.
      apply list_elem_of_filter in Hin as [_ Hin].
      apply elem_of_cons in Hin as [->|Hin]; [simpl; lia|].
      apply list_elem_of_singleton in Hin as ->. simpl. lia.
    + injection Hhead as <-. exact Hvalue.
  - destruct (getValue_outside_the_keyframes fade "clip1" 45 "opacity")
      as [_ Hafter]; [done|exact fade_sorted|].
    destruct Hafter as (final & Hlast & Hvalue & _).
    + intros kf Hin. unfold propertyKeyframesOf in Hin. rewrite fade_keyframes in Hin.
      apply list_elem_of_filter in Hin as [_ Hin].
      apply elem_of_cons in Hin as [->|Hin]; [simpl; lia|].
      apply list_elem_of_singleton in Hin as ->. simpl. lia.
    + injection Hlast as <-. exact Hvalue.
Defined.

(** A keyframe is added at frame 15 and removed again. *)
Lemma removeKeyframe_undoes_addKeyframe_witness :
  let removed :=
    KeyframeManager.removeKeyframe
      (KeyframeManager.addKeyframe fade "clip1"
         (Keyframe.mk 15 "opacity" (VNumber (1 # 2)%Q) None))
      "clip1" 15 "opacity" in
  removed.2 = true
  ∧ JsMap.get "clip1" (KeyframeManager.keyframes removed.1)
    = Some (keyframesOf fade "clip1").
Proof.
  intros removed.
  destruct (removeKeyframe_undoes_addKeyframe fade "clip1"
              (Keyframe.mk 15 "opacity" (VNumber (1 # 2)%Q) None)
              fade_sorted eq_refl) as (Hok & Hget & _).
  split; [exact Hok|exact Hget].
Defined.

(** Halfway between the two keyframes the opacity is interpolated with the
    easing of the first one. *)
Lemma getValue_between_keyframes_witness :
  KeyframeManager.getValue fade "clip1" 15 "opacity"
  = Some (KeyframeManager.interpolate (VNumber 0%Q) (VNumber 1%Q)
            (div (ofInteger 15) (ofInteger 30)) EaseIn).
Proof.
  apply (proj1 (getValue_between_keyframes fade "clip1" 15 "opacity"
                  (Keyframe.mk 0 "opacity" (VNumber 0%Q) (Some EaseIn))
                  (Keyframe.mk 30 "opacity" (VNumber 1%Q) None)
                  fade_sorted
                  ltac:(intros kf Hin; unfold propertyKeyframesOf in Hin;
                        rewrite fade_keyframes in Hin;
                        apply list_elem_of_filter in Hin as [_ Hin];
                        apply elem_of_cons in Hin as [->|Hin];
                        [discriminate|];
                        apply list_elem_of_singleton in Hin as ->; discriminate)
                  eq_refl eq_refl)).
Defined.

(** ** Sessions and requests *)

Lemma set_same {V} (m : list (string * V)) k v : JsMap.get k m = Some v → JsMap.set k v m = m.
Proof.
  unfold JsMap.get, JsMap.set.
  destruct (list_find _ m) as [[i [k' v']]|] eqn:Hfind; [|done].
  intros [= ->]. apply find_key_Some in Hfind as (Hk & Hi & _). simpl in Hk. subst k'.
  by apply list_insert_id.
Qed.

Lemma putSession_same srv k s :
  MCPVideoEditingServer.getSession srv (Some k) = Some s →
  MCPVideoEditingServer.putSession srv (Some k) s = srv.
Proof.
  unfold MCPVideoEditingServer.getSession, MCPVideoEditingServer.putSession.
  intros Hget. rewrite set_same by done. by destruct srv.
Qed.

Lemma getSession_putSession_ne srv sid s other :
  sid ≠ Some other →
  MCPVideoEditingServer.getSession (MCPVideoEditingServer.putSession srv sid s) (Some other)
  = MCPVideoEditingServer.getSession srv (Some other).
Proof.
  intros Hne. destruct sid as [k|]; [|done]. simpl.
  apply get_set_ne. by intros ->.
Qed.

(** X24. A request that names no session of the server is turned down
    before anything else happens: each of the handlers of
    [edit.create_track], [edit.set_properties], [agent.submit_asset],
    [agent.submit_directives], [agent.get_status] and [agent.execute_next]
    throws ["Session not found"] and leaves the server as it was. *)
Theorem unknown_session_is_rejected (srv : MCPVideoEditingServer.t)
    (params : RequestParams.t) (newId : string) :
  MCPVideoEditingServer.getSession srv (RequestParams.sessionId params) = None →
  MCPVideoEditingServer.handleCreateTrack srv params newId
  = (srv, Throw (Error "Session not found"))
  ∧ MCPVideoEditingServer.handleSetProperties srv params
    = (srv, Throw (Error "Session not found"))
  ∧ MCPVideoEditingServer.handleSubmitAsset srv params
    = (srv, Throw (Error "Session not found"))
  ∧ MCPVideoEditingServer.handleSubmitDirectives srv params
    = (srv, Throw (Error "Session not found"))
  ∧ MCPVideoEditingServer.handleGetStatus srv params
    = (srv, Throw (Error "Session not found"))
  ∧ MCPVideoEditingServer.handleExecuteNext srv params newId
    = (srv, Throw (Error "Session not found")).
Proof.
  intros Hnone.
  unfold MCPVideoEditingServer.handleCreateTrack, MCPVideoEditingServer.handleSetProperties,
    MCPVideoEditingServer.handleSubmitAsset, MCPVideoEditingServer.handleSubmitDirectives,
    MCPVideoEditingServer.handleGetStatus, MCPVideoEditingServer.handleExecuteNext.
  by rewrite Hnone.
Qed.

(** A status request for ["s1"] to a server without sessions. *)
Lemma unknown_session_is_rejected_witness :
  MCPVideoEditingServer.handleGetStatus MCPVideoEditingServer.new
    (RequestParams.ofSession "s1")
  = (MCPVideoEditingServer.new, Throw (Error "Session not found")).
Proof.
  destruct (unknown_session_is_rejected MCPVideoEditingServer.new
              (RequestParams.ofSession "s1") "n1" eq_refl)
    as (_ & _ & _ & _ & Hstatus & _).
  exact Hstatus.
Defined.

(** The server after a handler ran is the server before, or that server
    with the session of the request put back. *)
Lemma handlers_touch_one_session srv params newId :
  let touched srv' :=
    srv' = srv ∨ ∃ s, srv' = MCPVideoEditingServer.putSession srv
                               (RequestParams.sessionId params) s in
  touched (MCPVideoEditingServer.handleCreateTrack srv params newId).1
  ∧ touched (MCPVideoEditingServer.handleSetProperties srv params).1
  ∧ touched (MCPVideoEditingServer.handleSubmitAsset srv params).1
  ∧ touched (MCPVideoEditingServer.handleSubmitDirectives srv params).1
  ∧ touched (MCPVideoEditingServer.handleGetStatus srv params).1
  ∧ touched (MCPVideoEditingServer.handleExecuteNext srv params newId).1.
Proof.
  intros touched. subst touched. cbv beta.
  unfold MCPVideoEditingServer.handleCreateTrack, MCPVideoEditingServer.handleSetProperties,
    MCPVideoEditingServer.handleSubmitAsset, MCPVideoEditingServer.handleSubmitDirectives,
    MCPVideoEditingServer.handleGetStatus, MCPVideoEditingServer.handleExecuteNext.
  destruct (MCPVideoEditingServer.getSession srv _) as [session|]; [|by repeat split; left].
  split_and!.
  - right. by eexists.
  - repeat case_match; first [by left|right; by eexists].
  - repeat case_match; first [by left|right; by eexists].
  - repeat case_match; first [by left|right; by eexists].
  - by left.
  - repeat case_match; first [by left|right; by eexists].
Qed.

(** X25. Sessions are isolated: whatever a request does to the session it
    names, every other session of the server is afterwards what it was
    before, for each of the six handlers. *)
Theorem sessions_are_isolated (srv : MCPVideoEditingServer.t)
    (params : RequestParams.t) (newId other : string) :
  RequestParams.sessionId params ≠ Some other →
  let same srv' :=
    MCPVideoEditingServer.getSession srv' (Some other)
    = MCPVideoEditingServer.getSession srv (Some other) in
  same (MCPVideoEditingServer.handleCreateTrack srv params newId).1
  ∧ same (MCPVideoEditingServer.handleSetProperties srv params).1
  ∧ same (MCPVideoEditingServer.handleSubmitAsset srv params).1
  ∧ same (MCPVideoEditingServer.handleSubmitDirectives srv params).1
  ∧ same (MCPVideoEditingServer.handleGetStatus srv params).1
  ∧ same (MCPVideoEditingServer.handleExecuteNext srv params newId).1.
Proof.
  intros Hne same. subst same. cbv beta.
  destruct (handlers_touch_one_session srv params newId) as (H1 & H2 & H3 & H4 & H5 & H6).
  split_and!.
  - destruct H1 as [->|[s ->]]; [done|by apply getSession_putSession_ne].
  - destruct H2 as [->|[s ->]]; [done|by apply getSession_putSession_ne].
  - destruct H3 as [->|[s ->]]; [done|by apply getSession_putSession_ne].
  - destruct H4 as [->|[s ->]]; [done|by apply getSession_putSession_ne].
  - destruct H5 as [->|[s ->]]; [done|by apply getSession_putSession_ne].
  - destruct H6 as [->|[s ->]]; [done|by apply getSession_putSession_ne].
Qed.

(** A directive-less [agent.execute_next] for ["s1"] leaves ["s2"] alone. *)
Lemma sessions_are_isolated_witness :
  MCPVideoEditingServer.getSession
    (MCPVideoEditingServer.handleExecuteNext twoSessions
       (RequestParams.ofSession "s1") "n1").1 (Some "s2")
  = Some (EditingSession.new "s2").
Proof.
  destruct (sessions_are_isolated twoSessions (RequestParams.ofSession "s1") "n1" "s2")
    as (_ & _ & _ & _ & _ & Hnext); [discriminate|].
  rewrite Hnext. reflexivity.
Defined.

(** X26. [createSession] and [deleteSession]: a session created under an
    identifier that was not in use is found under it, new and empty, and
    leaves the other sessions alone; deleting it returns [true] and gives
    back the server as it was before, while deleting an identifier that
    is not in use returns [false] and changes nothing. *)
Theorem deleteSession_undoes_createSession (srv : MCPVideoEditingServer.t)
    (sessionId : string) :
  MCPVideoEditingServer.getSession srv (Some sessionId) = None →
  let created := (MCPVideoEditingServer.createSession srv sessionId).1 in
  MCPVideoEditingServer.getSession created (Some sessionId)
  = Some (EditingSession.new sessionId)
  ∧ (∀ other, other ≠ sessionId →
       MCPVideoEditingServer.getSession created (Some other)
       = MCPVideoEditingServer.getSession srv (Some other))
  ∧ MCPVideoEditingServer.deleteSession created sessionId = (srv, true)
  ∧ MCPVideoEditingServer.deleteSession srv sessionId = (srv, false).
Proof.
  intros Hnone created. subst created. simpl in *. split_and!.
  - apply get_set_eq.
  - intros other Hne. by apply get_set_ne.
  - unfold MCPVideoEditingServer.deleteSession. simpl.
    unfold JsMap.get in Hnone. unfold JsMap.set, JsMap.delete.
    destruct (list_find _ (MCPVideoEditingServer.sessions srv)) as [[i kv]|] eqn:Hfind;
      [done|].
    assert (list_find (λ kv, kv.1 = sessionId)
              (MCPVideoEditingServer.sessions srv
                 ++ [(sessionId, EditingSession.new sessionId)])
            = Some (length (MCPVideoEditingServer.sessions srv),
                    (sessionId, EditingSession.new sessionId))) as ->.
    { apply list_find_Some. split; [|split].
      - by rewrite lookup_app_r, Nat.sub_diag.
      - done.
      - intros j y Hj Hlt. rewrite lookup_app_l in Hj by done.
        apply list_find_None in Hfind. rewrite Forall_forall in Hfind.
        apply Hfind. by eapply list_elem_of_lookup_2. }
    simpl. rewrite delete_middle, app_nil_r. by destruct srv.
  - unfold MCPVideoEditingServer.deleteSession.
    rewrite delete_missing by done. by destruct srv.
Qed.

(** The session ["s2"] is created on the server with ["s1"] and deleted. *)
Lemma deleteSession_undoes_createSession_witness :
  MCPVideoEditingServer.deleteSession
    (MCPVideoEditingServer.createSession assetOnlyServer "s2").1 "s2"
  = (assetOnlyServer, true).
Proof.
  destruct (deleteSession_undoes_createSession assetOnlyServer "s2" eq_refl)
    as (_ & _ & Hdelete & _).
  exact Hdelete.
Defined.

(** X27. [executeAddBGM] does not find the track it creates: it looks for
    a track whose name contains ["BGM"] and, finding none, creates one
    named ["Background Music"], a name that does not contain ["BGM"]. So
    on a session none of whose track names contains ["BGM"], a directive
    with an asset appends a new, empty audio track, and the session is
    again one without such a name: the next directive appends another. The
    session is not marked dirty. *)
Theorem add_bgm_never_finds_its_track (session : EditingSession.t)
    (params : DirectiveParameters.t) (newId : string) :
  DirectiveParameters.asset params ≠ None →
  NoBgmTrack session →
  TimelineManager.getTrack (EditingSession.getTimelineManager session) newId = None →
  ∃ session',
    MCPVideoEditingServer.executeAddBGM session params newId = (session', Return ())
    ∧ TimelineManager.getTracks (EditingSession.getTimelineManager session')
      = TimelineManager.getTracks (EditingSession.getTimelineManager session)
        ++ [Track.mk newId (Some "Background Music") (Some TAudio) [] false true
              (Some 1%Q)]
    ∧ NoBgmTrack session'
    ∧ EditingSession.isDirtyState session' = EditingSession.isDirtyState session.
Proof.
  intros Hasset Hnone Hfresh. unfold MCPVideoEditingServer.executeAddBGM.
  destruct (DirectiveParameters.asset params) as [asset|]; [|done].
  assert (findTrackByName "BGM"
            (TimelineManager.getTracks (EditingSession.getTimelineManager session))
          = Return None) as ->.
  { unfold NoBgmTrack in Hnone.
    induction Hnone as [|track tracks (n & Hname & Hno) _ IH]; [done|].
    simpl. by rewrite Hname, Hno. }
  pose proof (createTrack_appends (EditingSession.getTimelineManager session)
                (Some "Background Music") (Some TAudio) newId Hfresh) as Htracks.
  exists (EditingSession.with_timelineManager
            (TimelineManager.createTrack (EditingSession.getTimelineManager session)
               (Some "Background Music") (Some TAudio) newId).1 session).
  split; [done|]. split; [exact Htracks|]. split; [|done].
  unfold NoBgmTrack in *.
  change (EditingSession.getTimelineManager (EditingSession.with_timelineManager ?tm _))
    with tm.
  rewrite Htracks. apply Forall_app. split; [done|].
  apply Forall_singleton. by exists "Background Music".
Qed.

(** A music directive is run on the session with the one video track. *)
Lemma add_bgm_never_finds_its_track_witness :
  ∃ session',
    MCPVideoEditingServer.executeAddBGM videoSession
      (EditingDirective.parameters (bgmDirective "d1" 1)) "t2"
    = (session', Return ())
    ∧ Track.name
        <$> TimelineManager.getTracks (EditingSession.getTimelineManager session')
      = [Some "Video Track"; Some "Background Music"]
    ∧ NoBgmTrack session'.
Proof.
  destruct (add_bgm_never_finds_its_track videoSession
              (EditingDirective.parameters (bgmDirective "d1" 1)) "t2")
    as (session' & Hrun & Htracks & Hagain & _).
  - discriminate.
  - apply Forall_singleton. by exists "Video Track".
  - reflexivity.
  - exists session'. split; [exact Hrun|]. split; [|exact Hagain].
    rewrite Htracks. reflexivity.
Defined.

(** X28. [agent.execute_next] on an empty queue answers [success: false]
    with the message ["No pending directives"] and leaves the server,
    status report included, exactly as it was. *)
Theorem executeNext_on_empty_queue (srv : MCPVideoEditingServer.t) (sessionId : string)
    (session : EditingSession.t) (newId : string) :
  MCPVideoEditingServer.getSession srv (Some sessionId) = Some session →
  EditingSession.pendingDirectives session = [] →
  MCPVideoEditingServer.handleExecuteNext srv (RequestParams.ofSession sessionId) newId
  = (srv, Return (ResponseResult.mk (Some false) (Some "No pending directives")
                    None None None)).
Proof.
  intros Hsession Hempty. unfold MCPVideoEditingServer.handleExecuteNext.
  change (RequestParams.sessionId (RequestParams.ofSession sessionId))
    with (Some sessionId).
  rewrite Hsession. unfold EditingSession.getNextDirective. rewrite Hempty.
  cbn -[MCPVideoEditingServer.putSession]. by rewrite putSession_same.
Qed.

(** The session ["s1"] has received an asset and no directive. *)
Lemma executeNext_on_empty_queue_witness :
  MCPVideoEditingServer.handleExecuteNext assetOnlyServer
    (RequestParams.ofSession "s1") "n1"
  = (assetOnlyServer,
     Return (ResponseResult.mk (Some false) (Some "No pending directives")
               None None None)).
Proof.
  destruct (MCPVideoEditingServer.getSession assetOnlyServer (Some "s1"))
    as [session|] eqn:Hsession; [|discriminate].
  apply (executeNext_on_empty_queue assetOnlyServer "s1" session "n1" Hsession).
  by injection Hsession as <-.
Defined.

(** ** Sample runs for the cached total and for locked tracks *)


(** An add, a trim and a split on the locked track. *)
Lemma locked_track_rejects_timeline_mutations_witness :
  TimelineManager.addItemToTrack lockedTimeline "t1" (clip "D" 40 10) None "op1" 1
  = (lockedTimeline, false)
  ∧ TimelineManager.trimItem lockedTimeline "t1" "B" (Some 12%Z) None "op1" 1
    = (lockedTimeline, false)
  ∧ TimelineManager.splitItem lockedTimeline "t1" "B" 15 "B2" "op1" 1
    = (lockedTimeline, false).
Proof.
  destruct (locked_track_rejects_timeline_mutations lockedTimeline "t1" lockedTrack
              eq_refl eq_refl) as (Hadd & _ & _ & _ & Htrim & Hsplit).
  split; [apply Hadd|]. split; [apply Htrim|apply Hsplit].
Defined.
